(** * grok4sf2midi: SoundFont 2 parser, zone resolver and MIDI scheduler

    A shallow embedding of [grok4sf2midi.js].  A [DataView] is the list of
    the bytes of its buffer, JavaScript exceptions are the [Throw] results
    of an error monad, plain objects used as dictionaries are [gmap]s, and
    arrays are lists read with a bounds-checked lookup. *)

From Stdlib Require Import ZArith QArith Qround String Ascii List Lia Reals Lra.
From stdpp Require Import base option list functions sorting gmap strings.

Local Open Scope Z_scope.

(** ** Exceptions *)

Inductive js_error :=
  | RangeError               (* DataView / typed-array access out of bounds *)
  | TypeError                (* property read on [undefined] *)
  | Error (msg : string).    (* [throw new Error(msg)] *)

Inductive result (A : Type) :=
  | Ok (a : A)
  | Throw (e : js_error).
Arguments Ok {A} a.
Arguments Throw {A} e.

(** Sequencing: an exception aborts everything that follows ([x ← r; k]). *)
Global Instance result_bind : MBind result := λ A B k r,
  match r with
  | Ok a => k a
  | Throw e => Throw e
  end.

(** [xs.forEach(f)] and [for] loops whose body may throw. *)
Fixpoint mapM {A B} (f : A → result B) (l : list A) : result (list B) :=
  match l with
  | [] => Ok []
  | x :: l' => y ← f x; ys ← mapM f l'; Ok (y :: ys)
  end.

Fixpoint foldM {A S} (f : S → A → result S) (l : list A) (s : S) : result S :=
  match l with
  | [] => Ok s
  | x :: l' => s' ← f s x; foldM f l' s'
  end.

(** ** DataView *)

Definition DataView := list Byte.byte.

Definition byteLength (view : DataView) : Z := Z.of_nat (length view).

Definition byte_val (b : Byte.byte) : Z := Z.of_N (Byte.to_N b).

(** [arr[i]] for an integer [i]: [undefined] out of range (negative too). *)
Definition arr_get {A} (l : list A) (i : Z) : option A :=
  if 0 <=? i then l !! Z.to_nat i else None.

Definition getUint8 (view : DataView) (offset : Z) : result Z :=
  match arr_get view offset with
  | Some b => Ok (byte_val b)
  | None => Throw RangeError
  end.

(** The [n] bytes at [offset]; the range check precedes every read. *)
Definition getBytes (view : DataView) (offset : Z) (n : nat) : result (list Z) :=
  if (0 <=? offset) && (offset + Z.of_nat n <=? byteLength view)
  then Ok (byte_val <$> take n (drop (Z.to_nat offset) view))
  else Throw RangeError.

(** Value of a byte string, least significant byte first. *)
Fixpoint le_val (bs : list Z) : Z :=
  match bs with
  | [] => 0
  | b :: bs' => b + 256 * le_val bs'
  end.

Definition uint_val (littleEndian : bool) (bs : list Z) : Z :=
  le_val (if littleEndian then bs else reverse bs).

(** Two's-complement reading of a [w]-bit unsigned value. *)
Definition to_signed (w : Z) (u : Z) : Z :=
  if u <? 2 ^ (w - 1) then u else u - 2 ^ w.

Definition getUint16 (view : DataView) (offset : Z) (littleEndian : bool) : result Z :=
  bs ← getBytes view offset 2; Ok (uint_val littleEndian bs).

Definition getUint32 (view : DataView) (offset : Z) (littleEndian : bool) : result Z :=
  bs ← getBytes view offset 4; Ok (uint_val littleEndian bs).

Definition getInt16 (view : DataView) (offset : Z) (littleEndian : bool) : result Z :=
  u ← getUint16 view offset littleEndian; Ok (to_signed 16 u).

Definition getInt8 (view : DataView) (offset : Z) : result Z :=
  u ← getUint8 view offset; Ok (to_signed 8 u).

Definition fromCharCode (c : Z) : ascii := ascii_of_N (Z.to_N c).

(** [readString]: at most [length] characters, stopping at the first NUL.
    A read past the buffer throws even when fewer characters are kept. *)
Fixpoint readString (view : DataView) (offset : Z) (length : nat) : result string :=
  match length with
  | O => Ok EmptyString
  | S n =>
      char ← getUint8 view offset;
      if char =? 0 then Ok EmptyString
      else str ← readString view (offset + 1) n;
           Ok (String (fromCharCode char) str)
  end.

(** ** RIFF chunks *)

Record Chunk := mkChunk {
  chunk_id : string;
  chunk_size : Z;
  chunk_offset : Z;    (* [offset]: first byte of the body *)
  chunk_end : Z        (* [end]: [offset + size], before padding *)
}.

Definition readChunk (view : DataView) (offset : Z) : result Chunk :=
  id ← readString view offset 4;
  size ← getUint32 view (offset + 4) true;
  Ok (mkChunk id size (offset + 8) (offset + 8 + size)).

(** What [parseRIFF] stores under a tag: a leaf [{dataOffset, size}] or,
    for a [RIFF]/[LIST] container, the mapping of its children. *)
#[local] Set Warnings "-register-all".
Inductive ChunkNode :=
  | Leaf (dataOffset size : Z)
  | Form (children : gmap string ChunkNode).
#[local] Set Warnings "register-all".

Definition is_container (id : string) : bool :=
  bool_decide (id = "RIFF"%string) || bool_decide (id = "LIST"%string).

(** State of the [while] loop of [parseRIFF] on exit: the mapping it
    returns, the sibling chunk headers it read (in order) and the value of
    the local [offset]. *)
Record RiffLoop := mkRiffLoop {
  loop_chunks : gmap string ChunkNode;
  loop_visited : list Chunk;
  loop_offset : Z
}.

(** One unit of fuel per loop iteration and per recursive call; [None] is
    fuel exhaustion, which [parseRIFF_fuel_enough] rules out. *)
Fixpoint parseRIFF_fuel (fuel : nat) (view : DataView) (offset end_ : Z)
    (chunks : gmap string ChunkNode) (visited : list Chunk) : option (result RiffLoop) :=
  if offset <? end_ then
    match fuel with
    | O => None
    | S fuel' =>
        match readChunk view offset with
        | Throw e => Some (Throw e)
        | Ok chunk =>
            let next := chunk.(chunk_end) + chunk.(chunk_size) `mod` 2 in
            if is_container chunk.(chunk_id) then
              match readString view chunk.(chunk_offset) 4 with
              | Throw e => Some (Throw e)
              | Ok formType =>
                  match parseRIFF_fuel fuel' view (chunk.(chunk_offset) + 4) chunk.(chunk_end) ∅ [] with
                  | None => None
                  | Some (Throw e) => Some (Throw e)
                  | Some (Ok sub) =>
                      parseRIFF_fuel fuel' view next end_
                        (<[formType := Form sub.(loop_chunks)]> chunks) (visited ++ [chunk])
                  end
              end
            else
              parseRIFF_fuel fuel' view next end_
                (<[chunk.(chunk_id) := Leaf chunk.(chunk_offset) chunk.(chunk_size)]> chunks)
                (visited ++ [chunk])
        end
    end
  else Some (Ok (mkRiffLoop chunks visited offset)).

Definition parseRIFF_loop (view : DataView) (offset end_ : Z) : result RiffLoop :=
  match parseRIFF_fuel (S (length view)) view offset end_ ∅ [] with
  | Some r => r
  | None => Throw RangeError
  end.

Definition parseRIFF (view : DataView) (offset end_ : Z) : result (gmap string ChunkNode) :=
  st ← parseRIFF_loop view offset end_; Ok st.(loop_chunks).

(** Bytes of an example buffer, written as numbers. *)
Definition b8 (z : Z) : Byte.byte :=
  match Byte.of_N (Z.to_N z) with
  | Some b => b
  | None => Byte.x00
  end.

Definition ascii_bytes (s : string) : list Byte.byte :=
  byte_of_ascii <$> list_ascii_of_string s.

(** ** Parsed entities *)

Record Sample := mkSample {
  sampleName : string;
  start : Z;
  end_ : Z;
  startLoop : Z;
  endLoop : Z;
  sampleRate : Z;
  originalKey : Z;
  correction : Z;
  sampleLink : Z;
  sampleType : Z
}.

Record Generator := mkGenerator {
  op : Z;
  amount : Z
}.

Record Range := mkRange {
  lo : Z;
  hi : Z
}.

(** [modulators] is never filled by the parser and is left out;
    [None] is [null]. *)
Record Zone := mkZone {
  generators : list Generator;
  keyRange : Range;
  velRange : Range;
  sampleID : option Z;
  instrumentID : option Z
}.

Record Instrument := mkInstrument {
  instrumentName : string;
  instrumentZones : list Zone
}.

Record Preset := mkPreset {
  presetName : string;
  program : Z;
  bank : Z;
  presetZones : list Zone
}.

Definition new_Zone (gens : list Generator) : Zone :=
  mkZone gens (mkRange 0 127) (mkRange 0 127) None None.

(** [{lo: amount & 0xFF, hi: (amount >> 8) & 0xFF}] *)
Definition range_of_amount (a : Z) : Range :=
  mkRange (Z.land a 255) (Z.land (Z.shiftr a 8) 255).

(** The [forEach] over the generators of a freshly built instrument zone. *)
Definition inst_zone_gen (zone : Zone) (gen : Generator) : Zone :=
  let zone :=
    if gen.(op) =? 43
    then mkZone zone.(generators) (range_of_amount gen.(amount)) zone.(velRange)
                zone.(sampleID) zone.(instrumentID)
    else zone in
  let zone :=
    if gen.(op) =? 44
    then mkZone zone.(generators) zone.(keyRange) (range_of_amount gen.(amount))
                zone.(sampleID) zone.(instrumentID)
    else zone in
  if gen.(op) =? 53
  then mkZone zone.(generators) zone.(keyRange) zone.(velRange)
              (Some gen.(amount)) zone.(instrumentID)
  else zone.

(** The same for a preset zone. *)
Definition preset_zone_gen (zone : Zone) (gen : Generator) : Zone :=
  let zone :=
    if gen.(op) =? 41
    then mkZone zone.(generators) zone.(keyRange) zone.(velRange)
                zone.(sampleID) (Some gen.(amount))
    else zone in
  let zone :=
    if gen.(op) =? 43
    then mkZone zone.(generators) (range_of_amount gen.(amount)) zone.(velRange)
                zone.(sampleID) zone.(instrumentID)
    else zone in
  if gen.(op) =? 44
  then mkZone zone.(generators) zone.(keyRange) (range_of_amount gen.(amount))
              zone.(sampleID) zone.(instrumentID)
  else zone.

(** ** Loops and numbers *)

(** The values of [i] in [for (let i = 0; i < n; i++)], [n] an integer. *)
Definition for_lt (n : Z) : list Z := Z.of_nat <$> seq 0 (Z.to_nat n).

(** The same for a bound that is a quotient such as [size / 38]: an integer
    is below a fraction exactly when it is below its ceiling. *)
Definition for_lt_Q (bound : Q) : list Z := for_lt (Qceiling bound).

(** A number that may be [NaN] ([None]): what [tbl.dataOffset + k] is when
    [tbl] is a container, which has no [dataOffset]. *)
Definition nan_add (x : option Z) (d : Z) : option Z := (λ o, o + d) <$> x.

(** [ToIndex], applied by every [DataView] getter to its offset. *)
Definition ToIndex (x : option Z) : Z := default 0 x.

(** [tbl.dataOffset + d]; [tbl] is [undefined] when the tag is absent. *)
Definition dataOffset_plus (tbl : option ChunkNode) (d : Z) : result (option Z) :=
  match tbl with
  | None => Throw TypeError
  | Some (Leaf o _) => Ok (Some (o + d))
  | Some (Form _) => Ok None
  end.

(** [node.key] for a chunk tag [key]. *)
Definition child (node : option ChunkNode) (key : string) : result (option ChunkNode) :=
  match node with
  | None => Throw TypeError
  | Some (Leaf _ _) => Ok None
  | Some (Form m) => Ok (m !! key)
  end.

(** ** SoundFontParser.parse *)

Definition parse_generators (view : DataView) (gen : option ChunkNode)
    (genNdx numGens : Z) : result (list Generator) :=
  mapM (λ g,
    genOff ← dataOffset_plus gen ((genNdx + g) * 4);
    op ← getUint16 view (ToIndex genOff) true;
    amount ← getInt16 view (ToIndex (nan_add genOff 2)) true;
    Ok (mkGenerator op amount)) (for_lt numGens).

Definition parse_zones (view : DataView) (bag gen : option ChunkNode)
    (zone_gen : Zone → Generator → Zone) (bagNdx numZones : Z) : result (list Zone) :=
  mapM (λ z,
    bagOff ← dataOffset_plus bag ((bagNdx + z) * 4);
    genNdx ← getUint16 view (ToIndex bagOff) true;
    modNdx ← getUint16 view (ToIndex (nan_add bagOff 2)) true;
    nextGenNdx ← getUint16 view (ToIndex (nan_add bagOff 4)) true;
    generators ← parse_generators view gen genNdx (nextGenNdx - genNdx);
    Ok (fold_left zone_gen generators (new_Zone generators))) (for_lt numZones).

(** Lines 108-123: the sample headers, [size / 46] records of 46 bytes. *)
Definition parse_samples (view : DataView) (dataOffset size : Z) : result (list Sample) :=
  mapM (λ i,
    let off := dataOffset + i * 46 in
    name ← readString view off 20;
    start ← getUint32 view (off + 20) true;
    end_ ← getUint32 view (off + 24) true;
    startLoop ← getUint32 view (off + 28) true;
    endLoop ← getUint32 view (off + 32) true;
    sampleRate ← getUint32 view (off + 36) true;
    originalKey ← getUint8 view (off + 40);
    correction ← getInt8 view (off + 41);
    sampleLink ← getUint16 view (off + 42) true;
    sampleType ← getUint16 view (off + 44) true;
    Ok (mkSample name start end_ startLoop endLoop sampleRate originalKey
                 correction sampleLink sampleType))
    (for_lt_Q (size # 46)).

(** Lines 125-160: the instrument headers, 22 bytes each; the loop bound is
    [numInst - 1] with [numInst = size / 22]. *)
Definition parse_instruments (view : DataView) (dataOffset size : Z)
    (ibag igen : option ChunkNode) : result (list Instrument) :=
  mapM (λ i,
    let off := dataOffset + i * 22 in
    name ← readString view off 20;
    bagNdx ← getUint16 view (off + 20) true;
    nextBagNdx ← getUint16 view (off + 20 + 22) true;
    zones ← parse_zones view ibag igen inst_zone_gen bagNdx (nextBagNdx - bagNdx);
    Ok (mkInstrument name zones))
    (for_lt_Q ((size # 22) - 1)).

(** Lines 162-199: the preset headers, 38 bytes each; the loop bound is
    [numPresets - 1] with [numPresets = size / 38]. *)
Definition parse_presets (view : DataView) (dataOffset size : Z)
    (pbag pgen : option ChunkNode) : result (list Preset) :=
  mapM (λ i,
    let off := dataOffset + i * 38 in
    name ← readString view off 20;
    program ← getUint16 view (off + 20) true;
    bank ← getUint16 view (off + 22) true;
    bagNdx ← getUint16 view (off + 24) true;
    nextBagNdx ← getUint16 view (off + 24 + 38) true;
    zones ← parse_zones view pbag pgen preset_zone_gen bagNdx (nextBagNdx - bagNdx);
    Ok (mkPreset name program bank zones))
    (for_lt_Q ((size # 38) - 1)).

(** [new Int16Array(buffer, dataOffset, size / 2)]: the offset must be even
    and the [floor (size / 2)] elements must lie inside the buffer. *)
Definition Int16Array (view : DataView) (dataOffset size : Z) : result (list Z) :=
  let length := size `div` 2 in
  if negb (dataOffset `mod` 2 =? 0) then Throw RangeError
  else if byteLength view <? dataOffset + 2 * length then Throw RangeError
  else mapM (λ i, getInt16 view (dataOffset + 2 * i) true) (for_lt length).

Record SoundFontParser := mkSoundFontParser {
  samples : list Sample;
  instruments : list Instrument;
  presets : list Preset;
  sampleData : option (list Z)
}.

(** A table tag that holds a container has neither [size] nor [dataOffset]:
    the record count is [NaN] and its loop does not run. *)
Definition with_table {A} (tbl : option ChunkNode)
    (k : Z → Z → result (list A)) : result (list A) :=
  match tbl with
  | None => Throw TypeError
  | Some (Leaf dataOffset size) => k dataOffset size
  | Some (Form _) => Ok []
  end.

Definition parse (view : DataView) (riff : gmap string ChunkNode) : result SoundFontParser :=
  match riff !! "sfbk"%string with
  | None => Throw (Error "Not a valid SF2 file")
  | Some sfbk =>
      sdta ← child (Some sfbk) "sdta";
      smpl ← child sdta "smpl";
      sampleData ← match smpl with
                   | None => Ok None
                   | Some (Leaf dataOffset size) =>
                       d ← Int16Array view dataOffset size; Ok (Some d)
                   | Some (Form _) => Ok (Some [])
                   end;
      pdta ← child (Some sfbk) "pdta";
      shdr ← child pdta "shdr";
      samples ← with_table shdr (parse_samples view);
      inst ← child pdta "inst";
      ibag ← child pdta "ibag";
      igen ← child pdta "igen";
      instruments ← with_table inst (λ o s, parse_instruments view o s ibag igen);
      phdr ← child pdta "phdr";
      pbag ← child pdta "pbag";
      pgen ← child pdta "pgen";
      presets ← with_table phdr (λ o s, parse_presets view o s pbag pgen);
      Ok (mkSoundFontParser samples instruments presets sampleData)
  end.

(** [new SoundFontParser(arrayBuffer)] *)
Definition new_SoundFontParser (view : DataView) : result SoundFontParser :=
  riff ← parseRIFF view 0 (byteLength view);
  parse view riff.

(** ** Zone resolution *)

(** A match holds references: [sample] is the index of the [Sample] object
    in [samples] it aliases, or [None] for [undefined]. *)
Record Match := mkMatch {
  zone : Zone;
  sample : option nat;
  presetZone : Zone
}.

Definition in_range (x : Z) (r : Range) : bool :=
  (r.(lo) <=? x) && (x <=? r.(hi)).

(** [arr[i]] as a reference to the element rather than its value. *)
Definition arr_ref {A} (l : list A) (i : Z) : option nat :=
  match arr_get l i with
  | Some _ => Some (Z.to_nat i)
  | None => None
  end.

Definition getZonesForNote (this : SoundFontParser) (preset : Preset)
    (key velocity : Z) : result (list Match) :=
  foldM (λ matchingZones zone,
    if in_range key zone.(keyRange) && in_range velocity zone.(velRange) then
      match zone.(instrumentID) with
      | Some instrumentID =>
          match arr_get this.(instruments) instrumentID with
          | None => Throw TypeError       (* [inst.zones] with [inst] undefined *)
          | Some inst =>
              Ok (fold_left (λ matchingZones instZone,
                    if in_range key instZone.(keyRange)
                       && in_range velocity instZone.(velRange)
                    then match instZone.(sampleID) with
                         | Some sampleID =>
                             matchingZones ++
                               [mkMatch instZone (arr_ref this.(samples) sampleID) zone]
                         | None => matchingZones
                         end
                    else matchingZones)
                  inst.(instrumentZones) matchingZones)
          end
      | None => Ok matchingZones
      end
    else Ok matchingZones)
  preset.(presetZones) [].

(** ** Standard MIDI File parsing *)

(** [ToInt32] and the 32-bit [<<] of JavaScript. *)
Definition ToInt32 (z : Z) : Z := to_signed 32 (z `mod` 2 ^ 32).

Definition shl32 (z : Z) (n : Z) : Z := ToInt32 (Z.shiftl (ToInt32 z) n).

Record VLQ := mkVLQ {
  value : Z;
  bytes : Z
}.

(** The [while (true)] loop of [readVLQ], one unit of fuel per byte. *)
Fixpoint readVLQ_fuel (fuel : nat) (view : DataView) (offset value bytes : Z)
    : option (result VLQ) :=
  match fuel with
  | O => None
  | S fuel' =>
      match getUint8 view (offset + bytes) with
      | Throw e => Some (Throw e)
      | Ok byte =>
          let value := shl32 value 7 + Z.land byte 0x7F in
          let bytes := bytes + 1 in
          if Z.land byte 0x80 =? 0 then Some (Ok (mkVLQ value bytes))
          else readVLQ_fuel fuel' view offset value bytes
      end
  end.

Definition readVLQ (view : DataView) (offset : Z) : result VLQ :=
  match readVLQ_fuel (S (length view)) view offset 0 0 with
  | Some r => r
  | None => Throw RangeError
  end.

Inductive OneByteType := ProgramChange | ChannelPressure.

(** The optional fields of an event object: a meta event has [metaType] and
    [data], a sysex event [data], a channel message [channel], [type],
    [param1] and, unless its type is 0xC or 0xD, [param2]. *)
Inductive EventBody :=
  | Meta (metaType : Z) (data : list Z)
  | Sysex (data : list Z)
  | Channel1 (channel : Z) (type : OneByteType) (param1 : Z)
  | Channel2 (channel type param1 param2 : Z).

Record Event := mkEvent {
  delta : Z;
  status : Z;
  body : EventBody
}.

Record MIDIFile := mkMIDIFile {
  format : Z;
  division : Z;
  tracks : list (list Event)
}.

(** [new Uint8Array(len)] filled from the view. *)
Definition read_data (view : DataView) (offset len : Z) : result (list Z) :=
  if len <? 0 then Throw RangeError
  else mapM (λ j, getUint8 view (offset + j)) (for_lt len).

(** One iteration of the event loop of a track: the event and the new values
    of [offset] and [runningStatus]. *)
Definition read_event (view : DataView) (offset runningStatus : Z)
    : result (Event * Z * Z) :=
  delta ← readVLQ view offset;
  let offset := offset + delta.(bytes) in
  status ← getUint8 view offset;
  let offset := offset + 1 in
  let '(offset, status, runningStatus) :=
    if status <? 0x80 then (offset - 1, runningStatus, runningStatus)
    else (offset, status, status) in
  if status =? 0xFF then
    type ← getUint8 view offset;
    let offset := offset + 1 in
    len ← readVLQ view offset;
    let offset := offset + len.(bytes) in
    data ← read_data view offset len.(value);
    Ok (mkEvent delta.(value) status (Meta type data), offset + len.(value), runningStatus)
  else if (status =? 0xF0) || (status =? 0xF7) then
    len ← readVLQ view offset;
    let offset := offset + len.(bytes) in
    data ← read_data view offset len.(value);
    Ok (mkEvent delta.(value) status (Sysex data), offset + len.(value), runningStatus)
  else
    let channel := Z.land status 0x0F in
    let type := Z.shiftr status 4 in
    if (type =? 0xC) || (type =? 0xD) then
      param1 ← getUint8 view offset;
      Ok (mkEvent delta.(value) status
            (Channel1 channel (if type =? 0xC then ProgramChange else ChannelPressure) param1),
          offset + 1, runningStatus)
    else
      param1 ← getUint8 view offset;
      param2 ← getUint8 view (offset + 1);
      Ok (mkEvent delta.(value) status (Channel2 channel type param1 param2),
          offset + 2, runningStatus).

(** [while (offset < trackEnd)], one unit of fuel per event. *)
Fixpoint read_track_fuel (fuel : nat) (view : DataView) (offset trackEnd runningStatus : Z)
    (track : list Event) : option (result (list Event)) :=
  if offset <? trackEnd then
    match fuel with
    | O => None
    | S fuel' =>
        match read_event view offset runningStatus with
        | Throw e => Some (Throw e)
        | Ok (event, offset, runningStatus) =>
            read_track_fuel fuel' view offset trackEnd runningStatus (track ++ [event])
        end
    end
  else Some (Ok track).

Definition read_track (view : DataView) (offset trackEnd : Z) : result (list Event) :=
  match read_track_fuel (S (length view)) view offset trackEnd 0 [] with
  | Some r => r
  | None => Throw RangeError
  end.

Definition parseMIDI (view : DataView) : result MIDIFile :=
  magic ← readString view 0 4;
  if negb (bool_decide (magic = "MThd"%string)) then Throw (Error "Not a MIDI file")
  else
    format ← getUint16 view 8 false;
    ntracks ← getUint16 view 10 false;
    division ← getUint16 view 12 false;
    '(tracks, _) ← foldM (λ '(tracks, offset) (_ : Z),
        magic ← readString view offset 4;
        if negb (bool_decide (magic = "MTrk"%string)) then Throw (Error "Bad track")
        else
          let offset := offset + 4 in
          length ← getUint32 view offset false;
          let offset := offset + 4 in
          let trackEnd := offset + length in
          track ← read_track view offset trackEnd;
          Ok (tracks ++ [track], trackEnd))
      (for_lt ntracks) ([], 14);
    Ok (mkMIDIFile format division tracks).

(** ** Voice parameters *)

(** The numeric locals of the loop body of [playNote].  They are
    JavaScript numbers; integers are exact and the fractions that the
    default modulators introduce are kept as exact rationals. *)
Inductive numvar :=
  | rootKey | fineTune | coarseTune | scaleTune | atten | pan | sampleModes
  | reverbSend | chorusSend | filterFc | filterQ | modLfoToPitch | vibLfoToPitch
  | modEnvToPitch | modLfoToFilterFc | modEnvToFilterFc | modLfoToVolume
  | sustainVolEnv | sustainModEnv | freqModLfo | freqVibLfo.

(** The locals that hold a duration in seconds. *)
Inductive timevar :=
  | delayVolEnv | attackVolEnv | holdVolEnv | decayVolEnv | releaseVolEnv
  | delayModEnv | attackModEnv | holdModEnv | decayModEnv | releaseModEnv
  | delayModLfo | delayVibLfo.

Global Instance numvar_eq_dec : EqDecision numvar.
Proof. solve_decision. Defined.

Global Instance timevar_eq_dec : EqDecision timevar.
Proof. solve_decision. Defined.

(** A duration is either [Math.pow(2, cents / 1200)], kept symbolic, or the
    constant [minTime = 0.001]. *)
Inductive Seconds :=
  | Pow2Cents (cents : Z)
  | minTime.

(** [2 ^ (cents / 1200) < 0.001], decided on integers: raising both sides to
    the power 1200, [2 ^ cents < 10 ^ -3600]. *)
Definition below_minTime (cents : Z) : bool :=
  (cents <? 0) && (10 ^ 3600 <? 2 ^ (- cents)).

(** [Math.max(minTime, d)] *)
Definition Math_max_minTime (d : Seconds) : Seconds :=
  match d with
  | Pow2Cents cents => if below_minTime cents then minTime else d
  | minTime => minTime
  end.

Record Locals := mkLocals {
  num : numvar → Q;
  time : timevar → Seconds
}.

Definition set_num (v : numvar) (x : Q) (L : Locals) : Locals :=
  mkLocals (<[v := x]> L.(num)) L.(time).

Definition set_time (v : timevar) (x : Seconds) (L : Locals) : Locals :=
  mkLocals L.(num) (<[v := x]> L.(time)).

(** Lines 326-358: the initial values of the locals. *)
Definition init_locals (s : Sample) : Locals :=
  mkLocals
    (λ v, match v with
          | rootKey => inject_Z s.(originalKey)
          | scaleTune => 100
          | filterFc => 13500
          | sustainModEnv => 1000
          | _ => 0
          end%Q)
    (λ _, Pow2Cents (-12000)).

Definition add_start (d : Z) (s : Sample) : Sample :=
  mkSample s.(sampleName) (s.(start) + d) s.(end_) s.(startLoop) s.(endLoop)
           s.(sampleRate) s.(originalKey) s.(correction) s.(sampleLink) s.(sampleType).

Definition add_end (d : Z) (s : Sample) : Sample :=
  mkSample s.(sampleName) s.(start) (s.(end_) + d) s.(startLoop) s.(endLoop)
           s.(sampleRate) s.(originalKey) s.(correction) s.(sampleLink) s.(sampleType).

Definition add_startLoop (d : Z) (s : Sample) : Sample :=
  mkSample s.(sampleName) s.(start) s.(end_) (s.(startLoop) + d) s.(endLoop)
           s.(sampleRate) s.(originalKey) s.(correction) s.(sampleLink) s.(sampleType).

Definition add_endLoop (d : Z) (s : Sample) : Sample :=
  mkSample s.(sampleName) s.(start) s.(end_) s.(startLoop) (s.(endLoop) + d)
           s.(sampleRate) s.(originalKey) s.(correction) s.(sampleLink) s.(sampleType).

(** Lines 322-324: [effectiveGens], the per-operator sums over the
    instrument zone and then the preset zone. *)
Definition add_gen (effectiveGens : gmap Z Z) (gen : Generator) : gmap Z Z :=
  <[gen.(op) := default 0 (effectiveGens !! gen.(op)) + gen.(amount)]> effectiveGens.

Definition effective_gens (zone presetZone : Zone) : gmap Z Z :=
  fold_left add_gen presetZone.(generators)
    (fold_left add_gen zone.(generators) ∅).

(** [Object.keys]: integer keys come in ascending order. *)
Definition Object_keys (m : gmap Z Z) : list Z :=
  merge_sort Z.le (elements (dom m)).

(** Lines 362-405: one case of the [switch].  The state is the locals and
    the sample table; [sid] is the index of the aliased [sample] object. *)
Definition apply_gen (sid : nat) (st : Locals * list Sample) (op amount : Z)
    : Locals * list Sample :=
  let '(L, tbl) := st in
  let a := inject_Z amount in
  match op with
  | 0 => (L, alter (add_start amount) sid tbl)
  | 1 => (L, alter (add_end amount) sid tbl)
  | 2 => (L, alter (add_startLoop amount) sid tbl)
  | 3 => (L, alter (add_endLoop amount) sid tbl)
  | 4 => (L, alter (add_start (amount * 32768)) sid tbl)
  | 5 => (set_num modLfoToPitch a L, tbl)
  | 6 => (set_num vibLfoToPitch a L, tbl)
  | 7 => (set_num modEnvToPitch a L, tbl)
  | 8 => (set_num filterFc a L, tbl)
  | 9 => (set_num filterQ a L, tbl)
  | 10 => (set_num modLfoToFilterFc a L, tbl)
  | 11 => (set_num modEnvToFilterFc a L, tbl)
  | 12 => (L, alter (add_end (amount * 32768)) sid tbl)
  | 13 => (set_num modLfoToVolume a L, tbl)
  | 14 => (L, alter (add_startLoop (amount * 32768)) sid tbl)
  | 15 => (set_num chorusSend a L, tbl)
  | 16 => (set_num reverbSend a L, tbl)
  | 17 => (set_num pan a L, tbl)
  | 18 => (L, alter (add_endLoop (amount * 32768)) sid tbl)
  | 21 => (set_time delayModLfo (Pow2Cents amount) L, tbl)
  | 22 => (set_num freqModLfo a L, tbl)
  | 23 => (set_time delayVibLfo (Pow2Cents amount) L, tbl)
  | 24 => (set_num freqVibLfo a L, tbl)
  | 25 => (set_time delayModEnv (Pow2Cents amount) L, tbl)
  | 26 => (set_time attackModEnv (Pow2Cents amount) L, tbl)
  | 27 => (set_time holdModEnv (Pow2Cents amount) L, tbl)
  | 28 => (set_time decayModEnv (Pow2Cents amount) L, tbl)
  | 29 => (set_num sustainModEnv a L, tbl)
  | 30 => (set_time releaseModEnv (Pow2Cents amount) L, tbl)
  | 33 => (set_time delayVolEnv (Pow2Cents amount) L, tbl)
  | 34 => (set_time attackVolEnv (Pow2Cents amount) L, tbl)
  | 35 => (set_time holdVolEnv (Pow2Cents amount) L, tbl)
  | 36 => (set_time decayVolEnv (Pow2Cents amount) L, tbl)
  | 37 => (set_num sustainVolEnv a L, tbl)
  | 38 => (set_time releaseVolEnv (Pow2Cents amount) L, tbl)
  | 48 => (set_num atten (L.(num) atten + (amount # 10))%Q L, tbl)
  | 51 => (set_num coarseTune a L, tbl)
  | 52 => (set_num fineTune a L, tbl)
  | 54 => (set_num sampleModes a L, tbl)
  | 56 => (set_num scaleTune a L, tbl)
  | 58 => (set_num rootKey a L, tbl)
  | _ => st
  end.

(** The callback of the [forEach] over the keys: [amount] is read from
    [effectiveGens] and the [switch] runs. *)
Definition switch_on (sid : nat) (effectiveGens : gmap Z Z)
    (st : Locals * list Sample) (op : Z) : Locals * list Sample :=
  match effectiveGens !! op with
  | Some amount => apply_gen sid st op amount
  | None => st
  end.

(** Lines 360-406: [Object.keys(effectiveGens).forEach(...)]. *)
Definition apply_gens (sid : nat) (effectiveGens : gmap Z Z)
    (st : Locals * list Sample) : Locals * list Sample :=
  fold_left (switch_on sid effectiveGens) (Object_keys effectiveGens) st.

Record ChannelState := mkChannelState {
  ch_bank : Z;
  ch_preset : Z;
  ch_volume : Z;
  ch_expression : Z;
  ch_pan : Z;
  ch_mod : Z;
  ch_pitchBend : Z
}.

(** Lines 408-414: the default modulators. *)
Definition default_modulators (velocity : Z) (state : ChannelState) (L : Locals) : Locals :=
  let L := set_num atten (L.(num) atten + 96 * (1 - (velocity # 127) ^ 2))%Q L in
  let L := set_num filterFc (L.(num) filterFc + -2400 * (1 - (velocity # 127)))%Q L in
  let L := set_num vibLfoToPitch (L.(num) vibLfoToPitch + 50 * (state.(ch_mod) # 127))%Q L in
  let L := set_num atten (L.(num) atten + 96 * (1 - (state.(ch_volume) # 127)))%Q L in
  let L := set_num atten (L.(num) atten + 96 * (1 - (state.(ch_expression) # 127)))%Q L in
  set_num pan (L.(num) pan + 1000 * ((state.(ch_pan) # 127) - (1 # 2)))%Q L.

(** Lines 417-421: the minimum duration, applied to two of the locals. *)
Definition time_fixes (L : Locals) : Locals :=
  let L := set_time delayVolEnv (Math_max_minTime (L.(time) delayVolEnv)) L in
  set_time attackVolEnv (Math_max_minTime (L.(time) attackVolEnv)) L.

(** Lines 322-421 for one match whose [sample] is the object at index
    [sid]: the resolved locals and the sample table after the [switch]. *)
Definition resolve_params (tbl : list Sample) (sid : nat) (s : Sample) (m : Match)
    (velocity : Z) (state : ChannelState) : Locals * list Sample :=
  let effectiveGens := effective_gens m.(zone) m.(presetZone) in
  let '(L, tbl) := apply_gens sid effectiveGens (init_locals s, tbl) in
  (time_fixes (default_modulators velocity state L), tbl).

(** ** Voices *)

(** A play-head time: a rational number of seconds, or [None] when the
    arithmetic left the finite numbers (a division by a zero [division]). *)
Abbreviation Time := (option Q).

Record BufferPlan := mkBufferPlan {
  numChannels : Z;
  frames : Z;
  leftLoopStart : Z;
  leftLoopEnd : Z
}.

(** [new Float32Array(length)] followed by the loop that fills it from
    [sampleData]. *)
Definition fill_check (this : SoundFontParser) (length : Z) : result unit :=
  if length <? 0 then Throw RangeError
  else if (0 <? length) && bool_decide (this.(sampleData) = None) then Throw TypeError
  else Ok ().

(** Lines 424-457: mono or stereo buffer, its length and loop points. *)
Definition plan_buffer (this : SoundFontParser) (s : Sample) : result BufferPlan :=
  let mono :=
    let length := s.(end_) - s.(start) in
    _ ← fill_check this length;
    Ok (mkBufferPlan 1 length (s.(startLoop) - s.(start)) (s.(endLoop) - s.(start))) in
  if negb (Z.land s.(sampleType) 8 =? 0) || (s.(sampleType) =? 2) || (s.(sampleType) =? 4)
  then
    let linked := arr_get this.(samples) s.(sampleLink) in
    let '(leftSample, rightSample) :=
      if s.(sampleType) =? 2 then (linked, Some s) else (Some s, linked) in
    match leftSample with
    | None => Throw TypeError
    | Some l =>
        if l.(sampleType) =? 4 then
          match rightSample with
          | None => Throw TypeError
          | Some r =>
              if r.(sampleType) =? 2 then
                let length := Z.min (l.(end_) - l.(start)) (r.(end_) - r.(start)) in
                _ ← fill_check this length;
                Ok (mkBufferPlan 2 length (l.(startLoop) - l.(start))
                                 (l.(endLoop) - l.(start)))
              else mono
          end
        else mono
    end
  else mono.

(** What is handed to the audio backend for one matched zone pair. *)
Record Voice := mkVoice {
  voice_key : Z;
  voice_velocity : Z;
  voice_startTime : Time;
  voice_params : Locals;
  voice_buffer : BufferPlan
}.

(** The closure [playNote] returns: the [stop] functions of its voices
    ([[]] for the empty closure). *)
Abbreviation StopFn := (list Voice).

Definition with_samples (this : SoundFontParser) (tbl : list Sample) : SoundFontParser :=
  mkSoundFontParser tbl this.(instruments) this.(presets) this.(sampleData).

(** The body of the [for ... of zones] loop. *)
Definition play_zone (key velocity : Z) (startTime : Time) (state : ChannelState)
    (acc : SoundFontParser * list Voice) (m : Match) : result (SoundFontParser * list Voice) :=
  let '(this, stopFunctions) := acc in
  match m.(sample) with
  | None => Throw TypeError           (* [sample.originalKey] with [sample] undefined *)
  | Some sid =>
      match this.(samples) !! sid with
      | None => Throw TypeError
      | Some s =>
          let '(L, tbl) := resolve_params this.(samples) sid s m velocity state in
          let this := with_samples this tbl in
          match this.(samples) !! sid with
          | None => Throw TypeError
          | Some s =>
              buffer ← plan_buffer this s;
              Ok (this, stopFunctions ++ [mkVoice key velocity startTime L buffer])
          end
      end
  end.

(** [playNote]: the parser with its sample table as the call leaves it, and
    the returned closure. *)
Definition playNote (this : SoundFontParser) (key velocity : Z) (startTime : Time)
    (state : ChannelState) : result (SoundFontParser * StopFn) :=
  match arr_get this.(presets) state.(ch_preset) with
  | None => Throw TypeError           (* [preset.zones] with [preset] undefined *)
  | Some preset =>
      zones ← getZonesForNote this preset key velocity;
      foldM (play_zone key velocity startTime state) zones (this, [])
  end.

(** ** The scheduler *)

Inductive BackendCall :=
  | StartVoices (stop : StopFn)
  | StopVoices (stop : StopFn) (noteOffTime : Time).

Record Scheduler := mkScheduler {
  tempo : Z;
  lastTick : Z;
  currentTime : Time;
  activeNotes : list (gmap Z StopFn);
  channelState : list ChannelState;
  parser : SoundFontParser;
  calls : list BackendCall
}.

Definition js_and (a b : Z) : Z := ToInt32 (Z.land (ToInt32 a) (ToInt32 b)).
Definition js_or (a b : Z) : Z := ToInt32 (Z.lor (ToInt32 a) (ToInt32 b)).

(** Lines 584-590. *)
Definition init_scheduler (this : SoundFontParser) (now : Q) : Scheduler :=
  mkScheduler 500000 0 (Some now)
    (replicate 16 ∅)
    (replicate 16 (mkChannelState 0 0 127 127 64 0 0))
    this [].

(** [currentTime += (deltaTick / division) * (tempo / 1000000)].  The code
    makes this update in double-precision arithmetic; the rational is its
    value before any rounding. *)
Definition advance (currentTime : Time) (deltaTick division tempo : Z) : Time :=
  if division =? 0 then None
  else (λ t, t + (inject_Z deltaTick / inject_Z division) * (tempo # 1000000))%Q
       <$> currentTime.

(** [const stop = activeNotes[ch][note]; if (stop) stop(currentTime);
    delete activeNotes[ch][note];] *)
Definition note_off (s : Scheduler) (ch note : Z) : result Scheduler :=
  match arr_get s.(activeNotes) ch with
  | None => Throw TypeError
  | Some notes =>
      let calls :=
        match notes !! note with
        | Some stop => s.(calls) ++ [StopVoices stop s.(currentTime)]
        | None => s.(calls)
        end in
      Ok (mkScheduler s.(tempo) s.(lastTick) s.(currentTime)
            (alter (delete note) (Z.to_nat ch) s.(activeNotes))
            s.(channelState) s.(parser) calls)
  end.

Definition note_on (s : Scheduler) (ch note vel : Z) : result Scheduler :=
  match arr_get s.(channelState) ch with
  | None => Throw TypeError
  | Some state =>
      '(this, stop) ← playNote s.(parser) note vel s.(currentTime) state;
      match arr_get s.(activeNotes) ch with
      | None => Throw TypeError
      | Some _ =>
          Ok (mkScheduler s.(tempo) s.(lastTick) s.(currentTime)
                (alter (insert note stop) (Z.to_nat ch) s.(activeNotes))
                s.(channelState) this (s.(calls) ++ [StartVoices stop]))
      end
  end.

(** An assignment to a field of [channelState[ch]]. *)
Definition update_channel (s : Scheduler) (ch : Z) (f : ChannelState → ChannelState)
    : result Scheduler :=
  match arr_get s.(channelState) ch with
  | None => Throw TypeError
  | Some _ =>
      Ok (mkScheduler s.(tempo) s.(lastTick) s.(currentTime) s.(activeNotes)
            (alter f (Z.to_nat ch) s.(channelState)) s.(parser) s.(calls))
  end.

Definition controller (cc val : Z) (c : ChannelState) : ChannelState :=
  let c := if cc =? 0
           then mkChannelState (js_or (js_and c.(ch_bank) 0x7F) (shl32 val 7)) c.(ch_preset)
                  c.(ch_volume) c.(ch_expression) c.(ch_pan) c.(ch_mod) c.(ch_pitchBend)
           else c in
  let c := if cc =? 32
           then mkChannelState (js_or (js_and c.(ch_bank) 0x3F80) val) c.(ch_preset)
                  c.(ch_volume) c.(ch_expression) c.(ch_pan) c.(ch_mod) c.(ch_pitchBend)
           else c in
  let c := if cc =? 7
           then mkChannelState c.(ch_bank) c.(ch_preset) val c.(ch_expression) c.(ch_pan)
                  c.(ch_mod) c.(ch_pitchBend)
           else c in
  let c := if cc =? 10
           then mkChannelState c.(ch_bank) c.(ch_preset) c.(ch_volume) c.(ch_expression) val
                  c.(ch_mod) c.(ch_pitchBend)
           else c in
  let c := if cc =? 11
           then mkChannelState c.(ch_bank) c.(ch_preset) c.(ch_volume) val c.(ch_pan)
                  c.(ch_mod) c.(ch_pitchBend)
           else c in
  if cc =? 1
  then mkChannelState c.(ch_bank) c.(ch_preset) c.(ch_volume) c.(ch_expression) c.(ch_pan)
         val c.(ch_pitchBend)
  else c.

Definition set_preset (p : Z) (c : ChannelState) : ChannelState :=
  mkChannelState c.(ch_bank) p c.(ch_volume) c.(ch_expression) c.(ch_pan) c.(ch_mod)
    c.(ch_pitchBend).

Definition set_pitchBend (p : Z) (c : ChannelState) : ChannelState :=
  mkChannelState c.(ch_bank) c.(ch_preset) c.(ch_volume) c.(ch_expression) c.(ch_pan)
    c.(ch_mod) p.

Definition set_tempo (s : Scheduler) (tempo : Z) : Scheduler :=
  mkScheduler tempo s.(lastTick) s.(currentTime) s.(activeNotes) s.(channelState)
    s.(parser) s.(calls).

(** The [if]/[else if] chain of lines 598-634. *)
Definition dispatch_body (s : Scheduler) (b : EventBody) : result Scheduler :=
  match b with
  | Meta 0x51 [d0; d1; d2] =>
      Ok (set_tempo s (js_or (js_or (shl32 d0 16) (shl32 d1 8)) d2))
  | Meta _ _ => Ok s
  | Sysex _ => Ok s
  | Channel1 ch ProgramChange p1 => update_channel s ch (set_preset p1)
  | Channel1 _ ChannelPressure _ => Ok s
  | Channel2 ch type p1 p2 =>
      if type =? 0x9 then
        if p2 =? 0 then note_off s ch p1 else note_on s ch p1 p2
      else if type =? 0x8 then note_off s ch p1
      else if type =? 0xB then update_channel s ch (controller p1 p2)
      else if type =? 0xC then update_channel s ch (set_preset p1)
      else if type =? 0xE then
        update_channel s ch (set_pitchBend (js_or (shl32 p2 7) p1 - 8192))
      else Ok s
  end.

(** The body of [events.forEach]: the play-head advances, then the event
    is dispatched. *)
Definition dispatch (division : Z) (s : Scheduler) (ev : Z * Event) : result Scheduler :=
  let '(tick, ev) := ev in
  let deltaTick := tick - s.(lastTick) in
  let s := mkScheduler s.(tempo) tick (advance s.(currentTime) deltaTick division s.(tempo))
             s.(activeNotes) s.(channelState) s.(parser) s.(calls) in
  dispatch_body s ev.(body).

(** Lines 575-581: absolute ticks, track after track. *)
Fixpoint absolute_ticks (tick : Z) (track : list Event) : list (Z * Event) :=
  match track with
  | [] => []
  | ev :: track' =>
      let tick := tick + ev.(delta) in
      (tick, ev) :: absolute_ticks tick track'
  end.

(** [events.sort((a, b) => a.tick - b.tick)], a stable sort. *)
Fixpoint insert_by_tick (e : Z * Event) (l : list (Z * Event)) : list (Z * Event) :=
  match l with
  | [] => [e]
  | e' :: l' => if e.1 <=? e'.1 then e :: l else e' :: insert_by_tick e l'
  end.

Definition sort_by_tick (l : list (Z * Event)) : list (Z * Event) :=
  foldr insert_by_tick [] l.

Definition schedule (this : SoundFontParser) (now : Q) (midi : MIDIFile) : result Scheduler :=
  let events := sort_by_tick (concat (absolute_ticks 0 <$> midi.(tracks))) in
  foldM (dispatch midi.(division)) events (init_scheduler this now).

Definition playMIDI (this : SoundFontParser) (now : Q) (midiBuffer : DataView)
    : result Scheduler :=
  midi ← parseMIDI midiBuffer;
  schedule this now midi.

(** ** Sibling chunks *)

(** The bytes a chunk occupies: header, body and pad byte. *)
Definition padded_length (c : Chunk) : Z :=
  8 + chunk_size c + chunk_size c `mod` 2.

(** [cs] are the headers found by reading a chunk at [o], then one right
    after its padded end, and so on, each starting below [stop]. *)
Fixpoint siblings_at (view : DataView) (stop o : Z) (cs : list Chunk) : Prop :=
  match cs with
  | [] => True
  | c :: cs' =>
      o < stop ∧ readChunk view o = Ok c ∧
      siblings_at view stop (o + padded_length c) cs'
  end.

Definition total_length (cs : list Chunk) : Z :=
  foldr (λ c n, padded_length c + n) 0 cs.


(** ** Example buffers *)

(** A leaf chunk that declares 100 body bytes in a buffer that ends right
    after its header. *)
Definition oversized_leaf : DataView :=
  ascii_bytes "data" ++ (b8 <$> [100; 0; 0; 0]).

(** A [LIST] container of declared size 13 whose only child, with its pad
    byte, takes 10 bytes after the 4-byte form type. *)
Definition overshooting_list : DataView :=
  ascii_bytes "LIST" ++ (b8 <$> [13; 0; 0; 0]) ++ ascii_bytes "abcd" ++
  ascii_bytes "data" ++ (b8 <$> [1; 0; 0; 0; 7; 0]).

(** ** The variable-length quantity encoding

    The source has a decoder only.  This is the encoding the decoder is
    specified against: seven data bits per byte, most significant group
    first, the high bit set on every byte but the last. *)

(** The bytes that precede the last one: the groups of [m], each with the
    continuation bit; [m] is below [2 ^ fuel]. *)
Fixpoint vlq_continuation (fuel : nat) (m : Z) : list Z :=
  match fuel with
  | O => []
  | S fuel' =>
      if m <=? 0 then []
      else vlq_continuation fuel' (m `div` 128) ++ [128 + m `mod` 128]
  end.

Definition encodeVLQ (n : Z) : list Byte.byte :=
  b8 <$> (vlq_continuation (Z.to_nat (Z.log2 n + 1)) (n `div` 128) ++ [n `mod` 128]).

(** The number a run of continuation bytes adds to the accumulator. *)
Definition vlq_acc (v : Z) (hs : list Z) : Z :=
  fold_left (λ v b, v * 128 + (b - 128)) hs v.

(** ** An example bank

    A small SoundFont file, written out chunk by chunk: one sample, one
    instrument with one zone and one preset with one zone, each header
    table closed by its terminal record. *)

Definition u16le (z : Z) : list Byte.byte :=
  [b8 (z `mod` 256); b8 ((z `div` 256) `mod` 256)].

Definition u32le (z : Z) : list Byte.byte :=
  u16le (z `mod` 65536) ++ u16le (z `div` 65536).

Definition zeros (n : nat) : list Byte.byte := replicate n Byte.x00.

(** A name field of 20 bytes. *)
Definition name20 (s : string) : list Byte.byte :=
  ascii_bytes s ++ zeros (20 - String.length s).

Definition leaf_bytes (tag : string) (body : list Byte.byte) : list Byte.byte :=
  ascii_bytes tag ++ u32le (byteLength body) ++ body ++
  zeros (Z.to_nat (byteLength body `mod` 2)).

Definition list_bytes (tag formType : string) (children : list Byte.byte) : list Byte.byte :=
  leaf_bytes tag (ascii_bytes formType ++ children).

Definition gen_bytes (op amount : Z) : list Byte.byte :=
  u16le op ++ u16le (amount `mod` 65536).

Definition bag_bytes (genNdx modNdx : Z) : list Byte.byte :=
  u16le genNdx ++ u16le modNdx.

Definition shdr_bytes (s : Sample) : list Byte.byte :=
  name20 s.(sampleName) ++ u32le s.(start) ++ u32le s.(end_) ++ u32le s.(startLoop) ++
  u32le s.(endLoop) ++ u32le s.(sampleRate) ++ [b8 s.(originalKey); b8 (s.(correction) `mod` 256)] ++
  u16le s.(sampleLink) ++ u16le s.(sampleType).

Definition inst_bytes (name : string) (bagNdx : Z) : list Byte.byte :=
  name20 name ++ u16le bagNdx.

Definition phdr_bytes (name : string) (program bank bagNdx : Z) : list Byte.byte :=
  name20 name ++ u16le program ++ u16le bank ++ u16le bagNdx ++ zeros 12.

Definition example_sample : Sample :=
  mkSample "Sine" 0 100 10 90 44100 60 0 0 1.

Definition example_sf2 : DataView :=
  list_bytes "RIFF" "sfbk"
    (list_bytes "LIST" "sdta"
       (leaf_bytes "smpl" (zeros 200)) ++
     list_bytes "LIST" "pdta"
       (leaf_bytes "phdr" (phdr_bytes "Piano" 0 0 0 ++ phdr_bytes "EOP" 0 0 1) ++
        leaf_bytes "pbag" (bag_bytes 0 0 ++ bag_bytes 2 0) ++
        leaf_bytes "pgen" (gen_bytes 8 (-500) ++ gen_bytes 41 0 ++ gen_bytes 0 0) ++
        leaf_bytes "inst" (inst_bytes "Lead" 0 ++ inst_bytes "EOI" 1) ++
        leaf_bytes "ibag" (bag_bytes 0 0 ++ bag_bytes 3 0) ++
        leaf_bytes "igen" (gen_bytes 8 (-2000) ++ gen_bytes 0 10 ++ gen_bytes 53 0 ++
                           gen_bytes 0 0) ++
        leaf_bytes "shdr" (shdr_bytes example_sample))).

(** What [new SoundFontParser] makes of it. *)
Definition example_inst_zone : Zone :=
  mkZone [mkGenerator 8 (-2000); mkGenerator 0 10; mkGenerator 53 0]
         (mkRange 0 127) (mkRange 0 127) (Some 0) None.

Definition example_preset_zone : Zone :=
  mkZone [mkGenerator 8 (-500); mkGenerator 41 0]
         (mkRange 0 127) (mkRange 0 127) None (Some 0).

Definition example_bank : SoundFontParser :=
  mkSoundFontParser [example_sample]
    [mkInstrument "Lead" [example_inst_zone]]
    [mkPreset "Piano" 0 0 [example_preset_zone]]
    (Some (replicate 100 0)).

(** The channel state a scheduling pass starts from. *)
Definition default_channel : ChannelState := mkChannelState 0 0 127 127 64 0 0.

(** A preset header table of two records at offset 0, followed by its bag
    table at offset 76 and its generator table at offset 84. *)
Definition example_phdr_view : DataView :=
  phdr_bytes "Piano" 0 0 0 ++ phdr_bytes "EOP" 0 0 1 ++
  bag_bytes 0 0 ++ bag_bytes 2 0 ++
  gen_bytes 8 (-500) ++ gen_bytes 41 0 ++ gen_bytes 0 0.

(** An instrument header table of two records at offset 0, followed by its
    bag table at offset 44 and its generator table at offset 52. *)
Definition example_inst_view : DataView :=
  inst_bytes "Lead" 0 ++ inst_bytes "EOI" 1 ++
  bag_bytes 0 0 ++ bag_bytes 3 0 ++
  gen_bytes 8 (-2000) ++ gen_bytes 0 10 ++ gen_bytes 53 0 ++ gen_bytes 0 0.


(** The match [getZonesForNote] finds in the example bank. *)
Definition example_match : Match :=
  mkMatch example_inst_zone (Some 0%nat) example_preset_zone.

(** ** Generator sums *)



(** The operator whose [case] writes a numeric local. *)
Definition num_op (v : numvar) : Z :=
  match v with
  | modLfoToPitch => 5 | vibLfoToPitch => 6 | modEnvToPitch => 7
  | filterFc => 8 | filterQ => 9 | modLfoToFilterFc => 10 | modEnvToFilterFc => 11
  | modLfoToVolume => 13 | chorusSend => 15 | reverbSend => 16 | pan => 17
  | freqModLfo => 22 | freqVibLfo => 24 | sustainModEnv => 29 | sustainVolEnv => 37
  | atten => 48 | coarseTune => 51 | fineTune => 52 | sampleModes => 54
  | scaleTune => 56 | rootKey => 58
  end.

(** The operator whose [case] writes a duration. *)
Definition time_op (v : timevar) : Z :=
  match v with
  | delayModLfo => 21 | delayVibLfo => 23
  | delayModEnv => 25 | attackModEnv => 26 | holdModEnv => 27 | decayModEnv => 28
  | releaseModEnv => 30
  | delayVolEnv => 33 | attackVolEnv => 34 | holdVolEnv => 35 | decayVolEnv => 36
  | releaseVolEnv => 38
  end.

(** What that [case] stores: [atten] accumulates a tenth of the amount,
    every other local is overwritten by the amount. *)
Definition num_written (v : numvar) (old : Q) (amount : Z) : Q :=
  match v with
  | atten => (old + (amount # 10))%Q
  | _ => inject_Z amount
  end.

(** The durations, the two that [playNote] raises to [minTime] first. *)
Definition all_timevars : list timevar :=
  [delayVolEnv; attackVolEnv; holdVolEnv; decayVolEnv; releaseVolEnv;
   delayModEnv; attackModEnv; holdModEnv; decayModEnv; releaseModEnv;
   delayModLfo; delayVibLfo].

(** ** Zone resolution, zone by zone *)

Definition zone_matches (key velocity : Z) (z : Zone) : bool :=
  in_range key z.(keyRange) && in_range velocity z.(velRange).

(** A preset zone that matches the note and whose instrument index has no
    entry in [instruments]. *)
Definition dangling_instrument (this : SoundFontParser) (key velocity : Z)
    (z : Zone) : bool :=
  zone_matches key velocity z &&
  match z.(instrumentID) with
  | Some i => match arr_get this.(instruments) i with
              | Some _ => false
              | None => true
              end
  | None => false
  end.

(** The matches one instrument gives a preset zone: every zone of the
    instrument that matches the note and has a sample index, whether or not
    that index has an entry in [samples]. *)
Definition instrument_matches (this : SoundFontParser) (key velocity : Z)
    (presetZone : Zone) (inst : Instrument) : list Match :=
  flat_map (λ instZone,
      if zone_matches key velocity instZone then
        match instZone.(sampleID) with
        | Some sampleID => [mkMatch instZone (arr_ref this.(samples) sampleID) presetZone]
        | None => []
        end
      else [])
    inst.(instrumentZones).

Definition zone_contribution (this : SoundFontParser) (key velocity : Z)
    (z : Zone) : list Match :=
  if zone_matches key velocity z then
    match z.(instrumentID) with
    | Some i => match arr_get this.(instruments) i with
                | Some inst => instrument_matches this key velocity z inst
                | None => []
                end
    | None => []
    end
  else [].

(** A preset of the example bank with a second zone that names instrument
    5, which the bank does not have. *)
Definition dangling_preset_zone : Zone :=
  mkZone [mkGenerator 41 5] (mkRange 0 127) (mkRange 0 127) None (Some 5).

Definition dangling_preset : Preset :=
  mkPreset "Broken" 0 0 [example_preset_zone; dangling_preset_zone].

(** The example bank with a second instrument zone that names sample 7,
    which the bank does not have. *)
Definition dangling_sample_zone : Zone :=
  mkZone [mkGenerator 53 7] (mkRange 0 127) (mkRange 0 127) (Some 7) None.

Definition dangling_sample_bank : SoundFontParser :=
  mkSoundFontParser [example_sample]
    [mkInstrument "Lead" [example_inst_zone; dangling_sample_zone]]
    [mkPreset "Piano" 0 0 [example_preset_zone]]
    (Some (replicate 100 0)).

(** ** The play-head before an event is dispatched *)

(** The scheduler once [currentTime] and [lastTick] are updated for an
    event at [tick], before the [if] chain runs. *)
Definition advanced (division : Z) (s : Scheduler) (tick : Z) : Scheduler :=
  mkScheduler s.(tempo) tick
    (advance s.(currentTime) (tick - s.(lastTick)) division s.(tempo))
    s.(activeNotes) s.(channelState) s.(parser) s.(calls).

(** The channel of a channel message. *)
Definition event_channel (b : EventBody) : option Z :=
  match b with
  | Channel1 ch _ _ | Channel2 ch _ _ _ => Some ch
  | Meta _ _ | Sysex _ => None
  end.

(** A file with one track: note 60 on at tick 0, off at tick 480 (a note-on
    with velocity 0 under running status), then a note-off for note 61,
    which was never started. *)
Definition example_midi : DataView :=
  ascii_bytes "MThd" ++ (b8 <$> [0; 0; 0; 6; 0; 1; 0; 1; 1; 0xE0]) ++
  ascii_bytes "MTrk" ++ (b8 <$> [0; 0; 0; 12;
    0; 0x90; 60; 100;
    0x83; 0x60; 60; 0;
    0; 0x80; 61; 64]).

(** A pass under way on the example bank: channel 0 holds a closure for
    note 60 (one whose trigger matched no zone). *)
Definition example_playing : Scheduler :=
  mkScheduler 500000 0 (Some 0%Q)
    (<[0%nat := {[ 60 := [] ]}]> (replicate 16 ∅))
    (replicate 16 default_channel) example_bank [].

(** Every channel message of the event has a channel below 16. *)
Definition channel_in_range (ev : Event) : Prop :=
  ∀ ch, event_channel ev.(body) = Some ch → 0 ≤ ch < 16.

(** ** Well-formed chunk trees *)

(** Every leaf under the node has its body start between the end of an
    8-byte header and the end of a buffer of [len] bytes, and a size that
    fits 32 bits. *)
Fixpoint leaves_in_buffer (len : Z) (node : ChunkNode) : Prop :=
  match node with
  | Leaf dataOffset size => 8 ≤ dataOffset ≤ len ∧ 0 ≤ size < 2 ^ 32
  | Form children =>
      map_fold (λ _ child rest, leaves_in_buffer len child ∧ rest) True children
  end.

(** ** Strings and chunk entries *)

(** The string whose characters have the codes [cs]. *)
Definition string_of_codes (cs : list Z) : string :=
  string_of_list_ascii (fromCharCode <$> cs).

(** Lines 25-30: the key a chunk is stored under and the value stored. *)
Definition chunk_entry (view : DataView) (chunk : Chunk) : result (string * ChunkNode) :=
  if is_container chunk.(chunk_id) then
    formType ← readString view chunk.(chunk_offset) 4;
    sub ← parseRIFF view (chunk.(chunk_offset) + 4) chunk.(chunk_end);
    Ok (formType, Form sub)
  else Ok (chunk.(chunk_id), Leaf chunk.(chunk_offset) chunk.(chunk_size)).

(** [chunks[key] = node], for the entries in order. *)
Definition assign_entries (entries : list (string * ChunkNode))
    (chunks : gmap string ChunkNode) : gmap string ChunkNode :=
  fold_left (λ m e, <[e.1 := e.2]> m) entries chunks.

(** Two leaf chunks with the same tag. *)
Definition duplicate_tags : DataView :=
  leaf_bytes "data" (b8 <$> [1; 2]) ++ leaf_bytes "data" (b8 <$> [3; 4; 5; 6]).


(** ** Zone fields *)

(** The amount of the last generator of the list with operator [k]. *)
Definition last_amount (k : Z) (gens : list Generator) : option Z :=
  amount <$> last (filter (λ gen, gen.(op) = k) gens).

(** [r], or the range [0..127] of a new zone. *)
Definition range_or_default (r : option Z) : Range :=
  from_option range_of_amount (mkRange 0 127) r.

(** The generators of zone [z] of a bag table read from record [bagNdx]
    on (lines 140-160): as many as the generator indices of bag records
    [bagNdx + z] and [bagNdx + z + 1] differ by, generator [g] of the zone
    being the operator and the signed amount of record [genNdx + g] of the
    generator table. *)
Definition generators_read (view : DataView) (bag gen : option ChunkNode)
    (bagNdx : Z) (z : nat) (gens : list Generator) : Prop :=
  ∃ bagOff genNdx nextGenNdx,
    dataOffset_plus bag ((bagNdx + Z.of_nat z) * 4) = Ok bagOff ∧
    getUint16 view (ToIndex bagOff) true = Ok genNdx ∧
    getUint16 view (ToIndex (nan_add bagOff 4)) true = Ok nextGenNdx ∧
    length gens = Z.to_nat (nextGenNdx - genNdx) ∧
    ∀ g gn, gens !! g = Some gn →
      ∃ genOff,
        dataOffset_plus gen ((genNdx + Z.of_nat g) * 4) = Ok genOff ∧
        getUint16 view (ToIndex genOff) true = Ok gn.(op) ∧
        getInt16 view (ToIndex (nan_add genOff 2)) true = Ok gn.(amount).

(** ** Exceptions of the parsers *)

(** The exceptions a failed access raises: a read outside the buffer or a
    property read on [undefined]. *)
Definition access_error (e : js_error) : Prop :=
  e = RangeError ∨ e = TypeError.

(** A name field, a 16-bit range amount with the bytes [50] and [200], and
    four more bytes. *)
Definition example_range_view : DataView :=
  b8 <$> [50; 200; 1; 2; 3; 4].

(** ** Parsed MIDI events *)

(** The shape of an event object as [parseMIDI] builds it. *)
Definition event_wf (ev : Event) : Prop :=
  0 ≤ ev.(status) < 256 ∧ - 2 ^ 31 ≤ ev.(delta) < 2 ^ 31 ∧
  match ev.(body) with
  | Meta metaType data =>
      ev.(status) = 0xFF ∧ 0 ≤ metaType < 256 ∧ Forall (λ b, 0 ≤ b < 256) data
  | Sysex data =>
      (ev.(status) = 0xF0 ∨ ev.(status) = 0xF7) ∧ Forall (λ b, 0 ≤ b < 256) data
  | Channel1 channel type param1 =>
      channel = Z.land ev.(status) 0x0F ∧
      Z.shiftr ev.(status) 4 =
        match type with ProgramChange => 0xC | ChannelPressure => 0xD end ∧
      0 ≤ channel < 16 ∧ 0 ≤ param1 < 256
  | Channel2 channel type param1 param2 =>
      channel = Z.land ev.(status) 0x0F ∧ type = Z.shiftr ev.(status) 4 ∧
      0 ≤ channel < 16 ∧ 0 ≤ type < 16 ∧ type ≠ 0xC ∧ type ≠ 0xD ∧
      ev.(status) ≠ 0xFF ∧ ev.(status) ≠ 0xF0 ∧ ev.(status) ≠ 0xF7 ∧
      0 ≤ param1 < 256 ∧ 0 ≤ param2 < 256
  end.

(** The track chunks [parseMIDI] reads from [offset] on: each one starts
    where the declared length of the one before ends. *)
Fixpoint tracks_at (view : DataView) (offset : Z) (tracks : list (list Event)) : Prop :=
  match tracks with
  | [] => True
  | track :: rest =>
      ∃ length,
        readString view offset 4 = Ok "MTrk"%string ∧
        getUint32 view (offset + 4) false = Ok length ∧
        read_track view (offset + 8) (offset + 8 + length) = Ok track ∧
        tracks_at view (offset + 8 + length) rest
  end.

(** ** Sample addresses after a trigger *)

(** The amount [effectiveGens] holds for an operator, 0 when it has none. *)
Definition gen_amount (effectiveGens : gmap Z Z) (k : Z) : Z :=
  default 0 (effectiveGens !! k).

(** The operators whose [case] writes to the sample. *)
Definition address_ops : list Z := [0; 1; 2; 3; 4; 12; 14; 18].

(** A sample with its four addresses moved by the fine offsets and by
    32768 times the coarse offsets of [effectiveGens]. *)
Definition shift_sample (effectiveGens : gmap Z Z) (s : Sample) : Sample :=
  mkSample s.(sampleName)
    (s.(start) + gen_amount effectiveGens 0 + gen_amount effectiveGens 4 * 32768)
    (s.(end_) + gen_amount effectiveGens 1 + gen_amount effectiveGens 12 * 32768)
    (s.(startLoop) + gen_amount effectiveGens 2 + gen_amount effectiveGens 14 * 32768)
    (s.(endLoop) + gen_amount effectiveGens 3 + gen_amount effectiveGens 18 * 32768)
    s.(sampleRate) s.(originalKey) s.(correction) s.(sampleLink) s.(sampleType).

(** The sample table after the [switch] has run for each match in turn. *)
Definition shift_matches (zones : list Match) (tbl : list Sample) : list Sample :=
  fold_left (λ tbl m,
      match m.(sample) with
      | Some sid =>
          alter (shift_sample (effective_gens m.(zone) m.(presetZone))) sid tbl
      | None => tbl
      end) zones tbl.

(** One [case] of the [switch], seen from the sample object. *)
Definition addr_step (op amount : Z) (s : Sample) : Sample :=
  match op with
  | 0 => add_start amount s
  | 1 => add_end amount s
  | 2 => add_startLoop amount s
  | 3 => add_endLoop amount s
  | 4 => add_start (amount * 32768) s
  | 12 => add_end (amount * 32768) s
  | 14 => add_startLoop (amount * 32768) s
  | 18 => add_endLoop (amount * 32768) s
  | _ => s
  end.

Definition key_step (effectiveGens : gmap Z Z) (s : Sample) (k : Z) : Sample :=
  match effectiveGens !! k with
  | Some amount => addr_step k amount s
  | None => s
  end.

(** What the [case] of an operator adds to each address. *)
Definition start_delta (op amount : Z) : Z :=
  match op with 0 => amount | 4 => amount * 32768 | _ => 0 end.

Definition end_delta (op amount : Z) : Z :=
  match op with 1 => amount | 12 => amount * 32768 | _ => 0 end.

Definition startLoop_delta (op amount : Z) : Z :=
  match op with 2 => amount | 14 => amount * 32768 | _ => 0 end.

Definition endLoop_delta (op amount : Z) : Z :=
  match op with 3 => amount | 18 => amount * 32768 | _ => 0 end.

Definition key_delta (d : Z → Z → Z) (effectiveGens : gmap Z Z) (k : Z) : Z :=
  match effectiveGens !! k with
  | Some amount => d k amount
  | None => 0
  end.

Definition sum_delta (d : Z → Z → Z) (effectiveGens : gmap Z Z) (keys : list Z) : Z :=
  foldr (λ k n, key_delta d effectiveGens k + n) 0 keys.

(** ** What a trigger leaves alone *)

(** Two sample headers that differ at most in their four addresses. *)
Definition same_wave (s s' : Sample) : Prop :=
  sampleName s' = sampleName s ∧ sampleRate s' = sampleRate s ∧
  originalKey s' = originalKey s ∧ correction s' = correction s ∧
  sampleLink s' = sampleLink s ∧ sampleType s' = sampleType s.

(** ** Events of a pass *)


(** A note-on that triggers: type [0x9] with a velocity other than 0. *)
Definition is_note_on (b : EventBody) : bool :=
  match b with
  | Channel2 _ type _ vel => (type =? 0x9) && negb (vel =? 0)
  | _ => false
  end.



(** The channel messages that only write to [channelState[ch]]: the
    channel and the assignment made. *)
Definition channel_update (b : EventBody) : option (Z * (ChannelState → ChannelState)) :=
  match b with
  | Channel1 ch ProgramChange p1 => Some (ch, set_preset p1)
  | Channel2 ch type p1 p2 =>
      if type =? 0xB then Some (ch, controller p1 p2)
      else if type =? 0xE then Some (ch, set_pitchBend (js_or (shl32 p2 7) p1 - 8192))
      else None
  | _ => None
  end.

(** The events of the example file, in the order of dispatch. *)
Definition example_events : list (Z * Event) :=
  [(0, mkEvent 0 0x90 (Channel2 0 9 60 100));
   (480, mkEvent 480 0x90 (Channel2 0 9 60 0));
   (480, mkEvent 0 0x80 (Channel2 0 8 61 64))].

(** A file with one track that holds a controller change and a note-off
    and no note-on. *)
Definition silent_midi : DataView :=
  ascii_bytes "MThd" ++ (b8 <$> [0; 0; 0; 6; 0; 0; 0; 1; 1; 0xE0]) ++
  ascii_bytes "MTrk" ++ (b8 <$> [0; 0; 0; 8;
    0; 0xB0; 7; 90;
    0; 0x80; 61; 64]).

(** A file whose header announces one track and whose first chunk after
    the header has another tag. *)
Definition bad_track_midi : DataView :=
  ascii_bytes "MThd" ++ (b8 <$> [0; 0; 0; 6; 0; 0; 0; 1; 1; 0xE0]) ++
  ascii_bytes "data" ++ (b8 <$> [0; 0; 0; 0]).

(** ** Repeated triggers *)

(** [playNote] called [n] times in a row with the same arguments, each
    call on the parser as the call before left it. *)
Fixpoint play_times (n : nat) (this : SoundFontParser) (key velocity : Z)
    (startTime : Time) (state : ChannelState) : result SoundFontParser :=
  match n with
  | O => Ok this
  | S n' =>
      '(this', _) ← playNote this key velocity startTime state;
      play_times n' this' key velocity startTime state
  end.

(** ** Stereo pairs *)

(** A left sample linked to the right sample after it, and that right
    sample linked back. *)
Definition stereo_bank : SoundFontParser :=
  mkSoundFontParser
    [mkSample "L" 0 100 10 90 44100 60 0 1 4; mkSample "R" 100 180 110 170 44100 60 0 0 2]
    [] [] (Some (replicate 200 0)).

(** [l] and [r] are the left and right sample line 434 tests when [s] is
    played: a left sample (type 4) and a right sample (type 2), one of them
    [s] itself and the other the entry of the sample table [s] links to. *)
Definition stereo_pair (this : SoundFontParser) (s l r : Sample) : Prop :=
  l.(sampleType) = 4 ∧ r.(sampleType) = 2 ∧
  ((s.(sampleType) = 2 ∧ r = s ∧ arr_get this.(samples) s.(sampleLink) = Some l) ∨
   (s.(sampleType) ≠ 2 ∧ l = s ∧ arr_get this.(samples) s.(sampleLink) = Some r)).

(** * Properties *)

(** ** Reads *)

Lemma bind_Ok {A B} (r : result A) (k : A → result B) (b : B) :
  r ≫= k = Ok b → ∃ a, r = Ok a ∧ k a = Ok b.
Proof. destruct r as [a|e]; simpl; [eauto | discriminate]. Qed.

Lemma bind_Throw {A B} (r : result A) (k : A → result B) (e : js_error) :
  r ≫= k = Throw e → r = Throw e ∨ ∃ a, r = Ok a ∧ k a = Throw e.
Proof. destruct r as [a|e']; simpl; [eauto | intros [= ->]; auto]. Qed.

Lemma byte_val_range (b : Byte.byte) : 0 ≤ byte_val b < 256.
Proof.
  unfold byte_val. pose proof (Byte.to_N_bounded b) as H. lia.
Qed.

Lemma arr_get_Some {A} (l : list A) (i : Z) (x : A) :
  arr_get l i = Some x → 0 ≤ i < Z.of_nat (length l) ∧ l !! Z.to_nat i = Some x.
Proof.
  unfold arr_get. destruct (Z.leb_spec 0 i) as [Hi|Hi]; [|discriminate].
  intros Hx. split; [|done]. apply lookup_lt_Some in Hx. lia.
Qed.

Lemma arr_get_in_range {A} (l : list A) (i : Z) :
  0 ≤ i < Z.of_nat (length l) → is_Some (arr_get l i).
Proof.
  intros Hr. unfold arr_get. destruct (Z.leb_spec 0 i) as [Hi|Hi]; [|lia].
  apply lookup_lt_is_Some. lia.
Qed.

Lemma arr_get_None {A} (l : list A) (i : Z) :
  arr_get l i = None ↔ i < 0 ∨ Z.of_nat (length l) ≤ i.
Proof.
  unfold arr_get. destruct (Z.leb_spec 0 i).
  - rewrite lookup_ge_None. lia.
  - split; [lia | done].
Qed.

Lemma getUint8_Ok view o b :
  getUint8 view o = Ok b → 0 ≤ o < byteLength view ∧ 0 ≤ b < 256.
Proof.
  unfold getUint8. destruct (arr_get view o) as [x|] eqn:E; [|discriminate].
  intros [= <-]. apply arr_get_Some in E as [? _].
  split; [done | apply byte_val_range].
Qed.

Lemma getUint8_Throw view o e : getUint8 view o = Throw e → e = RangeError.
Proof. unfold getUint8. destruct (arr_get view o); [discriminate | congruence]. Qed.

Lemma getBytes_Ok view o n bs :
  getBytes view o n = Ok bs →
  0 ≤ o ∧ o + Z.of_nat n ≤ byteLength view ∧ Forall (λ b, 0 ≤ b < 256) bs.
Proof.
  unfold getBytes.
  destruct (Z.leb_spec 0 o); simpl; [|discriminate].
  destruct (Z.leb_spec (o + Z.of_nat n) (byteLength view)); [|discriminate].
  intros [= <-]. repeat split; try done.
  apply Forall_fmap, Forall_true. intros b. apply byte_val_range.
Qed.

Lemma getBytes_Throw view o n e : getBytes view o n = Throw e → e = RangeError.
Proof. unfold getBytes. case_match; [discriminate | congruence]. Qed.

Lemma le_val_nonneg bs : Forall (λ b, 0 ≤ b < 256) bs → 0 ≤ le_val bs.
Proof. induction 1; simpl; lia. Qed.

Lemma uint_val_nonneg le bs : Forall (λ b, 0 ≤ b < 256) bs → 0 ≤ uint_val le bs.
Proof.
  intros H. unfold uint_val. apply le_val_nonneg.
  destruct le; [done | by apply Forall_reverse].
Qed.

Lemma getUint32_Ok view o le v :
  getUint32 view o le = Ok v → 0 ≤ o ∧ o + 4 ≤ byteLength view ∧ 0 ≤ v.
Proof.
  unfold getUint32. intros (bs & Hb & [= <-])%bind_Ok.
  apply getBytes_Ok in Hb as (? & ? & ?).
  repeat split; [done | lia | by apply uint_val_nonneg].
Qed.

Lemma getUint16_Ok view o le v :
  getUint16 view o le = Ok v → 0 ≤ o ∧ o + 2 ≤ byteLength view ∧ 0 ≤ v.
Proof.
  unfold getUint16. intros (bs & Hb & [= <-])%bind_Ok.
  apply getBytes_Ok in Hb as (? & ? & ?).
  repeat split; [done | lia | by apply uint_val_nonneg].
Qed.

Lemma getUint32_Throw view o le e : getUint32 view o le = Throw e → e = RangeError.
Proof.
  unfold getUint32. intros [H | (? & _ & [=])]%bind_Throw.
  by apply getBytes_Throw in H.
Qed.

Lemma readString_Throw view o n e : readString view o n = Throw e → e = RangeError.
Proof.
  revert o. induction n as [|n IH]; intros o; simpl; [discriminate|].
  intros [H | (c & _ & H)]%bind_Throw; [by apply getUint8_Throw in H|].
  destruct (c =? 0); [discriminate|].
  apply bind_Throw in H as [H | (? & _ & [=])]. by apply IH in H.
Qed.

Lemma readString_Ok view o n s :
  readString view o (S n) = Ok s → 0 ≤ o < byteLength view.
Proof.
  simpl. intros (c & Hc & _)%bind_Ok. by apply getUint8_Ok in Hc as [? _].
Qed.

Lemma readChunk_Ok view o c :
  readChunk view o = Ok c →
  0 ≤ o ∧ o + 8 ≤ byteLength view ∧ 0 ≤ chunk_size c ∧
  chunk_offset c = o + 8 ∧ chunk_end c = o + 8 + chunk_size c.
Proof.
  unfold readChunk. intros (i & Hi & (sz & Hs & [= <-])%bind_Ok)%bind_Ok.
  apply readString_Ok in Hi. apply getUint32_Ok in Hs as (? & ? & ?).
  simpl. lia.
Qed.

Lemma readChunk_Throw view o e : readChunk view o = Throw e → e = RangeError.
Proof.
  unfold readChunk. intros [H | (i & _ & H)]%bind_Throw.
  - by apply readString_Throw in H.
  - apply bind_Throw in H as [H | (? & _ & [=])]. by apply getUint32_Throw in H.
Qed.

(** ** Chunk parsing *)

Lemma parseRIFF_fuel_spec fuel view : ∀ o stop m vis,
  match parseRIFF_fuel fuel view o stop m vis with
  | None => (fuel ≤ Z.to_nat (byteLength view - Z.max 0 o))%nat
  | Some (Throw e) => e = RangeError
  | Some (Ok st) =>
      ∃ cs, loop_visited st = vis ++ cs ∧ siblings_at view stop o cs ∧
            loop_offset st = o + total_length cs ∧ stop ≤ loop_offset st
  end.
Proof.
  induction fuel as [|fuel IH]; intros o stop m vis; cbn [parseRIFF_fuel].
  - destruct (Z.ltb_spec o stop); [lia|].
    exists []. simpl. rewrite app_nil_r. repeat split; lia.
  - destruct (Z.ltb_spec o stop) as [Hlt|Hge]; cycle 1.
    { exists []. simpl. rewrite app_nil_r. repeat split; lia. }
    destruct (readChunk view o) as [c|e] eqn:Hc; [|by apply readChunk_Throw in Hc].
    pose proof (readChunk_Ok _ _ _ Hc) as (Ho & Hlen & Hsz & Hoff & Hend).
    assert (Hnext : chunk_end c + chunk_size c `mod` 2 = o + padded_length c)
      by (unfold padded_length; lia).
    assert (Hpad : 0 ≤ chunk_size c `mod` 2 < 2) by (apply Z.mod_pos_bound; lia).
    assert (Hstep : ∀ m',
      match parseRIFF_fuel fuel view (chunk_end c + chunk_size c `mod` 2) stop m' (vis ++ [c]) with
      | None => (S fuel ≤ Z.to_nat (byteLength view - Z.max 0 o))%nat
      | Some (Throw e) => e = RangeError
      | Some (Ok st) =>
          ∃ cs, loop_visited st = vis ++ cs ∧ siblings_at view stop o cs ∧
                loop_offset st = o + total_length cs ∧ stop ≤ loop_offset st
      end).
    { intros m'. specialize (IH (chunk_end c + chunk_size c `mod` 2) stop m' (vis ++ [c])).
      destruct (parseRIFF_fuel fuel view _ stop m' (vis ++ [c])) as [[st|e]|]; [|done|].
      - destruct IH as (cs & Hv & Hs & Hl & Hst). exists (c :: cs).
        rewrite Hv, <- app_assoc. simpl. rewrite <- Hnext.
        repeat split; try done. rewrite Hl. unfold padded_length. lia.
      - unfold padded_length in *. lia. }
    destruct (is_container (chunk_id c)); [|apply Hstep].
    destruct (readString view (chunk_offset c) 4) as [formType|e] eqn:Hf;
      [|by eapply readString_Throw].
    specialize (IH (chunk_offset c + 4) (chunk_end c) ∅ []).
    destruct (parseRIFF_fuel fuel view (chunk_offset c + 4) (chunk_end c) ∅ [])
      as [[sub|e]|]; [apply Hstep | done | lia].
Qed.

(** The fuel [parseRIFF_loop] supplies is never exhausted. *)
Lemma parseRIFF_fuel_enough view o stop :
  parseRIFF_fuel (S (length view)) view o stop ∅ [] = Some (parseRIFF_loop view o stop).
Proof.
  unfold parseRIFF_loop.
  pose proof (parseRIFF_fuel_spec (S (length view)) view o stop ∅ []) as H.
  destruct (parseRIFF_fuel (S (length view)) view o stop ∅ []); [done|].
  unfold byteLength in H. lia.
Qed.

Lemma parseRIFF_loop_spec view o stop :
  match parseRIFF_loop view o stop with
  | Throw e => e = RangeError
  | Ok st => siblings_at view stop o (loop_visited st) ∧
             loop_offset st = o + total_length (loop_visited st) ∧
             stop ≤ loop_offset st
  end.
Proof.
  pose proof (parseRIFF_fuel_spec (S (length view)) view o stop ∅ []) as H.
  rewrite parseRIFF_fuel_enough in H.
  destruct (parseRIFF_loop view o stop) as [st|e]; [|done].
  destruct H as (cs & -> & ? & ? & ?). done.
Qed.

Lemma parseRIFF_fuel_S fuel view o stop m vis :
  parseRIFF_fuel (S fuel) view o stop m vis =
    if o <? stop then
      match readChunk view o with
      | Throw e => Some (Throw e)
      | Ok chunk =>
          if is_container chunk.(chunk_id) then
            match readString view chunk.(chunk_offset) 4 with
            | Throw e => Some (Throw e)
            | Ok formType =>
                match parseRIFF_fuel fuel view (chunk.(chunk_offset) + 4)
                        chunk.(chunk_end) ∅ [] with
                | None => None
                | Some (Throw e) => Some (Throw e)
                | Some (Ok sub) =>
                    parseRIFF_fuel fuel view
                      (chunk.(chunk_end) + chunk.(chunk_size) `mod` 2) stop
                      (<[formType := Form sub.(loop_chunks)]> m) (vis ++ [chunk])
                end
            end
          else
            parseRIFF_fuel fuel view
              (chunk.(chunk_end) + chunk.(chunk_size) `mod` 2) stop
              (<[chunk.(chunk_id) := Leaf chunk.(chunk_offset) chunk.(chunk_size)]> m)
              (vis ++ [chunk])
      end
    else Some (Ok (mkRiffLoop m vis o)).
Proof. reflexivity. Qed.

Lemma parseRIFF_fuel_mono fuel view : ∀ o stop m vis r,
  parseRIFF_fuel fuel view o stop m vis = Some r →
  parseRIFF_fuel (S fuel) view o stop m vis = Some r.
Proof.
  induction fuel as [|fuel IH]; intros o stop m vis r.
  - rewrite parseRIFF_fuel_S. cbn [parseRIFF_fuel].
    destruct (o <? stop); [done|]. by intros [= <-].
  - intros H. rewrite parseRIFF_fuel_S in H. rewrite parseRIFF_fuel_S.
    destruct (o <? stop); [|done].
    destruct (readChunk view o) as [c|e]; [|done].
    destruct (is_container (chunk_id c)); [|by apply IH].
    destruct (readString view (chunk_offset c) 4) as [formType|e]; [|done].
    destruct (parseRIFF_fuel fuel view (chunk_offset c + 4) (chunk_end c) ∅ [])
      as [[sub|e]|] eqn:E; [| |done].
    + rewrite (IH _ _ _ _ _ E). by apply IH.
    + by rewrite (IH _ _ _ _ _ E).
Qed.

Lemma parseRIFF_fuel_le fuel fuel' view o stop m vis r :
  (fuel ≤ fuel')%nat →
  parseRIFF_fuel fuel view o stop m vis = Some r →
  parseRIFF_fuel fuel' view o stop m vis = Some r.
Proof.
  induction 1 as [|fuel' _ IH]; [done|]. intros H. by apply parseRIFF_fuel_mono, IH.
Qed.

Lemma parseRIFF_fuel_stable fuel view o stop r :
  parseRIFF_fuel fuel view o stop ∅ [] = Some r → parseRIFF_loop view o stop = r.
Proof.
  intros H. pose proof (parseRIFF_fuel_enough view o stop) as He.
  apply (parseRIFF_fuel_le _ (fuel `max` S (length view))) in H; [|lia].
  apply (parseRIFF_fuel_le _ (fuel `max` S (length view))) in He; [|lia].
  congruence.
Qed.








(** ** Variable-length quantities *)

Lemma ToInt32_small z : - 2 ^ 31 ≤ z < 2 ^ 31 → ToInt32 z = z.
Proof.
  intros H. unfold ToInt32, to_signed.
  change (2 ^ (32 - 1)) with 2147483648 in *. change (2 ^ 32) with 4294967296.
  change (2 ^ 31) with 2147483648 in H.
  destruct (Z.ltb_spec (z `mod` 4294967296) 2147483648) as [Hlt|Hge].
  - destruct (Z.le_gt_cases 0 z).
    + apply Z.mod_small. lia.
    + rewrite <- (Z.mod_add z 1) in Hlt by lia.
      rewrite Z.mod_small in Hlt by lia. lia.
  - destruct (Z.le_gt_cases 0 z).
    + rewrite Z.mod_small in Hge by lia. lia.
    + rewrite <- (Z.mod_add z 1) by lia. rewrite Z.mod_small by lia. lia.
Qed.

Lemma shl32_7_small v : 0 ≤ v < 2 ^ 24 → shl32 v 7 = v * 128.
Proof.
  intros H. change (2 ^ 24) with 16777216 in H. unfold shl32.
  rewrite (ToInt32_small v) by (change (2 ^ 31) with 2147483648; lia).
  rewrite Z.shiftl_mul_pow2 by lia. change (2 ^ 7) with 128.
  apply ToInt32_small. change (2 ^ 31) with 2147483648. lia.
Qed.

Lemma vlq_acc_mono hs : ∀ v,
  0 ≤ v → Forall (λ b, 128 ≤ b < 256) hs → v ≤ vlq_acc v hs.
Proof.
  induction hs as [|b hs IH]; intros v Hv Hall; simpl; [lia|].
  apply Forall_cons in Hall as [Hb Hall].
  etrans; [|apply IH]; [lia | lia | done].
Qed.

Lemma land_127 b : 0 ≤ b → Z.land b 127 = b `mod` 128.
Proof. intros _. change 127 with (Z.ones 7). by rewrite Z.land_ones by lia. Qed.

Lemma land_128 b : 0 ≤ b < 256 → (Z.land b 128 =? 0) = (b <? 128).
Proof.
  intros H.
  assert (Hb : Z.land b 128 = if Z.testbit b 7 then 128 else 0).
  { apply Z.bits_inj'. intros n Hn. rewrite Z.land_spec.
    change 128 with (2 ^ 7). rewrite Z.pow2_bits_eqb by lia.
    destruct (Z.eqb_spec 7 n) as [<-|Hne].
    - rewrite andb_true_r. destruct (Z.testbit b 7) eqn:E.
      + by rewrite Z.pow2_bits_true.
      + by rewrite Z.bits_0.
    - rewrite andb_false_r. destruct (Z.testbit b 7).
      + by rewrite Z.pow2_bits_false.
      + by rewrite Z.bits_0. }
  assert (Hq : 0 ≤ b `div` 128 < 2).
  { split; [apply Z.div_pos; lia | apply Z.div_lt_upper_bound; lia]. }
  rewrite Hb. destruct (Z.testbit b 7) eqn:E.
  - apply Z.testbit_true in E; [|lia]. change (2 ^ 7) with 128 in E.
    destruct (Z.ltb_spec b 128) as [Hlt|Hge]; [|done].
    rewrite Z.div_small in E by lia. done.
  - apply Z.testbit_false in E; [|lia]. change (2 ^ 7) with 128 in E.
    destruct (Z.ltb_spec b 128) as [Hlt|Hge]; [done|].
    assert (b `div` 128 = 0) as Hz.
    { destruct (Z.eq_dec (b `div` 128) 0) as [|Hne]; [done|].
      replace (b `div` 128) with 1 in E by lia. done. }
    apply Z.div_small_iff in Hz; lia.
Qed.

(** Decoding a run of continuation bytes followed by a final byte. *)
Lemma readVLQ_fuel_decode view off hs : ∀ fuel v bytes last,
  (length hs < fuel)%nat →
  Forall (λ b, 128 ≤ b < 256) hs →
  0 ≤ last < 128 →
  0 ≤ v →
  vlq_acc v hs < 2 ^ 24 →
  (∀ i b, (hs ++ [last]) !! i = Some b →
          getUint8 view (off + (bytes + Z.of_nat i)) = Ok b) →
  readVLQ_fuel fuel view off v bytes =
    Some (Ok (mkVLQ (vlq_acc v hs * 128 + last) (bytes + Z.of_nat (length hs) + 1))).
Proof.
  induction hs as [|h hs IH]; intros fuel v bytes last Hfuel Hall Hlast Hv Hacc Hview.
  - destruct fuel as [|fuel]; [simpl in Hfuel; lia|]. cbn [readVLQ_fuel].
    pose proof (Hview 0%nat last eq_refl) as H0.
    change (Z.of_nat 0) with 0 in H0. rewrite Z.add_0_r in H0. rewrite H0.
    rewrite land_128 by lia. destruct (Z.ltb_spec last 128); [|lia].
    simpl in Hacc. rewrite shl32_7_small, land_127 by lia.
    rewrite Z.mod_small by lia. simpl. do 3 f_equal. lia.
  - destruct fuel as [|fuel]; [simpl in Hfuel; lia|]. cbn [readVLQ_fuel].
    apply Forall_cons in Hall as [Hh Hall].
    pose proof (Hview 0%nat h eq_refl) as H0.
    change (Z.of_nat 0) with 0 in H0. rewrite Z.add_0_r in H0. rewrite H0.
    rewrite land_128 by lia. destruct (Z.ltb_spec h 128); [lia|].
    assert (Hv' : v < 2 ^ 24).
    { eapply Z.le_lt_trans; [|apply Hacc]. simpl.
      etrans; [|apply vlq_acc_mono]; [lia | lia | done]. }
    rewrite shl32_7_small, land_127 by lia.
    assert (Hm : h `mod` 128 = h - 128).
    { rewrite <- (Z.mod_add h (-1)) by lia. apply Z.mod_small. lia. }
    rewrite Hm. rewrite (IH fuel (v * 128 + (h - 128)) (bytes + 1) last);
      try done; try (simpl in *; lia).
    + do 3 f_equal. simpl length. lia.
    + intros i b Hi. replace (bytes + 1 + Z.of_nat i) with (bytes + Z.of_nat (S i)) by lia.
      by apply Hview.
Qed.

Lemma vlq_continuation_spec fuel : ∀ m,
  0 ≤ m < 2 ^ Z.of_nat fuel →
  Forall (λ b, 128 ≤ b < 256) (vlq_continuation fuel m) ∧
  vlq_acc 0 (vlq_continuation fuel m) = m.
Proof.
  induction fuel as [|fuel IH]; intros m Hm.
  - simpl in *. split; [constructor | lia].
  - cbn [vlq_continuation]. destruct (Z.leb_spec m 0) as [Hle|Hgt].
    + split; [constructor | simpl; lia].
    + assert (Hdiv : 0 ≤ m `div` 128 < 2 ^ Z.of_nat fuel).
      { split; [apply Z.div_pos; lia|].
        apply Z.div_lt_upper_bound; [lia|].
        rewrite Nat2Z.inj_succ, Z.pow_succ_r in Hm by lia. lia. }
      destruct (IH _ Hdiv) as [Hall Hacc].
      assert (0 ≤ m `mod` 128 < 128) by (apply Z.mod_pos_bound; lia).
      split.
      * apply Forall_app. split; [done|]. repeat constructor; lia.
      * unfold vlq_acc in *. rewrite fold_left_app, Hacc. simpl.
        pose proof (Z.div_mod m 128). lia.
Qed.

Lemma b8_val b : 0 ≤ b < 256 → byte_val (b8 b) = b.
Proof.
  intros H. unfold byte_val, b8.
  destruct (Byte.of_N (Z.to_N b)) as [x|] eqn:E.
  - apply Byte.to_of_N in E. rewrite E. lia.
  - apply Byte.of_N_None_iff in E. lia.
Qed.

Lemma getUint8_app pre bs post i b :
  bs !! i = Some b →
  getUint8 (pre ++ bs ++ post) (byteLength pre + Z.of_nat i) = Ok (byte_val b).
Proof.
  intros H. unfold getUint8, arr_get, byteLength.
  destruct (Z.leb_spec 0 (Z.of_nat (length pre) + Z.of_nat i)); [|lia].
  replace (Z.to_nat (Z.of_nat (length pre) + Z.of_nat i)) with (length pre + i)%nat by lia.
  rewrite lookup_app_r by lia.
  replace (length pre + i - length pre)%nat with i by lia.
  by rewrite (lookup_app_l_Some _ _ _ _ H).
Qed.

(** The fuel [readVLQ] supplies is never exhausted: every byte read lies
    inside the view. *)
Lemma readVLQ_fuel_total view off : ∀ fuel v bytes,
  (0 < fuel)%nat →
  off + bytes < 0 ∨ (Z.to_nat (byteLength view - (off + bytes)) < fuel)%nat →
  readVLQ_fuel fuel view off v bytes ≠ None.
Proof.
  induction fuel as [|fuel IH]; intros v bytes Hpos Hfuel; [lia|].
  cbn [readVLQ_fuel].
  destruct (getUint8 view (off + bytes)) as [b|e] eqn:E; [|done].
  destruct (Z.land b 128 =? 0); [done|].
  apply getUint8_Ok in E as [[Hlo Hhi] _].
  apply IH; lia.
Qed.

Lemma readVLQ_fuel_enough view off :
  readVLQ_fuel (S (length view)) view off 0 0 = Some (readVLQ view off).
Proof.
  unfold readVLQ.
  destruct (readVLQ_fuel (S (length view)) view off 0 0) eqn:E; [done|].
  exfalso. revert E. apply readVLQ_fuel_total; unfold byteLength; lia.
Qed.

(** C7, counterexample: [2 ^ 31] is encoded by the five bytes
    [88 80 80 80 00], and the decoder, whose accumulator is shifted as a
    32-bit integer, reads them as [- 2 ^ 31]. *)
Lemma readVLQ_wraps_at_2_31 :
  encodeVLQ (2 ^ 31) = b8 <$> [0x88; 0x80; 0x80; 0x80; 0x00] ∧
  readVLQ (encodeVLQ (2 ^ 31)) 0 = Ok (mkVLQ (- 2 ^ 31) 5) ∧
  readVLQ (encodeVLQ (2 ^ 31)) 0 ≠
    Ok (mkVLQ (2 ^ 31) (Z.of_nat (length (encodeVLQ (2 ^ 31))))).
Proof. repeat split; vm_compute; congruence. Qed.

(** C7, amended: decoding the encoding of [n] gives back [n] and the
    number of bytes of the encoding, wherever the bytes lie in the view,
    for every [n] below [2 ^ 31], the range the 32-bit accumulator of the
    decoder can hold (all the quantities of at most four bytes of a MIDI
    file, up to [0x0FFFFFFF], among them); [0] is the byte [00], read as
    value 0 in 1 byte, and [128] is the bytes [81 00], read as value 128 in
    2 bytes. *)
Theorem readVLQ_roundtrip :
  (∀ n pre post, 0 ≤ n < 2 ^ 31 →
     readVLQ (pre ++ encodeVLQ n ++ post) (byteLength pre) =
       Ok (mkVLQ n (Z.of_nat (length (encodeVLQ n))))) ∧
  (encodeVLQ 0 = [b8 0x00] ∧ readVLQ [b8 0x00] 0 = Ok (mkVLQ 0 1)) ∧
  (encodeVLQ 128 = [b8 0x81; b8 0x00] ∧ readVLQ [b8 0x81; b8 0x00] 0 = Ok (mkVLQ 128 2)).
Proof.
  split; [|by vm_compute].
  intros n pre post Hn. unfold readVLQ.
  set (fuel := Z.to_nat (Z.log2 n + 1)).
  set (hs := vlq_continuation fuel (n `div` 128)).
  assert (Hdiv : 0 ≤ n `div` 128 < 2 ^ 24).
  { split; [apply Z.div_pos; lia|]. apply Z.div_lt_upper_bound; [lia|].
    change (128 * 2 ^ 24) with (2 ^ 31). lia. }
  assert (Hfuel : 0 ≤ n `div` 128 < 2 ^ Z.of_nat fuel).
  { split; [lia|]. apply Z.le_lt_trans with n.
    - apply Z.div_le_upper_bound; lia.
    - unfold fuel. rewrite Z2Nat.id by (pose proof (Z.log2_nonneg n); lia).
      destruct (Z.eq_dec n 0) as [->|Hne]; [done|].
      pose proof (Z.log2_spec n) as Hl. rewrite <- Z.add_1_r in Hl. lia. }
  destruct (vlq_continuation_spec fuel _ Hfuel) as [Hall Hacc].
  assert (Hlast : 0 ≤ n `mod` 128 < 128) by (apply Z.mod_pos_bound; lia).
  assert (Henc : encodeVLQ n = b8 <$> (hs ++ [n `mod` 128])) by done.
  fold hs in Hall, Hacc. clearbody hs. clear Hfuel. clearbody fuel.
  rewrite (readVLQ_fuel_decode _ (byteLength pre) hs _ 0 0 (n `mod` 128));
    try done; try lia.
  - rewrite Hacc, Henc, length_fmap, length_app. simpl.
    do 2 f_equal; [pose proof (Z.div_mod n 128); lia | lia].
  - rewrite !length_app, Henc, length_fmap, length_app. simpl. lia.
  - intros i b Hi. rewrite Z.add_0_l.
    assert (Hb : 0 ≤ b < 256).
    { apply lookup_app_Some in Hi as [Hi | [_ Hi]].
      - eapply Forall_lookup_1 in Hall; [|done]. simpl in Hall. lia.
      - apply list_lookup_singleton_Some in Hi as [_ <-]. lia. }
    rewrite <- (b8_val b Hb). apply getUint8_app.
    by rewrite Henc, list_lookup_fmap, Hi.
Qed.

(** The largest quantity a MIDI file may hold, [FF FF FF 7F]. *)
Lemma readVLQ_roundtrip_witness :
  readVLQ ([] ++ encodeVLQ 0x0FFFFFFF ++ []) (byteLength []) =
    Ok (mkVLQ 0x0FFFFFFF (Z.of_nat (length (encodeVLQ 0x0FFFFFFF)))).
Proof.
  apply (proj1 readVLQ_roundtrip 0x0FFFFFFF [] []). split; [lia | reflexivity].
Defined.

(** ** Header tables *)

Lemma mapM_Ok {A B} (f : A → result B) l r :
  mapM f l = Ok r → Forall2 (λ x y, f x = Ok y) l r.
Proof.
  revert r. induction l as [|x l IH]; intros r; simpl.
  - intros [= <-]. constructor.
  - intros (y & Hy & (ys & Hys & [= <-])%bind_Ok)%bind_Ok.
    constructor; [done | by apply IH].
Qed.

Lemma length_for_lt n : length (for_lt n) = Z.to_nat n.
Proof. unfold for_lt. by rewrite length_fmap, length_seq. Qed.

Lemma lookup_for_lt n i x : for_lt n !! i = Some x → x = Z.of_nat i.
Proof.
  unfold for_lt. rewrite list_lookup_fmap.
  destruct (seq 0 (Z.to_nat n) !! i) as [j|] eqn:E; [|discriminate].
  apply lookup_seq in E as [-> _]. by intros [= <-].
Qed.

(** [for_lt_Q] lists the integers the loop condition [i < bound] admits. *)
Lemma for_lt_Q_spec bound i :
  i ∈ for_lt_Q bound ↔ 0 ≤ i ∧ (inject_Z i < bound)%Q.
Proof.
  unfold for_lt_Q, for_lt. rewrite list_elem_of_fmap.
  pose proof (Qle_ceiling bound) as Hle. pose proof (Qceiling_lt bound) as Hlt.
  split.
  - intros (k & -> & Hk). apply elem_of_seq in Hk. split; [lia|].
    apply Qnot_le_lt. intros Hge.
    assert (Qceiling bound - 1 < Z.of_nat k); [|lia].
    rewrite Zlt_Qlt. by eapply Qlt_le_trans.
  - intros [Hi Hb]. exists (Z.to_nat i). split; [lia|].
    apply elem_of_seq. split; [lia|]. simpl.
    assert (i < Qceiling bound); [|lia].
    rewrite Zlt_Qlt. by eapply Qlt_le_trans.
Qed.







(** ** Generator aggregation *)




Ltac case_op k :=
  let p := fresh "p" in
  destruct k as [|p|p]; [ | do 6 (try destruct p as [p|p|]) | ].

(** What one [case] of the [switch] does to a numeric local. *)
Lemma apply_gen_num sid L tbl k a v :
  num (apply_gen sid (L, tbl) k a).1 v =
    if num_op v =? k then num_written v (num L v) a else num L v.
Proof. case_op k; destruct v; reflexivity. Qed.

(** And to a duration. *)
Lemma apply_gen_time sid L tbl k a v :
  time (apply_gen sid (L, tbl) k a).1 v =
    if time_op v =? k then Pow2Cents a else time L v.
Proof. case_op k; destruct v; reflexivity. Qed.

Lemma Object_keys_NoDup m : NoDup (Object_keys m).
Proof.
  unfold Object_keys. rewrite merge_sort_Permutation. apply NoDup_elements.
Qed.

Lemma elem_of_Object_keys m k : k ∈ Object_keys m ↔ is_Some (m !! k).
Proof.
  unfold Object_keys. rewrite merge_sort_Permutation, elem_of_elements.
  apply elem_of_dom.
Qed.

Section switch.
Context (sid : nat) (eff : gmap Z Z).

Lemma fold_switch_num v keys : ∀ L tbl,
  NoDup keys →
  num (fold_left (switch_on sid eff) keys (L, tbl)).1 v =
    match eff !! num_op v with
    | Some a => if bool_decide (num_op v ∈ keys)
                then num_written v (num L v) a else num L v
    | None => num L v
    end.
Proof.
  induction keys as [|k keys IH]; intros L tbl Hnd.
  - simpl. by destruct (eff !! num_op v).
  - apply NoDup_cons in Hnd as [Hk Hnd]. cbn [fold_left].
    destruct (switch_on sid eff (L, tbl) k) as [L' tbl'] eqn:Hstep.
    rewrite (IH L' tbl' Hnd).
    assert (HL' : num L' v =
      match eff !! k with
      | Some a => if num_op v =? k then num_written v (num L v) a else num L v
      | None => num L v
      end).
    { unfold switch_on in Hstep. destruct (eff !! k) as [a|].
      - rewrite <- apply_gen_num with (sid := sid) (tbl := tbl). by rewrite Hstep.
      - by injection Hstep as <- _. }
    destruct (Z.eqb_spec (num_op v) k) as [Heq|Hne]; [subst k|].
    + rewrite bool_decide_eq_false_2 by done.
      rewrite (bool_decide_eq_true_2 (num_op v ∈ num_op v :: keys))
        by apply list_elem_of_here.
      rewrite HL'. by destruct (eff !! num_op v).
    + assert (num L' v = num L v) as -> by (rewrite HL'; by destruct (eff !! k)).
      destruct (eff !! num_op v); [|done].
      by rewrite (bool_decide_ext (num_op v ∈ k :: keys) (num_op v ∈ keys))
        by (rewrite elem_of_cons; split; [intros [Heq|?]; [by destruct Hne | done] | by right]).
Qed.

Lemma fold_switch_time v keys : ∀ L tbl,
  NoDup keys →
  time (fold_left (switch_on sid eff) keys (L, tbl)).1 v =
    match eff !! time_op v with
    | Some a => if bool_decide (time_op v ∈ keys) then Pow2Cents a else time L v
    | None => time L v
    end.
Proof.
  induction keys as [|k keys IH]; intros L tbl Hnd.
  - simpl. by destruct (eff !! time_op v).
  - apply NoDup_cons in Hnd as [Hk Hnd]. cbn [fold_left].
    destruct (switch_on sid eff (L, tbl) k) as [L' tbl'] eqn:Hstep.
    rewrite (IH L' tbl' Hnd).
    assert (HL' : time L' v =
      match eff !! k with
      | Some a => if time_op v =? k then Pow2Cents a else time L v
      | None => time L v
      end).
    { unfold switch_on in Hstep. destruct (eff !! k) as [a|].
      - rewrite <- apply_gen_time with (sid := sid) (tbl := tbl). by rewrite Hstep.
      - by injection Hstep as <- _. }
    destruct (Z.eqb_spec (time_op v) k) as [Heq|Hne]; [subst k|].
    + rewrite bool_decide_eq_false_2 by done.
      rewrite (bool_decide_eq_true_2 (time_op v ∈ time_op v :: keys))
        by apply list_elem_of_here.
      rewrite HL'. by destruct (eff !! time_op v).
    + assert (time L' v = time L v) as -> by (rewrite HL'; by destruct (eff !! k)).
      destruct (eff !! time_op v); [|done].
      by rewrite (bool_decide_ext (time_op v ∈ k :: keys) (time_op v ∈ keys))
        by (rewrite elem_of_cons; split; [intros [Heq|?]; [by destruct Hne | done] | by right]).
Qed.


End switch.

(** ** The minimum duration as a real number *)

Lemma Rpower_1200_lt (x y : R) :
  (0 < x)%R → (0 < y)%R → (x < y)%R ↔ (Rpower x 1200 < Rpower y 1200)%R.
Proof.
  intros Hx Hy. split.
  - intros Hlt. apply Rlt_Rpower_l; lra.
  - intros Hlt. destruct (Rlt_le_dec x y) as [|Hle]; [done|].
    assert (Rpower y 1200 <= Rpower x 1200)%R by (apply Rle_Rpower_l; lra). lra.
Qed.

Lemma Rpower_2_cents c : Rpower (Rpower 2 (IZR c / 1200)) 1200 = powerRZ 2 c.
Proof.
  rewrite Rpower_mult, powerRZ_Rpower by lra. f_equal. field.
Qed.

Lemma Rpower_milli : Rpower (/ 1000) 1200 = (/ IZR (10 ^ 3600))%R.
Proof.
  change 1200%R with (IZR (Z.of_nat 1200)). rewrite <- INR_IZR_INZ.
  rewrite Rpower_pow by lra.
  rewrite pow_inv, pow_IZR. apply f_equal, (f_equal IZR).
  replace 3600 with (3 * 1200) by reflexivity. rewrite Z.pow_mul_r by lia.
  reflexivity.
Qed.

Lemma powerRZ_2_nonneg k : 0 ≤ k → powerRZ 2 k = IZR (2 ^ k).
Proof.
  intros Hk. rewrite <- (Z2Nat.id k) by done.
  rewrite <- pow_powerRZ, pow_IZR. done.
Qed.

(** [below_minTime] decides the comparison of real numbers
    [2 ^ (cents / 1200) < 0.001]. *)
Lemma below_minTime_spec c :
  below_minTime c = true ↔ (Rpower 2 (IZR c / 1200) < / 1000)%R.
Proof.
  assert (Hpos : (0 < Rpower 2 (IZR c / 1200))%R) by apply exp_pos.
  rewrite (Rpower_1200_lt _ _ Hpos) by lra.
  rewrite Rpower_2_cents, Rpower_milli.
  unfold below_minTime.
  assert (Hten : 0 < 10 ^ 3600) by (apply Z.pow_pos_nonneg; lia).
  generalize dependent (10 ^ 3600). intros T Hten.
  assert (HtenR : (0 < IZR T)%R) by (by apply IZR_lt). destruct (Z.ltb_spec c 0) as [Hneg|Hnn]; simpl.
  - replace c with (- (- c)) at 2 by lia.
    rewrite powerRZ_neg', powerRZ_2_nonneg by lia.
    assert (Htwo : 0 < 2 ^ (- c)) by (apply Z.pow_pos_nonneg; lia).
    assert (HtwoR : (0 < IZR (2 ^ (- c)))%R) by (by apply IZR_lt).
    rewrite Z.ltb_lt. split.
    + intros Hlt. apply Rinv_lt_contravar; [by apply Rmult_lt_0_compat|].
      by apply IZR_lt.
    + intros Hlt. apply lt_IZR.
      destruct (Rlt_le_dec (IZR T) (IZR (2 ^ (- c)))) as [|Hle]; [done|].
      apply Rinv_le_contravar in Hle; [lra | done].
  - split; [done|]. intros Hlt. exfalso.
    rewrite powerRZ_2_nonneg in Hlt by done.
    assert (1 ≤ 2 ^ c) by (pose proof (Z.pow_pos_nonneg 2 c ltac:(lia) Hnn); lia).
    assert (1 <= IZR (2 ^ c))%R by (by apply IZR_le).
    assert (/ IZR T <= / 1)%R.
    { apply Rinv_le_contravar; [lra|]. apply IZR_le. lia. }
    rewrite Rinv_1 in *. lra.
Qed.

(** The example file parses to the example bank. *)
Lemma example_bank_parsed : new_SoundFontParser example_sf2 = Ok example_bank.
Proof. vm_compute. reflexivity. Qed.

Lemma example_bank_zones :
  getZonesForNote example_bank (mkPreset "Piano" 0 0 [example_preset_zone]) 60 100 =
    Ok [example_match].
Proof. reflexivity. Qed.

(** The [case]s of the address operators write to the sample object the
    zone refers to; the table after the [switch] is the table before it with
    that one sample shifted. *)
Lemma apply_gen_table sid L tbl k a :
  (apply_gen sid (L, tbl) k a).2 = alter (addr_step k a) sid tbl.
Proof.
  case_op k; cbn [apply_gen addr_step snd];
    first [reflexivity | symmetry; by apply list_alter_id].
Qed.

Lemma switch_on_table sid eff L tbl k :
  (switch_on sid eff (L, tbl) k).2 = alter (λ s, key_step eff s k) sid tbl.
Proof.
  unfold switch_on, key_step. destruct (eff !! k) as [a|].
  - apply apply_gen_table.
  - symmetry. by apply list_alter_id.
Qed.

Lemma fold_switch_table sid eff keys : ∀ L tbl,
  (fold_left (switch_on sid eff) keys (L, tbl)).2 =
    alter (λ s, fold_left (key_step eff) keys s) sid tbl.
Proof.
  induction keys as [|k keys IH]; intros L tbl; cbn [fold_left].
  - symmetry. by apply list_alter_id.
  - pose proof (switch_on_table sid eff L tbl k) as Hk.
    destruct (switch_on sid eff (L, tbl) k) as [L' tbl']. cbn [snd] in Hk. subst tbl'.
    rewrite IH, list_alter_alter_eq. done.
Qed.

Lemma addr_step_fields k a s :
  addr_step k a s =
    mkSample (sampleName s) (start s + start_delta k a) (end_ s + end_delta k a)
      (startLoop s + startLoop_delta k a) (endLoop s + endLoop_delta k a)
      (sampleRate s) (originalKey s) (correction s) (sampleLink s) (sampleType s).
Proof.
  destruct s as [n st en sl el sr ok co li ty].
  case_op k;
    cbn [addr_step start_delta end_delta startLoop_delta endLoop_delta];
    unfold add_start, add_end, add_startLoop, add_endLoop;
    cbn [sampleName start end_ startLoop endLoop sampleRate originalKey correction
         sampleLink sampleType];
    f_equal; lia.
Qed.

Lemma fold_key_step eff keys : ∀ s,
  fold_left (key_step eff) keys s =
    mkSample (sampleName s)
      (start s + sum_delta start_delta eff keys)
      (end_ s + sum_delta end_delta eff keys)
      (startLoop s + sum_delta startLoop_delta eff keys)
      (endLoop s + sum_delta endLoop_delta eff keys)
      (sampleRate s) (originalKey s) (correction s) (sampleLink s) (sampleType s).
Proof.
  induction keys as [|k keys IH]; intros s; cbn [fold_left sum_delta foldr].
  - destruct s as [n st en sl el sr ok co li ty]. cbn. f_equal; lia.
  - rewrite IH. fold (sum_delta start_delta eff keys) (sum_delta end_delta eff keys)
      (sum_delta startLoop_delta eff keys) (sum_delta endLoop_delta eff keys).
    unfold key_step, key_delta. destruct (eff !! k) as [a|].
    + rewrite addr_step_fields. cbn. f_equal; lia.
    + f_equal; lia.
Qed.

Lemma sum_delta_two d eff keys a b :
  NoDup keys → a ≠ b →
  (∀ k x, k ≠ a → k ≠ b → d k x = 0) →
  sum_delta d eff keys =
    (if bool_decide (a ∈ keys) then key_delta d eff a else 0) +
    (if bool_decide (b ∈ keys) then key_delta d eff b else 0).
Proof.
  intros Hnd Hab Hd. induction Hnd as [|k keys Hk Hnd IH]; [done|].
  cbn [sum_delta foldr]. fold (sum_delta d eff keys). rewrite IH.
  assert (Hother : k ≠ a → k ≠ b → key_delta d eff k = 0).
  { intros Ha Hb. unfold key_delta. destruct (eff !! k); [by apply Hd | done]. }
  destruct (decide (k = a)) as [->|Hka]; [|destruct (decide (k = b)) as [->|Hkb]].
  - rewrite (bool_decide_eq_true_2 (a ∈ a :: keys)) by left.
    rewrite (bool_decide_eq_false_2 (a ∈ keys)) by done.
    rewrite (bool_decide_ext (b ∈ a :: keys) (b ∈ keys)); [lia|].
    rewrite elem_of_cons. split; [intros [?|?]; [congruence | done] | by right].
  - rewrite (bool_decide_eq_true_2 (b ∈ b :: keys)) by left.
    rewrite (bool_decide_eq_false_2 (b ∈ keys)) by done.
    rewrite (bool_decide_ext (a ∈ b :: keys) (a ∈ keys)); [lia|].
    rewrite elem_of_cons. split; [intros [?|?]; [congruence | done] | by right].
  - rewrite Hother by done.
    rewrite (bool_decide_ext (a ∈ k :: keys) (a ∈ keys)),
            (bool_decide_ext (b ∈ k :: keys) (b ∈ keys)); [lia| |];
      rewrite elem_of_cons; (split; [intros [?|?]; [congruence | done] | by right]).
Qed.

Lemma sum_delta_keys d eff a b :
  a ≠ b →
  (∀ k x, k ≠ a → k ≠ b → d k x = 0) →
  sum_delta d eff (Object_keys eff) = key_delta d eff a + key_delta d eff b.
Proof.
  intros Hab Hd. rewrite (sum_delta_two d eff _ a b (Object_keys_NoDup eff) Hab Hd).
  assert (Hin : ∀ k, (if bool_decide (k ∈ Object_keys eff) then key_delta d eff k else 0)
                     = key_delta d eff k).
  { intros k. case_bool_decide as Hk; [done|]. unfold key_delta.
    destruct (eff !! k) eqn:E; [|done]. destruct Hk. apply elem_of_Object_keys. eauto. }
  by rewrite !Hin.
Qed.

Lemma apply_gens_table sid eff L tbl :
  (apply_gens sid eff (L, tbl)).2 = alter (shift_sample eff) sid tbl.
Proof.
  unfold apply_gens. rewrite fold_switch_table. apply list_alter_ext; [|done].
  intros s _. rewrite fold_key_step. unfold shift_sample.
  rewrite (sum_delta_keys start_delta eff 0 4), (sum_delta_keys end_delta eff 1 12),
    (sum_delta_keys startLoop_delta eff 2 14), (sum_delta_keys endLoop_delta eff 3 18);
    try done.
  2-5: intros k x H1 H2; case_op k; done.
  unfold key_delta, gen_amount.
  destruct (eff !! 0), (eff !! 1), (eff !! 2), (eff !! 3), (eff !! 4), (eff !! 12),
    (eff !! 14), (eff !! 18); cbn; f_equal; lia.
Qed.




(** ** The sample table under [playNote] *)

(** Two triggers of the same note on the example bank, reduced to the
    [start] fields of the sample table and the buffer each voice plays. *)
Lemma example_two_triggers :
  match playNote example_bank 60 100 (Some 0%Q) default_channel with
  | Ok (bank1, stop1) =>
      start <$> samples bank1 = [10] ∧
      voice_buffer <$> stop1 = [mkBufferPlan 1 90 0 80] ∧
      match playNote bank1 60 100 (Some 0%Q) default_channel with
      | Ok (bank2, stop2) =>
          start <$> samples bank2 = [20] ∧
          voice_buffer <$> stop2 = [mkBufferPlan 1 80 (-10) 70]
      | Throw _ => False
      end
  | Throw _ => False
  end.
Proof. vm_compute. by repeat split. Qed.

(** C2, evaluated on the example bank: the instrument zone carries the
    generator [startAddrsOffset = 10], and each trigger of the same note
    adds 10 to the [start] field of the shared sample; the second trigger
    plays a different stretch of the sample than the first. *)
Lemma playNote_mutates_sample_table :
  ∃ bank1 stop1 bank2 stop2,
    playNote example_bank 60 100 (Some 0%Q) default_channel = Ok (bank1, stop1) ∧
    playNote bank1 60 100 (Some 0%Q) default_channel = Ok (bank2, stop2) ∧
    start <$> samples example_bank = [0] ∧
    start <$> samples bank1 = [10] ∧
    start <$> samples bank2 = [20] ∧
    voice_buffer <$> stop1 = [mkBufferPlan 1 90 0 80] ∧
    voice_buffer <$> stop2 = [mkBufferPlan 1 80 (-10) 70].
Proof.
  pose proof example_two_triggers as H.
  destruct (playNote example_bank 60 100 (Some 0%Q) default_channel)
    as [[bank1 stop1]|] eqn:E1; [|done].
  destruct H as (H1 & H2 & H).
  destruct (playNote bank1 60 100 (Some 0%Q) default_channel)
    as [[bank2 stop2]|] eqn:E2; [|done].
  destruct H as (H3 & H4).
  exists bank1, stop1, bank2, stop2.
  split; [reflexivity|]. split; [assumption|]. split; [reflexivity|].
  repeat split; assumption.
Qed.

(** ** Minimum durations *)

(** [time_fixes] touches the delay and the attack of the volume envelope
    and nothing else. *)
Lemma time_fixes_others L v :
  v ≠ delayVolEnv → v ≠ attackVolEnv → time (time_fixes L) v = time L v.
Proof. intros. by destruct v. Qed.

(** The durations of the voice a trigger on the example bank starts, in
    the order of [all_timevars]. *)
Lemma example_voice_times :
  match playNote example_bank 60 100 (Some 0%Q) default_channel with
  | Ok (_, stop) =>
      (λ voice, time voice.(voice_params) <$> all_timevars) <$> stop =
        [[minTime; minTime;
          Pow2Cents (-12000); Pow2Cents (-12000); Pow2Cents (-12000);
          Pow2Cents (-12000); Pow2Cents (-12000); Pow2Cents (-12000);
          Pow2Cents (-12000); Pow2Cents (-12000);
          Pow2Cents (-12000); Pow2Cents (-12000)]]
  | Throw _ => False
  end.
Proof. vm_compute. reflexivity. Qed.

(** C5, evaluated on the example bank: the voice [playNote] hands to the
    backend has its delay and attack raised to [minTime], while its hold,
    decay and release, the five times of the modulation envelope and both
    LFO delays are [2 ^ (-12000 / 1200)] seconds, which is below
    [minTime = 0.001]. *)
Lemma unfloored_envelope_times :
  ∃ bank voice,
    playNote example_bank 60 100 (Some 0%Q) default_channel = Ok (bank, [voice]) ∧
    time voice.(voice_params) delayVolEnv = minTime ∧
    time voice.(voice_params) attackVolEnv = minTime ∧
    (∀ v, v ≠ delayVolEnv → v ≠ attackVolEnv →
          time voice.(voice_params) v = Pow2Cents (-12000)) ∧
    below_minTime (-12000) = true ∧
    (Rpower 2 (IZR (-12000) / 1200) < / 1000)%R.
Proof.
  pose proof example_voice_times as H.
  destruct (playNote example_bank 60 100 (Some 0%Q) default_channel)
    as [[bank stop]|] eqn:E; [|done].
  destruct stop as [|voice [|? ?]]; [done| |done].
  injection H as H1 H2 H3 H4 H5 H6 H7 H8 H9 H10 H11 H12.
  assert (Hb : below_minTime (-12000) = true) by (vm_compute; reflexivity).
  exists bank, voice.
  split; [reflexivity|]. split; [assumption|]. split; [assumption|].
  split; [|split; [exact Hb | by apply below_minTime_spec]].
  intros v ? ?. destruct v; try assumption; congruence.
Qed.

(** ** Zone resolution *)

Lemma inner_zones_fold this key velocity presetZone zones : ∀ acc,
  fold_left (λ matchingZones instZone,
      if in_range key instZone.(keyRange) && in_range velocity instZone.(velRange)
      then match instZone.(sampleID) with
           | Some sampleID =>
               matchingZones ++
                 [mkMatch instZone (arr_ref this.(samples) sampleID) presetZone]
           | None => matchingZones
           end
      else matchingZones) zones acc =
  acc ++ instrument_matches this key velocity presetZone (mkInstrument EmptyString zones).
Proof.
  unfold instrument_matches, zone_matches. simpl.
  induction zones as [|z zones IH]; intros acc; simpl; [by rewrite app_nil_r|].
  rewrite IH. destruct (_ && _); [|done].
  destruct (sampleID z); [|done]. by rewrite <- app_assoc.
Qed.

Lemma getZonesForNote_fold this key velocity zones : ∀ acc,
  foldM (λ matchingZones zone,
    if in_range key zone.(keyRange) && in_range velocity zone.(velRange) then
      match zone.(instrumentID) with
      | Some instrumentID =>
          match arr_get this.(instruments) instrumentID with
          | None => Throw TypeError
          | Some inst =>
              Ok (fold_left (λ matchingZones instZone,
                    if in_range key instZone.(keyRange)
                       && in_range velocity instZone.(velRange)
                    then match instZone.(sampleID) with
                         | Some sampleID =>
                             matchingZones ++
                               [mkMatch instZone (arr_ref this.(samples) sampleID) zone]
                         | None => matchingZones
                         end
                    else matchingZones)
                  inst.(instrumentZones) matchingZones)
          end
      | None => Ok matchingZones
      end
    else Ok matchingZones) zones acc =
  if existsb (dangling_instrument this key velocity) zones then Throw TypeError
  else Ok (acc ++ flat_map (zone_contribution this key velocity) zones).
Proof.
  induction zones as [|z zones IH]; intros acc; simpl; [by rewrite app_nil_r|].
  unfold dangling_instrument at 1, zone_contribution at 1, zone_matches.
  destruct (in_range key (keyRange z) && in_range velocity (velRange z)); simpl.
  - destruct (instrumentID z) as [i|]; simpl; [|apply IH].
    destruct (arr_get (instruments this) i) as [inst|]; simpl; [|done].
    rewrite IH. destruct (existsb _ zones); [done|].
    rewrite inner_zones_fold, <- app_assoc. by destruct inst.
  - apply IH.
Qed.

(** C4, counterexample: the first zone of the preset is valid and alone
    yields a match; with a second zone whose instrument index is out of
    range the whole call throws and returns no match.  An instrument zone
    whose sample index is out of range is not skipped either: it is
    returned as a match whose sample is [undefined]. *)
Lemma getZonesForNote_not_skipping :
  getZonesForNote example_bank (mkPreset "Piano" 0 0 [example_preset_zone]) 60 100 =
    Ok [example_match] ∧
  arr_get (instruments example_bank) 5 = None ∧
  getZonesForNote example_bank dangling_preset 60 100 = Throw TypeError ∧
  arr_get (samples dangling_sample_bank) 7 = None ∧
  getZonesForNote dangling_sample_bank (mkPreset "Piano" 0 0 [example_preset_zone]) 60 100 =
    Ok [example_match; mkMatch dangling_sample_zone None example_preset_zone].
Proof. by repeat split. Qed.

(** C4, amended: an out-of-range index is never skipped.  If a preset zone
    that matches the note has an instrument index out of range, the
    resolution call throws a [TypeError] and returns nothing, whatever the
    other zones hold.  Otherwise it returns the matches of all the zones,
    and among them an instrument zone whose sample index is out of range
    appears with an [undefined] sample, on which the note trigger throws. *)
Theorem getZonesForNote_dangling_references this preset key velocity :
  (Exists (λ z, dangling_instrument this key velocity z = true) preset.(presetZones) →
   getZonesForNote this preset key velocity = Throw TypeError) ∧
  (Forall (λ z, dangling_instrument this key velocity z = false) preset.(presetZones) →
   getZonesForNote this preset key velocity =
     Ok (flat_map (zone_contribution this key velocity) preset.(presetZones))) ∧
  (∀ matches m, getZonesForNote this preset key velocity = Ok matches → m ∈ matches →
     (m.(sample) = None ↔
      ∃ sid, m.(zone).(sampleID) = Some sid ∧ arr_get this.(samples) sid = None)) ∧
  (∀ startTime state acc m, m.(sample) = None →
     play_zone key velocity startTime state acc m = Throw TypeError).
Proof.
  unfold getZonesForNote. rewrite getZonesForNote_fold. simpl.
  split; [|split; [|split]].
  - intros H. apply Exists_exists in H as (z & Hz & Hd).
    rewrite (proj2 (existsb_exists _ _)); [done|].
    exists z. split; [by apply list_elem_of_In | done].
  - intros H. destruct (existsb _ _) eqn:E; [|done].
    apply existsb_exists in E as (z & Hz & Hd).
    apply list_elem_of_In in Hz. rewrite Forall_forall in H.
    rewrite (H z Hz) in Hd. done.
  - intros matches m H Hm. destruct (existsb _ _); [done|].
    injection H as <-.
    apply list_elem_of_In, in_flat_map in Hm as (z & _ & Hm).
    unfold zone_contribution in Hm.
    destruct (zone_matches key velocity z); [|done].
    destruct (instrumentID z) as [i|]; [|done].
    destruct (arr_get (instruments this) i) as [inst|]; [|done].
    apply in_flat_map in Hm as (iz & _ & Hm).
    destruct (zone_matches key velocity iz); [|done].
    destruct (sampleID iz) as [sid|] eqn:Hsid; [|done].
    destruct Hm as [<-|[]]. simpl. unfold arr_ref. rewrite Hsid.
    destruct (arr_get (samples this) sid) eqn:Hs.
    + split; [done|]. intros (sid' & [= <-] & Hn). congruence.
    + split; [|done]. intros _. by exists sid.
  - intros startTime state [bank stops] m Hm. unfold play_zone. by rewrite Hm.
Qed.

Lemma getZonesForNote_dangling_references_witness :
  getZonesForNote example_bank dangling_preset 60 100 = Throw TypeError ∧
  getZonesForNote dangling_sample_bank (mkPreset "Piano" 0 0 [example_preset_zone]) 60 100 =
    Ok (flat_map (zone_contribution dangling_sample_bank 60 100) [example_preset_zone]).
Proof.
  split.
  - apply (proj1 (getZonesForNote_dangling_references example_bank dangling_preset 60 100)).
    apply Exists_cons_tl, Exists_cons_hd. reflexivity.
  - apply (proj1 (proj2 (getZonesForNote_dangling_references dangling_sample_bank
                           (mkPreset "Piano" 0 0 [example_preset_zone]) 60 100))).
    apply Forall_cons_2; [reflexivity | apply Forall_nil_2].
Defined.

(** ** The scheduler *)

Lemma alter_fixed {A} (f : A → A) (i : nat) (l : list A) (x : A) :
  l !! i = Some x → f x = x → alter f i l = l.
Proof.
  intros Hl Hf. apply list_eq. intros j. rewrite list_lookup_alter.
  destruct (decide (i = j)) as [<-|]; [|done]. rewrite Hl. simpl. by rewrite Hf.
Qed.

(** What [note_off] does when [activeNotes[ch]] exists. *)
Lemma note_off_spec s ch note notes :
  arr_get s.(activeNotes) ch = Some notes →
  note_off s ch note =
    Ok match notes !! note with
       | None => s
       | Some stop =>
           mkScheduler s.(tempo) s.(lastTick) s.(currentTime)
             (alter (delete note) (Z.to_nat ch) s.(activeNotes))
             s.(channelState) s.(parser)
             (s.(calls) ++ [StopVoices stop s.(currentTime)])
       end.
Proof.
  intros H. unfold note_off. rewrite H. f_equal.
  destruct (notes !! note) as [stop|] eqn:E; [done|].
  apply arr_get_Some in H as [_ H].
  rewrite (alter_fixed _ _ _ notes H); [by destruct s|].
  by apply delete_id.
Qed.

(** C9: a note-off (type 0x8), or a note-on (type 0x9) with velocity 0,
    arrives for [(ch, note)].  The play-head advances as for any event.  If
    no stop closure is stored for the pair, nothing else happens and no
    exception is thrown: the active notes, the channel states, the bank and
    the calls made to the backend are as before.  If one is stored, it is
    called with the advanced play-head time and the pair is removed from the
    table, the other channels keeping their entries. *)
Theorem note_off_dispatch division s tick ev ch type note vel notes :
  ev.(body) = Channel2 ch type note vel →
  type = 0x8 ∨ (type = 0x9 ∧ vel = 0) →
  arr_get s.(activeNotes) ch = Some notes →
  ∃ s', dispatch division s (tick, ev) = Ok s' ∧
    s'.(tempo) = s.(tempo) ∧ s'.(lastTick) = tick ∧
    s'.(currentTime) = advance s.(currentTime) (tick - s.(lastTick)) division s.(tempo) ∧
    s'.(channelState) = s.(channelState) ∧ s'.(parser) = s.(parser) ∧
    match notes !! note with
    | None => s' = advanced division s tick ∧
              s'.(activeNotes) = s.(activeNotes) ∧ s'.(calls) = s.(calls)
    | Some stop =>
        s'.(calls) = s.(calls) ++ [StopVoices stop s'.(currentTime)] ∧
        arr_get s'.(activeNotes) ch = Some (delete note notes) ∧
        delete note notes !! note = None ∧
        ∀ ch', ch' ≠ ch → arr_get s'.(activeNotes) ch' = arr_get s.(activeNotes) ch'
    end.
Proof.
  intros Hb Ht Hn. unfold dispatch. rewrite Hb. fold (advanced division s tick).
  assert (Hd : dispatch_body (advanced division s tick) (Channel2 ch type note vel) =
               note_off (advanced division s tick) ch note).
  { simpl. destruct Ht as [->|[-> ->]]; reflexivity. }
  rewrite Hd, (note_off_spec _ _ _ notes) by done.
  eexists. split; [done|].
  destruct (notes !! note) as [stop|] eqn:E; simpl; repeat split; try done.
  - pose proof (arr_get_Some _ _ _ Hn) as [Hr Hl].
    unfold arr_get in *. destruct (0 <=? ch); [|done].
    by rewrite list_lookup_alter, decide_True, Hl by done.
  - apply lookup_delete_eq.
  - intros ch' Hne. unfold arr_get. destruct (Z.leb_spec 0 ch'); [|done].
    apply arr_get_Some in Hn as [Hr _].
    apply list_lookup_alter_ne. lia.
Qed.

(** A stored closure is stopped at the advanced time and removed; a second
    note-off for the pair finds nothing. *)
Lemma note_off_dispatch_witness :
  ∃ s', dispatch 480 example_playing (480, mkEvent 480 0x80 (Channel2 0 0x8 60 64)) = Ok s' ∧
        s'.(calls) = [StopVoices [] s'.(currentTime)] ∧
        arr_get s'.(activeNotes) 0 = Some (delete 60 {[ 60 := [] ]}).
Proof.
  assert (Hn : arr_get example_playing.(activeNotes) 0 = Some {[ 60 := [] ]})
    by reflexivity.
  destruct (note_off_dispatch 480 example_playing 480
              (mkEvent 480 0x80 (Channel2 0 0x8 60 64)) 0 0x8 60 64 {[ 60 := [] ]}
              eq_refl (or_introl eq_refl) Hn)
    as (s' & Hs & _ & _ & _ & _ & _ & Hm).
  exists s'. split; [exact Hs|].
  rewrite lookup_singleton_eq in Hm.
  destruct Hm as (Hc & Ha & _). split; [exact Hc | exact Ha].
Defined.

(** Both tables keep their 16 entries through every event. *)
Lemma dispatch_lengths division s e s' :
  dispatch division s e = Ok s' →
  length s'.(activeNotes) = length s.(activeNotes) ∧
  length s'.(channelState) = length s.(channelState).
Proof.
  destruct e as [tick ev]. unfold dispatch. fold (advanced division s tick).
  assert (Hoff : ∀ t ch note r, note_off t ch note = Ok r →
    length r.(activeNotes) = length t.(activeNotes) ∧
    length r.(channelState) = length t.(channelState)).
  { intros t ch note r. unfold note_off.
    destruct (arr_get (activeNotes t) ch); [|done].
    intros [= <-]. simpl. by rewrite length_alter. }
  assert (Hon : ∀ t ch note vel r, note_on t ch note vel = Ok r →
    length r.(activeNotes) = length t.(activeNotes) ∧
    length r.(channelState) = length t.(channelState)).
  { intros t ch note vel r. unfold note_on.
    destruct (arr_get (channelState t) ch); [|done].
    intros ([this stop] & _ & H)%bind_Ok.
    destruct (arr_get (activeNotes t) ch); [|done].
    injection H as <-. simpl. by rewrite length_alter. }
  assert (Hup : ∀ t ch f r, update_channel t ch f = Ok r →
    length r.(activeNotes) = length t.(activeNotes) ∧
    length r.(channelState) = length t.(channelState)).
  { intros t ch f r. unfold update_channel.
    destruct (arr_get (channelState t) ch); [|done].
    intros [= <-]. simpl. by rewrite length_alter. }
  destruct (body ev) as [mt data|data|ch [] p1|ch type p1 p2]; simpl.
  - destruct mt as [|p|p]; try (by intros [= <-]).
    do 7 (try destruct p as [p|p|]); try (by intros [= <-]).
    destruct data as [|d0 [|d1 [|d2 [|]]]]; by intros [= <-].
  - by intros [= <-].
  - intros H. by apply Hup in H.
  - by intros [= <-].
  - repeat case_match; intros Hr;
      try (by apply Hoff in Hr); try (by apply Hon in Hr); try (by apply Hup in Hr).
    by injection Hr as <-.
Qed.

Lemma schedule_lengths division events : ∀ s s',
  foldM (dispatch division) events s = Ok s' →
  length s'.(activeNotes) = length s.(activeNotes) ∧
  length s'.(channelState) = length s.(channelState).
Proof.
  induction events as [|e events IH]; intros s s'; simpl.
  - by intros [= <-].
  - intros (s1 & H1 & H2)%bind_Ok. apply dispatch_lengths in H1 as [<- <-].
    by apply IH.
Qed.

(** The channel of a parsed channel message is a nibble, so
    [activeNotes[ch]] and [channelState[ch]] always exist. *)
Lemma read_event_channel view off rs ev off' rs' ch :
  read_event view off rs = Ok (ev, off', rs') →
  event_channel ev.(body) = Some ch → 0 ≤ ch < 16.
Proof.
  assert (Hn : ∀ st, 0 ≤ Z.land st 15 < 16).
  { intros st. change 15 with (Z.ones 4). rewrite Z.land_ones by lia.
    apply Z.mod_pos_bound. lia. }
  unfold read_event. intros (d & _ & H)%bind_Ok.
  apply bind_Ok in H as (st & _ & H).
  destruct (if st <? 128 then _ else _) as [[o st'] rs''].
  repeat case_match;
    repeat (apply bind_Ok in H as (? & _ & H));
    injection H as <- _ _; simpl; try done; intros [= <-]; apply Hn.
Qed.

(** C10: the state a scheduling pass starts from.  Each of the 16 channels
    has bank 0, preset 0, volume 127, expression 127, pan 64, modulation 0
    and pitch bend 0, and its table of active notes holds no closure for
    any note; tempo is 500000 and no call has been made.  Every pass runs
    its events from that state. *)
Theorem scheduling_pass_initial_state this now ch :
  0 ≤ ch < 16 →
  let s0 := init_scheduler this now in
  arr_get s0.(channelState) ch = Some (mkChannelState 0 0 127 127 64 0 0) ∧
  (∃ notes, arr_get s0.(activeNotes) ch = Some notes ∧ ∀ note, notes !! note = None) ∧
  length s0.(channelState) = 16%nat ∧ length s0.(activeNotes) = 16%nat ∧
  s0.(tempo) = 500000 ∧ s0.(lastTick) = 0 ∧ s0.(currentTime) = Some now ∧
  s0.(calls) = [] ∧
  (∀ midi, schedule this now midi =
     foldM (dispatch midi.(division))
       (sort_by_tick (concat (absolute_ticks 0 <$> midi.(tracks)))) s0) ∧
  (∀ midiBuffer, playMIDI this now midiBuffer =
     midi ← parseMIDI midiBuffer; schedule this now midi).
Proof.
  intros Hch s0. unfold s0, init_scheduler.
  cbn [channelState activeNotes tempo lastTick currentTime calls].
  unfold arr_get. destruct (Z.leb_spec 0 ch); [|lia].
  repeat split.
  - apply lookup_replicate_2. lia.
  - exists ∅. split; [apply lookup_replicate_2; lia | intros note; apply lookup_empty].
Qed.

Lemma scheduling_pass_initial_state_witness :
  arr_get (init_scheduler example_bank 0).(channelState) 9 =
    Some (mkChannelState 0 0 127 127 64 0 0) ∧
  ∃ notes, arr_get (init_scheduler example_bank 0).(activeNotes) 9 = Some notes ∧
           ∀ note, notes !! note = None.
Proof.
  destruct (scheduling_pass_initial_state example_bank 0 9 ltac:(lia)) as (H1 & H2 & _).
  split; [exact H1 | exact H2].
Defined.

(** ** Termination of the MIDI parser *)

Lemma readVLQ_fuel_Ok view off : ∀ fuel v b r,
  readVLQ_fuel fuel view off v b = Some (Ok r) →
  0 ≤ off + b < byteLength view ∧ b < r.(bytes).
Proof.
  induction fuel as [|fuel IH]; intros v b r; [done|]. cbn [readVLQ_fuel].
  destruct (getUint8 view (off + b)) as [x|] eqn:E; [|done].
  apply getUint8_Ok in E as [E _].
  destruct (Z.land x 128 =? 0).
  - intros [= <-]. simpl. lia.
  - intros H. apply IH in H. lia.
Qed.

Lemma readVLQ_Ok view off r :
  readVLQ view off = Ok r → 0 ≤ off < byteLength view ∧ 1 ≤ r.(bytes).
Proof.
  intros H. pose proof (readVLQ_fuel_enough view off) as Hf. rewrite H in Hf.
  apply readVLQ_fuel_Ok in Hf. lia.
Qed.

Lemma read_data_Ok view off len data : read_data view off len = Ok data → 0 ≤ len.
Proof. unfold read_data. destruct (Z.ltb_spec len 0); [done | lia]. Qed.

(** Every event takes at least one byte of the view. *)
Lemma read_event_progress view off rs ev off' rs' :
  read_event view off rs = Ok (ev, off', rs') →
  0 ≤ off < byteLength view ∧ off < off'.
Proof.
  unfold read_event. intros (d & Hd & H)%bind_Ok.
  apply readVLQ_Ok in Hd as [Hoff Hd].
  apply bind_Ok in H as (st & _ & H).
  destruct (st <? 128);
    repeat case_match;
    repeat match goal with
           | H : _ ≫= _ = Ok _ |- _ =>
               let E := fresh "E" in apply bind_Ok in H as (? & E & H)
           end;
    repeat match goal with
           | E : readVLQ _ _ = Ok _ |- _ => apply readVLQ_Ok in E as [_ E]
           | E : read_data _ _ _ = Ok _ |- _ => apply read_data_Ok in E
           end;
    injection H as _ <- _; lia.
Qed.

Lemma read_track_fuel_total view trackEnd : ∀ fuel off rs track,
  (0 < fuel)%nat →
  off < 0 ∨ (Z.to_nat (byteLength view - off) < fuel)%nat →
  read_track_fuel fuel view off trackEnd rs track ≠ None.
Proof.
  induction fuel as [|fuel IH]; intros off rs track Hpos Hfuel; [lia|].
  cbn [read_track_fuel]. destruct (off <? trackEnd); [|done].
  destruct (read_event view off rs) as [[[ev off'] rs']|] eqn:E; [|done].
  apply read_event_progress in E. apply IH; lia.
Qed.

(** The fuel [read_track] supplies is never exhausted. *)
Lemma read_track_fuel_enough view off trackEnd :
  read_track_fuel (S (length view)) view off trackEnd 0 [] =
    Some (read_track view off trackEnd).
Proof.
  unfold read_track.
  destruct (read_track_fuel (S (length view)) view off trackEnd 0 []) eqn:E; [done|].
  exfalso. revert E. apply read_track_fuel_total; unfold byteLength; lia.
Qed.

(** ** Channels of a parsed file *)

Lemma read_track_fuel_channels view trackEnd : ∀ fuel off rs track r,
  Forall channel_in_range track →
  read_track_fuel fuel view off trackEnd rs track = Some (Ok r) →
  Forall channel_in_range r.
Proof.
  induction fuel as [|fuel IH]; intros off rs track r Htrack; cbn [read_track_fuel].
  - destruct (off <? trackEnd); [done|]. by intros [= <-].
  - destruct (off <? trackEnd); [|by intros [= <-]].
    destruct (read_event view off rs) as [[[ev off'] rs']|] eqn:E; [|done].
    apply IH. apply Forall_app. split; [done|].
    apply Forall_singleton. intros ch. by eapply read_event_channel.
Qed.

Lemma foldM_invariant {A S} (P : S → Prop) (f : S → A → result S) l : ∀ s s',
  P s → (∀ s x s', P s → f s x = Ok s' → P s') → foldM f l s = Ok s' → P s'.
Proof.
  induction l as [|x l IH]; intros s s' Hs Hf; simpl.
  - by intros [= <-].
  - intros (s1 & H1 & H2)%bind_Ok. eapply IH; [|done..]. by eapply Hf.
Qed.

Lemma parseMIDI_channels view midi :
  parseMIDI view = Ok midi → Forall (Forall channel_in_range) midi.(tracks).
Proof.
  unfold parseMIDI. intros (magic & _ & H)%bind_Ok.
  destruct (negb _); [done|].
  apply bind_Ok in H as (format & _ & H).
  apply bind_Ok in H as (ntracks & _ & H).
  apply bind_Ok in H as (division & _ & H).
  apply bind_Ok in H as ([tracks off] & Hfold & [= <-]). simpl.
  apply (foldM_invariant (λ st, Forall (Forall channel_in_range) st.1)) in Hfold;
    [done | constructor |].
  clear. intros [acc o] x [acc' o'] Hacc Hstep. simpl in *.
  apply bind_Ok in Hstep as (m & _ & Hstep).
  destruct (negb _); [done|].
  apply bind_Ok in Hstep as (len & _ & Hstep).
  apply bind_Ok in Hstep as (track & Htrack & [= <- _]).
  apply Forall_app. split; [done|]. apply Forall_singleton.
  pose proof (read_track_fuel_enough view (o + 4 + 4) (o + 4 + 4 + len)) as Hf.
  rewrite Htrack in Hf.
  eapply read_track_fuel_channels; [|exact Hf]. constructor.
Qed.

Lemma absolute_ticks_channels track : ∀ tick,
  Forall channel_in_range track →
  Forall (λ e, channel_in_range e.2) (absolute_ticks tick track).
Proof.
  induction track as [|ev track IH]; intros tick; simpl; [constructor|].
  intros [? ?]%Forall_cons. constructor; [done | by apply IH].
Qed.

Lemma sort_by_tick_Forall (P : Z * Event → Prop) l :
  Forall P l → Forall P (sort_by_tick l).
Proof.
  unfold sort_by_tick. induction 1 as [|e l He Hl IH]; simpl; [constructor|].
  induction IH as [|e' l' He' Hl' IH']; simpl; [by repeat constructor|].
  destruct (e.1 <=? e'.1); repeat constructor; done.
Qed.

(** The events a pass dispatches for a parsed file all have channels below
    16, and the tables have 16 entries at every event: [activeNotes[ch]]
    is always there when a note-off is dispatched. *)
Lemma pass_active_notes_defined view midi this now pre e post s ch :
  parseMIDI view = Ok midi →
  sort_by_tick (concat (absolute_ticks 0 <$> midi.(tracks))) = pre ++ e :: post →
  foldM (dispatch midi.(division)) pre (init_scheduler this now) = Ok s →
  event_channel e.2.(body) = Some ch →
  is_Some (arr_get s.(activeNotes) ch) ∧ is_Some (arr_get s.(channelState) ch).
Proof.
  intros Hparse Hsplit Hfold Hch.
  assert (Hall : Forall (λ e, channel_in_range e.2)
                   (sort_by_tick (concat (absolute_ticks 0 <$> midi.(tracks))))).
  { apply sort_by_tick_Forall, Forall_concat, Forall_fmap.
    eapply Forall_impl; [by apply (parseMIDI_channels view)|].
    intros track. apply absolute_ticks_channels. }
  rewrite Hsplit in Hall. apply Forall_app in Hall as [_ [He _]%Forall_cons].
  apply He in Hch. apply schedule_lengths in Hfold as [Ha Hc].
  split; apply arr_get_in_range; [rewrite Ha | rewrite Hc]; simpl; lia.
Qed.

(** A whole pass over the example file: the note is started, its closure
    is called at the note-off half a second later and removed, and the
    note-off for a note that was never started changes nothing.  Each call
    is shown by its kind, the number of voices and its time. *)
Lemma example_pass :
  match playMIDI example_bank 0 example_midi with
  | Ok s =>
      (λ call, match call with
               | StartVoices stop => (1, length stop, None)
               | StopVoices stop t => (2, length stop, Qred <$> t)
               end) <$> s.(calls) =
        [(1, 1%nat, None); (2, 1%nat, Some (1 # 2)%Q)] ∧
      s.(activeNotes) = replicate 16 ∅ ∧
      Qred <$> s.(currentTime) = Some (1 # 2)%Q
  | Throw _ => False
  end.
Proof. vm_compute. by repeat split. Qed.

(** * Further properties *)

(** ** Termination of the chunk loop *)

(** The [while] loop of [parseRIFF] and its recursion terminate on every
    buffer, whatever the sizes it declares and whatever [offset] and [end]
    are.  An iteration of [parseRIFF_fuel] hands the fuel it has left both
    to the call on the children and to the next iteration, so the fuel
    bounds the length of a chain of iterations and nested calls, not the
    number of iterations in all; every link of such a chain starts further
    into the buffer, and any fuel above the length of the buffer gives the
    result of [parseRIFF_loop], a mapping or a [RangeError]. *)
Theorem parseRIFF_terminates view o stop fuel :
  (length view < fuel)%nat →
  parseRIFF_fuel fuel view o stop ∅ [] = Some (parseRIFF_loop view o stop) ∧
  (∀ e, parseRIFF_loop view o stop = Throw e → e = RangeError).
Proof.
  intros Hfuel. split.
  - replace fuel with ((fuel - S (length view)) + S (length view))%nat by lia.
    induction (fuel - S (length view))%nat as [|k IH]; cbn [Nat.add].
    + apply parseRIFF_fuel_enough.
    + by apply parseRIFF_fuel_mono.
  - intros e He. pose proof (parseRIFF_loop_spec view o stop) as H.
    by rewrite He in H.
Qed.

Lemma parseRIFF_terminates_witness :
  parseRIFF_fuel 100 overshooting_list 0 22 ∅ [] =
    Some (parseRIFF_loop overshooting_list 0 22).
Proof.
  apply (parseRIFF_terminates overshooting_list 0 22 100). vm_compute. lia.
Defined.

(** ** Recorded chunks *)

Lemma le_val_bound bs :
  Forall (λ b, 0 ≤ b < 256) bs → 0 ≤ le_val bs < 256 ^ Z.of_nat (length bs).
Proof.
  induction 1 as [|b bs Hb _ IH]; [simpl; lia|].
  cbn [le_val length]. rewrite Nat2Z.inj_succ, Z.pow_succ_r by lia. lia.
Qed.

Lemma getUint32_bound view o le v : getUint32 view o le = Ok v → 0 ≤ v < 2 ^ 32.
Proof.
  unfold getUint32, getBytes. intros (bs & Hb & [= <-])%bind_Ok.
  destruct (_ && _) eqn:E; [|done]. injection Hb as <-.
  apply andb_true_iff in E as [E1 E2]. apply Z.leb_le in E1, E2.
  unfold byteLength in E2.
  set (bs := byte_val <$> take 4 (drop (Z.to_nat o) view)).
  assert (Hlen : length bs = 4%nat).
  { unfold bs. rewrite length_fmap, length_take, length_drop. lia. }
  assert (Hall : Forall (λ b, 0 ≤ b < 256) bs).
  { apply Forall_fmap, Forall_true. intros b. apply byte_val_range. }
  unfold uint_val. destruct le.
  - pose proof (le_val_bound bs Hall) as H. rewrite Hlen in H. exact H.
  - pose proof (le_val_bound (reverse bs) (proj2 (Forall_reverse _ _) Hall)) as H.
    rewrite length_reverse, Hlen in H. exact H.
Qed.

Lemma leaves_in_buffer_Form len children :
  leaves_in_buffer len (Form children) ↔
  map_Forall (λ _ child, leaves_in_buffer len child) children.
Proof.
  cbn [leaves_in_buffer].
  apply (map_fold_weak_ind (λ r m, r ↔ map_Forall (λ _ c, leaves_in_buffer len c) m)).
  - split; [intros _; apply map_Forall_empty | done].
  - intros k c m r Hk IH. rewrite map_Forall_insert by done. by rewrite IH.
Qed.

Lemma parseRIFF_fuel_leaves fuel view : ∀ o stop m vis,
  map_Forall (λ _ node, leaves_in_buffer (byteLength view) node) m →
  match parseRIFF_fuel fuel view o stop m vis with
  | Some (Ok st) =>
      map_Forall (λ _ node, leaves_in_buffer (byteLength view) node) st.(loop_chunks)
  | _ => True
  end.
Proof.
  induction fuel as [|fuel IH]; intros o stop m vis Hm; cbn [parseRIFF_fuel].
  - by destruct (o <? stop).
  - destruct (o <? stop); [|done].
    destruct (readChunk view o) as [c|e] eqn:Hc; [|done].
    pose proof (readChunk_Ok _ _ _ Hc) as (Ho & Hlen & Hsz & Hoff & Hend).
    destruct (is_container (chunk_id c)).
    + destruct (readString view (chunk_offset c) 4) as [formType|e]; [|done].
      pose proof (IH (chunk_offset c + 4) (chunk_end c) ∅ [] (map_Forall_empty _)) as Hsub.
      destruct (parseRIFF_fuel fuel view (chunk_offset c + 4) (chunk_end c) ∅ [])
        as [[sub|e]|]; [|done..].
      apply IH. apply map_Forall_insert_2; [|done].
      by apply leaves_in_buffer_Form.
    + apply IH. apply map_Forall_insert_2; [|done].
      cbn [leaves_in_buffer]. split; [lia|].
      unfold readChunk in Hc. apply bind_Ok in Hc as (i & _ & Hc).
      apply bind_Ok in Hc as (sz & Hs & [= <-]). simpl.
      by apply getUint32_bound in Hs.
Qed.

(** Though no size is checked, every leaf [parseRIFF] records, at any
    depth, has a [dataOffset] inside the buffer (at least 8, at most the
    buffer length, its header having been read) and a [size] below
    [2 ^ 32]; only [dataOffset + size] may lie outside. *)
Theorem parseRIFF_leaves_in_buffer view o stop m :
  parseRIFF view o stop = Ok m →
  map_Forall (λ _ node, leaves_in_buffer (byteLength view) node) m.
Proof.
  unfold parseRIFF. intros (st & Hst & [= <-])%bind_Ok.
  pose proof (parseRIFF_fuel_leaves (S (length view)) view o stop ∅ []
                (map_Forall_empty _)) as H.
  rewrite parseRIFF_fuel_enough, Hst in H. exact H.
Qed.

Lemma parseRIFF_leaves_in_buffer_witness :
  map_Forall (λ _ node, leaves_in_buffer (byteLength oversized_leaf) node)
    ({[ "data"%string := Leaf 8 100 ]} : gmap string ChunkNode).
Proof.
  apply (parseRIFF_leaves_in_buffer oversized_leaf 0 8). reflexivity.
Defined.

(** ** Strings *)

(** [readString] returns exactly the characters before the first NUL among
    the [n] bytes at [o], or all [n] of them; it reads no byte after the
    NUL, so a field cut short by the end of the buffer is accepted when a
    NUL comes first. *)
Theorem readString_spec view n : ∀ o s,
  readString view o n = Ok s ↔
  ∃ cs, s = string_of_codes cs ∧ (length cs ≤ n)%nat ∧
    (∀ i c, cs !! i = Some c → getUint8 view (o + Z.of_nat i) = Ok c ∧ c ≠ 0) ∧
    ((length cs < n)%nat → getUint8 view (o + Z.of_nat (length cs)) = Ok 0).
Proof.
  induction n as [|n IH]; intros o s.
  - cbn [readString]. split.
    + intros [= <-]. exists []. split_and!; [done | simpl; lia | done | simpl; lia].
    + intros (cs & -> & Hlen & _). destruct cs; [done | simpl in Hlen; lia].
  - cbn [readString]. split.
    + intros (char & Hchar & Hrest)%bind_Ok.
      destruct (Z.eqb_spec char 0) as [->|Hne].
      * injection Hrest as <-. exists []. split_and!; [done | simpl; lia | done |].
        intros _. by rewrite Z.add_0_r.
      * apply bind_Ok in Hrest as (str & Hstr & [= <-]).
        apply IH in Hstr as (cs & -> & Hlen & Hcs & Hend).
        exists (char :: cs). split_and!; [done | simpl; lia | |].
        -- intros [|i] c H; simpl in H.
           ++ injection H as <-. by rewrite Z.add_0_r.
           ++ apply Hcs in H.
              by replace (o + Z.of_nat (S i)) with (o + 1 + Z.of_nat i) by lia.
        -- intros Hlt. simpl in Hlt.
           replace (o + Z.of_nat (length (char :: cs)))
             with (o + 1 + Z.of_nat (length cs)) by (simpl; lia).
           apply Hend. lia.
    + intros (cs & -> & Hlen & Hcs & Hend). destruct cs as [|c cs].
      * pose proof (Hend ltac:(simpl; lia)) as H0.
        change (Z.of_nat (length [])) with 0 in H0. rewrite Z.add_0_r in H0.
        by rewrite H0.
      * destruct (Hcs 0%nat c eq_refl) as [Hc Hne].
        change (Z.of_nat 0) with 0 in Hc. rewrite Z.add_0_r in Hc. rewrite Hc. cbn [mbind result_bind].
        destruct (Z.eqb_spec c 0) as [?|_]; [done|].
        assert (readString view (o + 1) n = Ok (string_of_codes cs)) as ->.
        { apply IH. exists cs. split_and!; [done | simpl in Hlen; lia | |].
          - intros i c' H. specialize (Hcs (S i) c' H).
            by replace (o + Z.of_nat (S i)) with (o + 1 + Z.of_nat i) in Hcs by lia.
          - intros Hlt.
            replace (o + 1 + Z.of_nat (length cs))
              with (o + Z.of_nat (length (c :: cs))) by (simpl; lia).
            apply Hend. simpl. lia. }
        done.
Qed.

Lemma readString_spec_witness :
  readString oversized_leaf 4 4 = Ok (string_of_codes [100]).
Proof.
  apply (readString_spec oversized_leaf 4 4). exists [100].
  split_and!; [done | simpl; lia | |].
  - intros [|[|i]] c H; [|done..]. injection H as <-. done.
  - intros _. reflexivity.
Defined.

(** ** The mapping built by [parseRIFF] *)

Lemma parseRIFF_fuel_entries fuel view : ∀ o stop m vis st,
  parseRIFF_fuel fuel view o stop m vis = Some (Ok st) →
  ∃ cs entries, loop_visited st = vis ++ cs ∧
    Forall2 (λ c e, chunk_entry view c = Ok e) cs entries ∧
    loop_chunks st = assign_entries entries m.
Proof.
  induction fuel as [|fuel IH]; intros o stop m vis st.
  - cbn [parseRIFF_fuel]. destruct (o <? stop); [done|]. intros [= <-].
    exists [], []. simpl. by rewrite app_nil_r.
  - rewrite parseRIFF_fuel_S. destruct (o <? stop).
    2:{ intros [= <-]. exists [], []. simpl. by rewrite app_nil_r. }
    destruct (readChunk view o) as [c|e]; [|done].
    destruct (is_container (chunk_id c)) eqn:Hc.
    + destruct (readString view (chunk_offset c) 4) as [formType|e] eqn:Hs; [|done].
      destruct (parseRIFF_fuel fuel view (chunk_offset c + 4) (chunk_end c) ∅ [])
        as [[sub|e]|] eqn:Hsub; [|done..].
      intros (cs & entries & Hv & Hf & Hm)%IH.
      exists (c :: cs), ((formType, Form (loop_chunks sub)) :: entries). split_and!.
      * by rewrite Hv, <- app_assoc.
      * constructor; [|done]. unfold chunk_entry, parseRIFF.
        by rewrite Hc, Hs, (parseRIFF_fuel_stable _ _ _ _ _ Hsub).
      * done.
    + intros (cs & entries & Hv & Hf & Hm)%IH.
      exists (c :: cs), ((chunk_id c, Leaf (chunk_offset c) (chunk_size c)) :: entries).
      split_and!.
      * by rewrite Hv, <- app_assoc.
      * constructor; [|done]. unfold chunk_entry. by rewrite Hc.
      * done.
Qed.

Lemma assign_entries_notin entries : ∀ m k,
  k ∉ entries.*1 → assign_entries entries m !! k = m !! k.
Proof.
  induction entries as [|[k' v] entries IH]; intros m k Hk; [done|].
  cbn in Hk. apply not_elem_of_cons in Hk as [Hne Hk].
  unfold assign_entries. cbn [fold_left]. fold (assign_entries entries (<[k' := v]> m)).
  rewrite IH by done. by apply lookup_insert_ne.
Qed.

(** [parseRIFF] stores one entry per sibling chunk, in file order: a leaf
    under its tag, a [RIFF] or [LIST] container under its form type with
    the mapping of its own children.  A later chunk replaces an earlier
    one stored under the same key, so each key holds its last chunk. *)
Theorem parseRIFF_entries view o stop st :
  parseRIFF_loop view o stop = Ok st →
  ∃ entries,
    Forall2 (λ c e, chunk_entry view c = Ok e) (loop_visited st) entries ∧
    loop_chunks st = assign_entries entries ∅ ∧
    (∀ k, k ∉ entries.*1 → loop_chunks st !! k = None) ∧
    (∀ pre k v post, entries = pre ++ (k, v) :: post → k ∉ post.*1 →
       loop_chunks st !! k = Some v).
Proof.
  intros Hst. pose proof (parseRIFF_fuel_enough view o stop) as H.
  rewrite Hst in H. apply parseRIFF_fuel_entries in H as (cs & entries & Hv & Hf & Hm).
  simpl in Hv. subst cs. exists entries. split_and!; [done..| |].
  - intros k Hk. by rewrite Hm, assign_entries_notin.
  - intros pre k v post -> Hk. rewrite Hm. unfold assign_entries.
    rewrite fold_left_app. cbn [fold_left].
    match goal with
    | |- fold_left _ post ?m0 !! k = _ =>
        change (assign_entries post m0 !! k = Some v)
    end.
    rewrite assign_entries_notin by done. apply lookup_insert_eq.
Qed.

Lemma parseRIFF_entries_witness :
  ∃ entries,
    Forall2 (λ c e, chunk_entry duplicate_tags c = Ok e)
      [mkChunk "data" 2 8 10; mkChunk "data" 4 18 22] entries ∧
    ({[ "data"%string := Leaf 18 4 ]} : gmap string ChunkNode) !! "data"%string =
      Some (Leaf 18 4).
Proof.
  destruct (parseRIFF_entries duplicate_tags 0 22
              (mkRiffLoop {[ "data"%string := Leaf 18 4 ]}
                 [mkChunk "data" 2 8 10; mkChunk "data" 4 18 22] 22))
    as (entries & Hf & _ & _ & Hlast); [reflexivity|].
  exists entries. split; [exact Hf|].
  apply Forall2_cons_inv_l in Hf as (e1 & es & He1 & Hf & ->).
  apply Forall2_cons_inv_l in Hf as (e2 & es' & He2 & Hf & ->).
  apply Forall2_nil_inv_l in Hf as ->.
  injection He2 as <-.
  apply (Hlast [e1] "data"%string (Leaf 18 4) []); [reflexivity|].
  apply not_elem_of_nil.
Defined.

(** ** The bytes of a variable-length quantity *)

Lemma shl32_7_range v x : 0 ≤ x < 128 → - 2 ^ 31 ≤ shl32 v 7 + x < 2 ^ 31.
Proof.
  intros Hx. unfold shl32. generalize (ToInt32 v). intros y.
  rewrite Z.shiftl_mul_pow2 by lia. unfold ToInt32, to_signed.
  change (2 ^ 32) with (2 ^ 25 * 2 ^ 7). rewrite Z.mul_mod_distr_r by lia.
  pose proof (Z.mod_pos_bound y (2 ^ 25) ltac:(lia)) as Hk.
  generalize dependent (y `mod` 2 ^ 25). intros k Hk.
  change (2 ^ (32 - 1)) with 2147483648. change (2 ^ 25) with 33554432 in *.
  change (2 ^ 7) with 128. change (2 ^ 31) with 2147483648.
  destruct (Z.ltb_spec (k * 128) 2147483648); lia.
Qed.

Lemma readVLQ_fuel_bytes view off : ∀ fuel v b r,
  readVLQ_fuel fuel view off v b = Some (Ok r) →
  b < bytes r ∧ 0 ≤ off + b ∧ off + bytes r ≤ byteLength view ∧
  (∀ i, b ≤ i < bytes r - 1 → ∃ x, getUint8 view (off + i) = Ok x ∧ 128 ≤ x) ∧
  (∃ x, getUint8 view (off + (bytes r - 1)) = Ok x ∧ x < 128) ∧
  - 2 ^ 31 ≤ value r < 2 ^ 31.
Proof.
  induction fuel as [|fuel IH]; intros v b r; [done|]. cbn [readVLQ_fuel].
  destruct (getUint8 view (off + b)) as [x|] eqn:E; [|done].
  pose proof (getUint8_Ok _ _ _ E) as [Hoff Hx].
  rewrite land_128 by done. destruct (Z.ltb_spec x 128) as [Hlt|Hge].
  - intros [= <-]. cbn [bytes value].
    assert (0 ≤ Z.land x 127 < 128) as Hr.
    { rewrite land_127 by lia. apply Z.mod_pos_bound. lia. }
    pose proof (shl32_7_range v _ Hr).
    split_and!; try lia.
    exists x. by replace (b + 1 - 1) with b by lia.
  - intros (Hb & _ & Hend & Hcont & Hlast & Hval)%IH.
    split; [lia|]. split; [lia|]. split; [lia|]. split; [|done].
    intros i Hi. destruct (Z.eq_dec i b) as [->|Hne]; [by exists x|].
    apply Hcont. lia.
Qed.

Lemma readVLQ_fuel_Throw view off : ∀ fuel v b e,
  readVLQ_fuel fuel view off v b = Some (Throw e) → e = RangeError.
Proof.
  induction fuel as [|fuel IH]; intros v b e; [done|]. cbn [readVLQ_fuel].
  destruct (getUint8 view (off + b)) as [x|e'] eqn:E.
  - destruct (Z.land x 128 =? 0); [done|]. apply IH.
  - intros [= <-]. by apply getUint8_Throw in E.
Qed.

(** [readVLQ] consumes the bytes from [off] up to and including the first
    one below 128: at least one byte, all inside the buffer, every byte but
    the last having its high bit set.  The value it returns is a 32-bit
    signed integer.  When no byte below 128 is left in the buffer the
    read runs off its end and throws [RangeError], the only exception. *)
Theorem readVLQ_bytes view off :
  (∀ r, readVLQ view off = Ok r →
     1 ≤ bytes r ∧ 0 ≤ off ∧ off + bytes r ≤ byteLength view ∧
     (∀ i, 0 ≤ i < bytes r - 1 → ∃ x, getUint8 view (off + i) = Ok x ∧ 128 ≤ x) ∧
     (∃ x, getUint8 view (off + (bytes r - 1)) = Ok x ∧ x < 128) ∧
     - 2 ^ 31 ≤ value r < 2 ^ 31) ∧
  (∀ e, readVLQ view off = Throw e → e = RangeError) ∧
  ((∀ i, off ≤ i < byteLength view → ∃ x, getUint8 view i = Ok x ∧ 128 ≤ x) →
   readVLQ view off = Throw RangeError).
Proof.
  assert (Hok : ∀ r, readVLQ view off = Ok r →
     1 ≤ bytes r ∧ 0 ≤ off ∧ off + bytes r ≤ byteLength view ∧
     (∀ i, 0 ≤ i < bytes r - 1 → ∃ x, getUint8 view (off + i) = Ok x ∧ 128 ≤ x) ∧
     (∃ x, getUint8 view (off + (bytes r - 1)) = Ok x ∧ x < 128) ∧
     - 2 ^ 31 ≤ value r < 2 ^ 31).
  { intros r Hr. pose proof (readVLQ_fuel_enough view off) as Hf. rewrite Hr in Hf.
    apply readVLQ_fuel_bytes in Hf as (? & ? & ? & Hcont & ? & ?).
    split; [lia|]. split; [lia|]. split; [lia|]. split; [|done].
    intros i Hi. apply Hcont. lia. }
  assert (Hthrow : ∀ e, readVLQ view off = Throw e → e = RangeError).
  { intros e He. pose proof (readVLQ_fuel_enough view off) as Hf. rewrite He in Hf.
    by apply readVLQ_fuel_Throw in Hf. }
  split; [done|]. split; [done|].
  intros Hall. destruct (readVLQ view off) as [r|e] eqn:Hr.
  - destruct (Hok r eq_refl) as (Hb & Ho & Hend & _ & (x & Hx & Hlt) & _).
    destruct (Hall (off + (bytes r - 1))) as (x' & Hx' & Hge); [lia|].
    rewrite Hx in Hx'. injection Hx' as <-. lia.
  - by rewrite (Hthrow e eq_refl).
Qed.

Lemma readVLQ_bytes_witness :
  (∃ x, getUint8 [b8 0x81; b8 0x00] (0 + (2 - 1)) = Ok x ∧ x < 128) ∧
  readVLQ [b8 0x81; b8 0x80] 0 = Throw RangeError.
Proof.
  split.
  - apply (proj1 (readVLQ_bytes [b8 0x81; b8 0x00] 0) (mkVLQ 128 2)). reflexivity.
  - apply (proj2 (proj2 (readVLQ_bytes [b8 0x81; b8 0x80] 0))).
    intros i Hi. change (byteLength [b8 129; b8 128]) with 2 in Hi.
    destruct (Z.eq_dec i 0) as [->|Hne]; [exists 129; split; [reflexivity|lia]|].
    assert (i = 1) as -> by lia. exists 128. split; [reflexivity|lia].
Defined.

(** ** Sample headers *)

Lemma Qceiling_records (w : positive) size :
  Qceiling (size # w) = (size + (Z.pos w - 1)) `div` Z.pos w.
Proof.
  unfold Qceiling, Qfloor, Qopp. cbn [Qnum Qden].
  apply (Z.div_unique _ _ _ (Z.pos w - 1 - (- size) `mod` Z.pos w)).
  - left. pose proof (Z.mod_pos_bound (- size) (Z.pos w) ltac:(lia)). lia.
  - pose proof (Z.div_mod (- size) (Z.pos w) ltac:(lia)). lia.
Qed.

(** The sample table gets one [Sample] for every 46-byte record of the
    [shdr] chunk, the terminal record included (the instrument and preset
    loops stop one record earlier), and one more for a trailing partial
    record.  Sample [i] holds the ten fields of record [i]. *)
Theorem parse_samples_records view dataOffset size ss :
  0 ≤ size →
  parse_samples view dataOffset size = Ok ss →
  Z.of_nat (length ss) = (size + 45) `div` 46 ∧
  (∀ n, size = 46 * n → Z.of_nat (length ss) = n) ∧
  ∀ i s, ss !! i = Some s →
    let off := dataOffset + Z.of_nat i * 46 in
    readString view off 20 = Ok (sampleName s) ∧
    getUint32 view (off + 20) true = Ok (start s) ∧
    getUint32 view (off + 24) true = Ok (end_ s) ∧
    getUint32 view (off + 28) true = Ok (startLoop s) ∧
    getUint32 view (off + 32) true = Ok (endLoop s) ∧
    getUint32 view (off + 36) true = Ok (sampleRate s) ∧
    getUint8 view (off + 40) = Ok (originalKey s) ∧
    getInt8 view (off + 41) = Ok (correction s) ∧
    getUint16 view (off + 42) true = Ok (sampleLink s) ∧
    getUint16 view (off + 44) true = Ok (sampleType s).
Proof.
  intros Hsize H. unfold parse_samples, for_lt_Q in H.
  rewrite (Qceiling_records 46) in H. change (Z.pos 46 - 1) with 45 in H.
  change (Z.pos 46) with 46 in H. apply mapM_Ok in H.
  assert (Hlen : Z.of_nat (length ss) = (size + 45) `div` 46).
  { apply Forall2_length in H. rewrite <- H, length_for_lt.
    rewrite Z2Nat.id; [done|]. apply Z.div_pos; lia. }
  split; [done|]. split.
  - intros n ->. rewrite Hlen. symmetry. apply (Z.div_unique _ _ _ 45); lia.
  - intros i s Hs off.
    destruct (Forall2_lookup_r _ _ _ _ _ H Hs) as (x & Hx & Hbody).
    apply lookup_for_lt in Hx as ->. fold off in Hbody.
    apply bind_Ok in Hbody as (name & Hname & Hbody).
    apply bind_Ok in Hbody as (v1 & H1 & Hbody).
    apply bind_Ok in Hbody as (v2 & H2 & Hbody).
    apply bind_Ok in Hbody as (v3 & H3 & Hbody).
    apply bind_Ok in Hbody as (v4 & H4 & Hbody).
    apply bind_Ok in Hbody as (v5 & H5 & Hbody).
    apply bind_Ok in Hbody as (v6 & H6 & Hbody).
    apply bind_Ok in Hbody as (v7 & H7 & Hbody).
    apply bind_Ok in Hbody as (v8 & H8 & Hbody).
    apply bind_Ok in Hbody as (v9 & H9 & [= <-]).
    cbn [sampleName start end_ startLoop endLoop sampleRate originalKey correction
         sampleLink sampleType].
    by split_and!.
Qed.

Lemma parse_samples_records_witness :
  Z.of_nat (length [example_sample]) = (46 + 45) `div` 46.
Proof.
  destruct (parse_samples_records (shdr_bytes example_sample) 0 46 [example_sample])
    as [H _]; [lia | reflexivity | exact H].
Defined.

(** ** Zone fields *)

Lemma last_amount_snoc k gens g :
  last_amount k (gens ++ [g]) =
    if decide (op g = k) then Some (amount g) else last_amount k gens.
Proof.
  unfold last_amount. rewrite filter_app, filter_cons, filter_nil.
  destruct (decide (op g = k)).
  - by rewrite last_snoc.
  - by rewrite app_nil_r.
Qed.

Lemma inst_zone_fold all gens :
  let z := fold_left inst_zone_gen gens (new_Zone all) in
  generators z = all ∧
  keyRange z = range_or_default (last_amount 43 gens) ∧
  velRange z = range_or_default (last_amount 44 gens) ∧
  sampleID z = last_amount 53 gens ∧
  instrumentID z = None.
Proof.
  induction gens as [|g gens IH] using rev_ind; [done|].
  rewrite fold_left_app. cbn [fold_left]. cbn zeta in IH.
  destruct IH as (Hg & Hk & Hv & Hs & Hi).
  rewrite !last_amount_snoc. unfold inst_zone_gen.
  destruct (Z.eqb_spec (op g) 43) as [E1|E1];
    destruct (Z.eqb_spec (op g) 44) as [E2|E2];
    destruct (Z.eqb_spec (op g) 53) as [E3|E3]; try lia;
    repeat (destruct (decide _) as [?|?]; try lia);
    cbn [generators keyRange velRange sampleID instrumentID]; done.
Qed.

Lemma preset_zone_fold all gens :
  let z := fold_left preset_zone_gen gens (new_Zone all) in
  generators z = all ∧
  keyRange z = range_or_default (last_amount 43 gens) ∧
  velRange z = range_or_default (last_amount 44 gens) ∧
  sampleID z = None ∧
  instrumentID z = last_amount 41 gens.
Proof.
  induction gens as [|g gens IH] using rev_ind; [done|].
  rewrite fold_left_app. cbn [fold_left]. cbn zeta in IH.
  destruct IH as (Hg & Hk & Hv & Hs & Hi).
  rewrite !last_amount_snoc. unfold preset_zone_gen.
  destruct (Z.eqb_spec (op g) 43) as [E1|E1];
    destruct (Z.eqb_spec (op g) 44) as [E2|E2];
    destruct (Z.eqb_spec (op g) 41) as [E3|E3]; try lia;
    repeat (destruct (decide _) as [?|?]; try lia);
    cbn [generators keyRange velRange sampleID instrumentID]; done.
Qed.

Lemma parse_generators_read view gen genNdx numGens gens :
  parse_generators view gen genNdx numGens = Ok gens →
  length gens = Z.to_nat numGens ∧
  ∀ g gn, gens !! g = Some gn →
    ∃ genOff,
      dataOffset_plus gen ((genNdx + Z.of_nat g) * 4) = Ok genOff ∧
      getUint16 view (ToIndex genOff) true = Ok gn.(op) ∧
      getInt16 view (ToIndex (nan_add genOff 2)) true = Ok gn.(amount).
Proof.
  intros H. apply mapM_Ok in H. split.
  - apply Forall2_length in H. by rewrite <- H, length_for_lt.
  - intros g gn Hg.
    destruct (Forall2_lookup_r _ _ _ _ _ H Hg) as (x & Hx & Hbody).
    apply lookup_for_lt in Hx as ->.
    apply bind_Ok in Hbody as (genOff & Hoff & Hbody).
    apply bind_Ok in Hbody as (o & Hop & Hbody).
    apply bind_Ok in Hbody as (a & Ham & [= <-]).
    exists genOff. done.
Qed.

Lemma parse_zones_read view bag gen zone_gen bagNdx numZones zones :
  parse_zones view bag gen zone_gen bagNdx numZones = Ok zones →
  length zones = Z.to_nat numZones ∧
  ∀ i z, zones !! i = Some z →
    ∃ gens, generators_read view bag gen bagNdx i gens ∧
            z = fold_left zone_gen gens (new_Zone gens).
Proof.
  intros H. apply mapM_Ok in H. split.
  - apply Forall2_length in H. by rewrite <- H, length_for_lt.
  - intros i z Hz.
    destruct (Forall2_lookup_r _ _ _ _ _ H Hz) as (x & Hx & Hbody).
    apply lookup_for_lt in Hx as ->.
    apply bind_Ok in Hbody as (bagOff & Hoff & Hbody).
    apply bind_Ok in Hbody as (genNdx & Hgen & Hbody).
    apply bind_Ok in Hbody as (modNdx & _ & Hbody).
    apply bind_Ok in Hbody as (nextGenNdx & Hnext & Hbody).
    apply bind_Ok in Hbody as (gens & Hgens & [= <-]).
    apply parse_generators_read in Hgens as [Hlen Hrec].
    exists gens. split; [|done]. by exists bagOff, genNdx, nextGenNdx.
Qed.

(** A bag table of [numZones] records is decoded into [numZones] zones.  A
    parsed zone keeps all its generators, in file order: they are the
    records of the generator table between the generator index of its bag
    record and that of the next one.  Its key and velocity ranges are those
    of its last generator 43 and 44, or [0..127]; an instrument zone takes
    its sample index from its last generator 53 and never has an instrument
    index, a preset zone takes its instrument index from its last generator
    41 and never has a sample index; an index without such a generator
    stays [null]. *)
Theorem parsed_zone_fields view bag gen bagNdx numZones zones :
  (parse_zones view bag gen inst_zone_gen bagNdx numZones = Ok zones →
   length zones = Z.to_nat numZones ∧
   ∀ i z, zones !! i = Some z →
     generators_read view bag gen bagNdx i (generators z) ∧
     keyRange z = range_or_default (last_amount 43 (generators z)) ∧
     velRange z = range_or_default (last_amount 44 (generators z)) ∧
     sampleID z = last_amount 53 (generators z) ∧
     instrumentID z = None) ∧
  (parse_zones view bag gen preset_zone_gen bagNdx numZones = Ok zones →
   length zones = Z.to_nat numZones ∧
   ∀ i z, zones !! i = Some z →
     generators_read view bag gen bagNdx i (generators z) ∧
     keyRange z = range_or_default (last_amount 43 (generators z)) ∧
     velRange z = range_or_default (last_amount 44 (generators z)) ∧
     sampleID z = None ∧
     instrumentID z = last_amount 41 (generators z)).
Proof.
  split; intros [Hlen Hz]%parse_zones_read; (split; [exact Hlen|]);
    intros i z (gens & Hread & ->)%Hz.
  - destruct (inst_zone_fold gens gens) as (Hg & Hk & Hv & Hs & Hi).
    rewrite Hg. done.
  - destruct (preset_zone_fold gens gens) as (Hg & Hk & Hv & Hs & Hi).
    rewrite Hg. done.
Qed.

(** The zones of the two example tables: the instrument zone keeps its
    three generators and takes sample 0 from the last of them, the preset
    zone keeps its two and takes instrument 0. *)
Lemma parsed_zone_fields_witness :
  parse_zones example_inst_view (Some (Leaf 44 8)) (Some (Leaf 52 16)) inst_zone_gen 0 1 =
    Ok [example_inst_zone] ∧
  generators_read example_inst_view (Some (Leaf 44 8)) (Some (Leaf 52 16)) 0 0
    [mkGenerator 8 (-2000); mkGenerator 0 10; mkGenerator 53 0] ∧
  sampleID example_inst_zone = Some 0 ∧
  parse_zones example_phdr_view (Some (Leaf 76 8)) (Some (Leaf 84 12)) preset_zone_gen 0 1 =
    Ok [example_preset_zone] ∧
  generators_read example_phdr_view (Some (Leaf 76 8)) (Some (Leaf 84 12)) 0 0
    [mkGenerator 8 (-500); mkGenerator 41 0] ∧
  instrumentID example_preset_zone = Some 0.
Proof.
  destruct (proj1 (parsed_zone_fields example_inst_view (Some (Leaf 44 8))
                     (Some (Leaf 52 16)) 0 1 [example_inst_zone]) eq_refl)
    as [_ Hinst].
  destruct (proj2 (parsed_zone_fields example_phdr_view (Some (Leaf 76 8))
                     (Some (Leaf 84 12)) 0 1 [example_preset_zone]) eq_refl)
    as [_ Hpreset].
  destruct (Hinst 0%nat example_inst_zone eq_refl) as (Hri & _ & _ & Hsi & _).
  destruct (Hpreset 0%nat example_preset_zone eq_refl) as (Hrp & _ & _ & _ & Hip).
  split_and!; [reflexivity | exact Hri | exact Hsi | reflexivity | exact Hrp | exact Hip].
Defined.

(** ** Range generators *)

Lemma getUint16_bytes view o u l h :
  getUint16 view o true = Ok u →
  getUint8 view o = Ok l → getUint8 view (o + 1) = Ok h →
  u = l + 256 * h ∧ 0 ≤ l < 256 ∧ 0 ≤ h < 256.
Proof.
  unfold getUint16, getBytes. intros (bs & Hb & [= <-])%bind_Ok Hl Hh.
  destruct (_ && _) eqn:E; [|done]. injection Hb as <-.
  apply andb_true_iff in E as [E1 _]. apply Z.leb_le in E1.
  pose proof (getUint8_Ok _ _ _ Hl) as [_ Hlr].
  pose proof (getUint8_Ok _ _ _ Hh) as [_ Hhr].
  unfold getUint8 in Hl, Hh.
  destruct (arr_get view o) as [b0|] eqn:E0; [|done].
  destruct (arr_get view (o + 1)) as [b1|] eqn:E1'; [|done].
  injection Hl as <-. injection Hh as <-.
  apply arr_get_Some in E0 as [_ E0]. apply arr_get_Some in E1' as [_ E1'].
  replace (Z.to_nat (o + 1)) with (S (Z.to_nat o)) in E1' by lia.
  rewrite (drop_S _ _ _ E0), (drop_S _ _ _ E1').
  change (uint_val true _) with (byte_val b0 + 256 * (byte_val b1 + 256 * 0)).
  split; [lia|done].
Qed.

Lemma range_of_signed l h :
  0 ≤ l < 256 → 0 ≤ h < 256 →
  range_of_amount (to_signed 16 (l + 256 * h)) = mkRange l h.
Proof.
  intros Hl Hh. unfold range_of_amount, to_signed.
  change 255 with (Z.ones 8). rewrite !Z.land_ones, Z.shiftr_div_pow2 by lia.
  change (2 ^ 8) with 256. change (2 ^ (16 - 1)) with 32768. change (2 ^ 16) with 65536.
  destruct (Z.ltb_spec (l + 256 * h) 32768).
  - assert ((l + 256 * h) `div` 256 = h) as ->
      by (symmetry; apply (Z.div_unique _ _ _ l); lia).
    f_equal.
    + symmetry. apply (Z.mod_unique _ _ h); lia.
    + apply Z.mod_small. lia.
  - assert ((l + 256 * h - 65536) `div` 256 = h - 256) as ->
      by (symmetry; apply (Z.div_unique _ _ _ l); lia).
    f_equal.
    + symmetry. apply (Z.mod_unique _ _ (h - 256)); lia.
    + symmetry. apply (Z.mod_unique _ _ (-1)); lia.
Qed.

(** The amount of a range generator is read as a signed 16-bit number, and
    the range made from it still has the first byte of the amount field as
    [lo] and the second as [hi], also when the second byte is 128 or more
    and the amount negative. *)
Theorem range_of_amount_bytes view o a l h :
  getInt16 view o true = Ok a →
  getUint8 view o = Ok l →
  getUint8 view (o + 1) = Ok h →
  range_of_amount a = mkRange l h ∧ 0 ≤ l < 256 ∧ 0 ≤ h < 256.
Proof.
  unfold getInt16. intros (u & Hu & [= <-])%bind_Ok Hl Hh.
  destruct (getUint16_bytes _ _ _ _ _ Hu Hl Hh) as (-> & Hlr & Hhr).
  split; [by apply range_of_signed | done].
Qed.

Lemma range_of_amount_bytes_witness :
  range_of_amount (-14286) = mkRange 50 200.
Proof.
  apply (range_of_amount_bytes example_range_view 0 (-14286) 50 200); reflexivity.
Defined.

(** ** Sample data *)

Lemma mapM_total {A B} (f : A → result B) l :
  (∀ x, x ∈ l → ∃ y, f x = Ok y) → ∃ r, mapM f l = Ok r.
Proof.
  induction l as [|x l IH]; intros H; [by exists []|].
  destruct (H x) as [y Hy]; [left|].
  destruct IH as [r Hr]; [intros x' Hx'; apply H; by right|].
  exists (y :: r). cbn [mapM]. by rewrite Hy, Hr.
Qed.

Lemma elem_of_for_lt n i : i ∈ for_lt n ↔ 0 ≤ i < n.
Proof.
  unfold for_lt. rewrite list_elem_of_fmap. split.
  - intros (k & -> & Hk). apply elem_of_seq in Hk. lia.
  - intros Hi. exists (Z.to_nat i). split; [lia|]. apply elem_of_seq. lia.
Qed.

Lemma getInt16_in_bounds view o :
  0 ≤ o → o + 2 ≤ byteLength view →
  ∃ x, getInt16 view o true = Ok x.
Proof.
  intros H0 H1. unfold getInt16, getUint16, getBytes.
  destruct (Z.leb_spec 0 o); [|lia].
  destruct (Z.leb_spec (o + Z.of_nat 2) (byteLength view)); [|lia].
  cbn. eauto.
Qed.

Lemma to_signed_16_range u : 0 ≤ u < 65536 → - 32768 ≤ to_signed 16 u < 32768.
Proof.
  intros H. unfold to_signed. change (2 ^ (16 - 1)) with 32768.
  change (2 ^ 16) with 65536. destruct (Z.ltb_spec u 32768); lia.
Qed.

Lemma getUint16_bound view o le v : getUint16 view o le = Ok v → 0 ≤ v < 65536.
Proof.
  unfold getUint16, getBytes. intros (bs & Hb & [= <-])%bind_Ok.
  destruct (_ && _) eqn:E; [|done]. injection Hb as <-.
  apply andb_true_iff in E as [E1 E2]. apply Z.leb_le in E1, E2.
  unfold byteLength in E2.
  set (bs := byte_val <$> take 2 (drop (Z.to_nat o) view)).
  assert (Hlen : length bs = 2%nat).
  { unfold bs. rewrite length_fmap, length_take, length_drop. lia. }
  assert (Hall : Forall (λ b, 0 ≤ b < 256) bs).
  { apply Forall_fmap, Forall_true. intros b. apply byte_val_range. }
  unfold uint_val. destruct le.
  - pose proof (le_val_bound bs Hall) as H. rewrite Hlen in H. exact H.
  - pose proof (le_val_bound (reverse bs) (proj2 (Forall_reverse _ _) Hall)) as H.
    rewrite length_reverse, Hlen in H. exact H.
Qed.

(** The sample data of a bank is built exactly when the [smpl] chunk starts
    at an even offset and [floor (size / 2)] 16-bit words fit between its
    start and the end of the buffer; it then holds that many signed words,
    an odd last byte being dropped.  In every other case the constructor
    throws [RangeError]. *)
Theorem Int16Array_spec view dataOffset size :
  0 ≤ dataOffset → 0 ≤ size →
  (dataOffset `mod` 2 = 0 ∧ dataOffset + 2 * (size `div` 2) ≤ byteLength view →
   ∃ d, Int16Array view dataOffset size = Ok d ∧
        Z.of_nat (length d) = size `div` 2 ∧
        ∀ i x, d !! i = Some x →
          getInt16 view (dataOffset + 2 * Z.of_nat i) true = Ok x ∧
          - 32768 ≤ x < 32768) ∧
  (¬ (dataOffset `mod` 2 = 0 ∧ dataOffset + 2 * (size `div` 2) ≤ byteLength view) →
   Int16Array view dataOffset size = Throw RangeError).
Proof.
  intros Ho Hs. assert (0 ≤ size `div` 2) as Hlen by (apply Z.div_pos; lia).
  unfold Int16Array. split.
  - intros [Heven Hfit].
    destruct (Z.eqb_spec (dataOffset `mod` 2) 0) as [_|?]; [|done]. cbn [negb].
    destruct (Z.ltb_spec (byteLength view) (dataOffset + 2 * size `div` 2)); [lia|].
    destruct (mapM_total (λ i, getInt16 view (dataOffset + 2 * i) true)
                (for_lt (size `div` 2))) as [d Hd].
    { intros i Hi%elem_of_for_lt. apply getInt16_in_bounds; lia. }
    exists d. split; [done|]. apply mapM_Ok in Hd. split.
    + apply Forall2_length in Hd. rewrite <- Hd, length_for_lt. lia.
    + intros i x Hx.
      destruct (Forall2_lookup_r _ _ _ _ _ Hd Hx) as (j & Hj & Hbody).
      apply lookup_for_lt in Hj as ->. split; [done|].
      unfold getInt16 in Hbody. apply bind_Ok in Hbody as (u & Hu & [= <-]).
      apply to_signed_16_range. by apply getUint16_bound in Hu.
  - intros Hno.
    destruct (Z.eqb_spec (dataOffset `mod` 2) 0) as [Heven|?]; [|done]. cbn [negb].
    destruct (Z.ltb_spec (byteLength view) (dataOffset + 2 * size `div` 2)); [done|].
    destruct Hno. split; [done|lia].
Qed.

Lemma Int16Array_spec_witness :
  (∃ d, Int16Array example_range_view 2 3 = Ok d ∧
        Z.of_nat (length d) = 3 `div` 2 ∧
        ∀ i x, d !! i = Some x →
          getInt16 example_range_view (2 + 2 * Z.of_nat i) true = Ok x ∧
          - 32768 ≤ x < 32768) ∧
  Int16Array example_range_view 2 6 = Throw RangeError.
Proof.
  split.
  - apply (proj1 (Int16Array_spec example_range_view 2 3 ltac:(lia) ltac:(lia))).
    split; [reflexivity|]. vm_compute. discriminate.
  - apply (proj2 (Int16Array_spec example_range_view 2 6 ltac:(lia) ltac:(lia))).
    intros [_ H]. vm_compute in H. by apply H.
Defined.

(** ** Exceptions of the SoundFont parser *)

Lemma mapM_Throw {A B} (f : A → result B) l e :
  mapM f l = Throw e → ∃ x, x ∈ l ∧ f x = Throw e.
Proof.
  induction l as [|x l IH]; [done|]. cbn [mapM].
  intros [H | (y & _ & H)]%bind_Throw.
  - exists x. split; [left | done].
  - apply bind_Throw in H as [H | (ys & _ & H)]; [|done].
    destruct (IH H) as (x' & Hx' & Hf). exists x'. split; [by right | done].
Qed.

Lemma getUint16_Throw view o le e : getUint16 view o le = Throw e → e = RangeError.
Proof.
  unfold getUint16. intros [H | (bs & _ & H)]%bind_Throw; [|done].
  by apply getBytes_Throw in H.
Qed.

Lemma getInt16_Throw view o le e : getInt16 view o le = Throw e → e = RangeError.
Proof.
  unfold getInt16. intros [H | (u & _ & H)]%bind_Throw; [|done].
  by apply getUint16_Throw in H.
Qed.

Lemma getInt8_Throw view o e : getInt8 view o = Throw e → e = RangeError.
Proof.
  unfold getInt8. intros [H | (u & _ & H)]%bind_Throw; [|done].
  by apply getUint8_Throw in H.
Qed.

Lemma child_Throw node key e : child node key = Throw e → e = TypeError.
Proof. destruct node as [[]|]; simpl; congruence. Qed.

Lemma dataOffset_plus_Throw tbl d e : dataOffset_plus tbl d = Throw e → e = TypeError.
Proof. destruct tbl as [[]|]; simpl; congruence. Qed.

(** Splits a failed sequence of reads into the read that failed. *)
Ltac failed_read H :=
  cbn beta in H;
  repeat (lazymatch type of H with
          | _ ≫= _ = Throw _ =>
              apply bind_Throw in H as [H | (? & _ & H)]; [|cbn beta in H]
          end);
  first
    [ discriminate H
    | apply getUint8_Throw in H | apply getInt8_Throw in H
    | apply getUint16_Throw in H | apply getInt16_Throw in H
    | apply getUint32_Throw in H | apply readString_Throw in H
    | apply child_Throw in H | apply dataOffset_plus_Throw in H ];
  subst; first [by left | by right].

Lemma parse_generators_Throw view gen genNdx numGens e :
  parse_generators view gen genNdx numGens = Throw e → access_error e.
Proof.
  unfold parse_generators. intros (g & _ & H)%mapM_Throw. failed_read H.
Qed.

Lemma parse_zones_Throw view bag gen zone_gen bagNdx numZones e :
  parse_zones view bag gen zone_gen bagNdx numZones = Throw e → access_error e.
Proof.
  unfold parse_zones. intros (z & _ & H)%mapM_Throw.
  apply bind_Throw in H as [H | (? & _ & H)]; [failed_read H|].
  apply bind_Throw in H as [H | (? & _ & H)]; [failed_read H|].
  apply bind_Throw in H as [H | (? & _ & H)]; [failed_read H|].
  apply bind_Throw in H as [H | (? & _ & H)]; [failed_read H|].
  apply bind_Throw in H as [H | (? & _ & H)]; [|done].
  by apply parse_generators_Throw in H.
Qed.

Lemma parse_samples_Throw view dataOffset size e :
  parse_samples view dataOffset size = Throw e → access_error e.
Proof.
  unfold parse_samples. intros (i & _ & H)%mapM_Throw. cbn zeta in H. failed_read H.
Qed.

Lemma parse_instruments_Throw view dataOffset size ibag igen e :
  parse_instruments view dataOffset size ibag igen = Throw e → access_error e.
Proof.
  unfold parse_instruments. intros (i & _ & H)%mapM_Throw. cbn zeta in H.
  apply bind_Throw in H as [H | (? & _ & H)]; [failed_read H|].
  apply bind_Throw in H as [H | (? & _ & H)]; [failed_read H|].
  apply bind_Throw in H as [H | (? & _ & H)]; [failed_read H|].
  apply bind_Throw in H as [H | (? & _ & H)]; [|done].
  by apply parse_zones_Throw in H.
Qed.

Lemma parse_presets_Throw view dataOffset size pbag pgen e :
  parse_presets view dataOffset size pbag pgen = Throw e → access_error e.
Proof.
  unfold parse_presets. intros (i & _ & H)%mapM_Throw. cbn zeta in H.
  apply bind_Throw in H as [H | (? & _ & H)]; [failed_read H|].
  apply bind_Throw in H as [H | (? & _ & H)]; [failed_read H|].
  apply bind_Throw in H as [H | (? & _ & H)]; [failed_read H|].
  apply bind_Throw in H as [H | (? & _ & H)]; [failed_read H|].
  apply bind_Throw in H as [H | (? & _ & H)]; [failed_read H|].
  apply bind_Throw in H as [H | (? & _ & H)]; [|done].
  by apply parse_zones_Throw in H.
Qed.

Lemma with_table_Throw {A} tbl (k : Z → Z → result (list A)) e :
  (∀ o s, k o s = Throw e → access_error e) →
  with_table tbl k = Throw e → access_error e.
Proof.
  intros Hk. destruct tbl as [[o s|m]|]; simpl; [apply Hk|done|].
  intros [= <-]. by right.
Qed.

Lemma Int16Array_Throw view dataOffset size e :
  Int16Array view dataOffset size = Throw e → e = RangeError.
Proof.
  unfold Int16Array. destruct (negb _); [congruence|].
  destruct (_ <? _); [congruence|].
  intros (i & _ & H)%mapM_Throw. by apply getInt16_Throw in H.
Qed.

Lemma parse_Throw view riff sfbk e :
  riff !! "sfbk"%string = Some sfbk → parse view riff = Throw e → access_error e.
Proof.
  intros Hs. unfold parse. rewrite Hs. intros H.
  apply bind_Throw in H as [H | (sdta & _ & H)]; [failed_read H|].
  apply bind_Throw in H as [H | (smpl & _ & H)]; [failed_read H|].
  apply bind_Throw in H as [H | (sampleData & _ & H)].
  { destruct smpl as [[o s|m]|]; [|done..].
    apply bind_Throw in H as [H | (? & _ & H)]; [|done].
    left. by apply Int16Array_Throw in H. }
  apply bind_Throw in H as [H | (pdta & _ & H)]; [failed_read H|].
  apply bind_Throw in H as [H | (shdr & _ & H)]; [failed_read H|].
  apply bind_Throw in H as [H | (ss & _ & H)].
  { revert H. apply with_table_Throw. intros o s. apply parse_samples_Throw. }
  apply bind_Throw in H as [H | (inst & _ & H)]; [failed_read H|].
  apply bind_Throw in H as [H | (ibag & _ & H)]; [failed_read H|].
  apply bind_Throw in H as [H | (igen & _ & H)]; [failed_read H|].
  apply bind_Throw in H as [H | (insts & _ & H)].
  { revert H. apply with_table_Throw. intros o s. apply parse_instruments_Throw. }
  apply bind_Throw in H as [H | (phdr & _ & H)]; [failed_read H|].
  apply bind_Throw in H as [H | (pbag & _ & H)]; [failed_read H|].
  apply bind_Throw in H as [H | (pgen & _ & H)]; [failed_read H|].
  apply bind_Throw in H as [H | (ps & _ & H)]; [|done].
  revert H. apply with_table_Throw. intros o s. apply parse_presets_Throw.
Qed.

(** [new SoundFontParser] throws the error [Not a valid SF2 file] exactly
    when the buffer parses as RIFF and its top level has no [sfbk] entry.
    Every other failure is a [RangeError] of a read outside the buffer or a
    [TypeError] of a missing chunk: a file with an [sfbk] form is never
    rejected as invalid, whatever else it lacks. *)
Theorem new_SoundFontParser_errors view :
  (∀ e, new_SoundFontParser view = Throw e →
     e = Error "Not a valid SF2 file" ∨ access_error e) ∧
  (new_SoundFontParser view = Throw (Error "Not a valid SF2 file") ↔
   ∃ riff, parseRIFF view 0 (byteLength view) = Ok riff ∧ riff !! "sfbk"%string = None).
Proof.
  unfold new_SoundFontParser.
  assert (Hriff : ∀ e, parseRIFF view 0 (byteLength view) = Throw e → e = RangeError).
  { unfold parseRIFF. intros e [H | (st & _ & H)]%bind_Throw; [|done].
    pose proof (parseRIFF_loop_spec view 0 (byteLength view)) as Hs.
    by rewrite H in Hs. }
  split.
  - intros e [H | (riff & _ & H)]%bind_Throw.
    + right. left. by apply Hriff.
    + destruct (riff !! "sfbk"%string) as [sfbk|] eqn:Hs.
      * right. by eapply parse_Throw.
      * left. unfold parse in H. rewrite Hs in H. congruence.
  - split.
    + intros [H | (riff & Hr & H)]%bind_Throw; [by apply Hriff in H|].
      exists riff. split; [done|].
      destruct (riff !! "sfbk"%string) as [sfbk|] eqn:Hs; [|done].
      apply (parse_Throw _ _ _ _ Hs) in H as [?|?]; done.
    + intros (riff & -> & Hs). cbn [mbind result_bind]. unfold parse. by rewrite Hs.
Qed.

Lemma new_SoundFontParser_errors_witness :
  new_SoundFontParser oversized_leaf = Throw (Error "Not a valid SF2 file").
Proof.
  apply (proj2 (new_SoundFontParser_errors oversized_leaf)).
  exists {[ "data"%string := Leaf 8 100 ]}. split; reflexivity.
Defined.

(** ** Parsed MIDI events *)

Lemma readVLQ_value_range view off r :
  readVLQ view off = Ok r → - 2 ^ 31 ≤ value r < 2 ^ 31.
Proof.
  intros Hr. pose proof (readVLQ_fuel_enough view off) as Hf. rewrite Hr in Hf.
  by apply readVLQ_fuel_bytes in Hf as (_ & _ & _ & _ & _ & ?).
Qed.

Lemma read_data_bytes view off len data :
  read_data view off len = Ok data → Forall (λ b, 0 ≤ b < 256) data.
Proof.
  unfold read_data. destruct (len <? 0); [done|]. intros H%mapM_Ok.
  apply Forall_lookup. intros i b Hb.
  destruct (Forall2_lookup_r _ _ _ _ _ H Hb) as (j & _ & Hj).
  by apply getUint8_Ok in Hj as [_ ?].
Qed.

Lemma nibbles st :
  0 ≤ st < 256 → 0 ≤ Z.land st 15 < 16 ∧ 0 ≤ Z.shiftr st 4 < 16.
Proof.
  intros Hst. change 15 with (Z.ones 4).
  rewrite Z.land_ones, Z.shiftr_div_pow2 by lia. change (2 ^ 4) with 16. split.
  - apply Z.mod_pos_bound. lia.
  - split; [apply Z.div_pos; lia | apply Z.div_lt_upper_bound; lia].
Qed.

Lemma read_event_wf view off rs ev off' rs' :
  0 ≤ rs < 256 →
  read_event view off rs = Ok (ev, off', rs') →
  event_wf ev ∧ rs' = status ev ∧
  ∃ d b, readVLQ view off = Ok d ∧ getUint8 view (off + bytes d) = Ok b ∧
         status ev = if b <? 0x80 then rs else b.
Proof.
  intros Hrs. unfold read_event. intros (d & Hd & H)%bind_Ok.
  apply bind_Ok in H as (st & Hst & H).
  pose proof (readVLQ_value_range _ _ _ Hd) as Hdelta.
  pose proof (getUint8_Ok _ _ _ Hst) as [_ Hstr].
  assert (∃ o s, 0 ≤ s < 256 ∧ s = (if st <? 128 then rs else st) ∧
            (if st <? 128 then (off + bytes d + 1 - 1, rs, rs)
             else (off + bytes d + 1, st, st)) = (o, s, s))
    as (o & s & Hs & Hsv & Heq).
  { destruct (st <? 128); eauto 10. }
  rewrite Heq in H. clear Heq.
  pose proof (nibbles s Hs) as [Hch Hty].
  assert (Hgoal : ∀ b, body ev = b → status ev = s → delta ev = value d →
            rs' = s →
            match b with
            | Meta metaType data =>
                s = 0xFF ∧ 0 ≤ metaType < 256 ∧ Forall (λ b, 0 ≤ b < 256) data
            | Sysex data =>
                (s = 0xF0 ∨ s = 0xF7) ∧ Forall (λ b, 0 ≤ b < 256) data
            | Channel1 channel type param1 =>
                channel = Z.land s 0x0F ∧
                Z.shiftr s 4 =
                  match type with ProgramChange => 0xC | ChannelPressure => 0xD end ∧
                0 ≤ channel < 16 ∧ 0 ≤ param1 < 256
            | Channel2 channel type param1 param2 =>
                channel = Z.land s 0x0F ∧ type = Z.shiftr s 4 ∧
                0 ≤ channel < 16 ∧ 0 ≤ type < 16 ∧ type ≠ 0xC ∧ type ≠ 0xD ∧
                s ≠ 0xFF ∧ s ≠ 0xF0 ∧ s ≠ 0xF7 ∧
                0 ≤ param1 < 256 ∧ 0 ≤ param2 < 256
            end →
            event_wf ev ∧ rs' = status ev ∧
            ∃ d b, readVLQ view off = Ok d ∧ getUint8 view (off + bytes d) = Ok b ∧
                   status ev = if b <? 0x80 then rs else b).
  { intros b Hb Hstat Hdel Hrs' Hshape. split; [|split].
    - unfold event_wf. rewrite Hb, Hstat, Hdel. done.
    - congruence.
    - exists d, st. rewrite Hstat. done. }
  destruct (Z.eqb_spec s 255) as [E255|E255].
  { apply bind_Ok in H as (type & Htype & H).
    apply bind_Ok in H as (len & Hlen & H).
    apply bind_Ok in H as (data & Hdata & [= <- _ <-]).
    apply (Hgoal _ eq_refl); [done..|].
    apply getUint8_Ok in Htype as [_ ?]. apply read_data_bytes in Hdata. done. }
  destruct (Z.eqb_spec s 240) as [E240|E240].
  { apply bind_Ok in H as (len & Hlen & H).
    apply bind_Ok in H as (data & Hdata & [= <- _ <-]).
    apply (Hgoal _ eq_refl); [done..|].
    apply read_data_bytes in Hdata. split; [by left | done]. }
  destruct (Z.eqb_spec s 247) as [E247|E247].
  { apply bind_Ok in H as (len & Hlen & H).
    apply bind_Ok in H as (data & Hdata & [= <- _ <-]).
    apply (Hgoal _ eq_refl); [done..|].
    apply read_data_bytes in Hdata. split; [by right | done]. }
  cbn [orb] in H. cbv zeta in H.
  destruct (Z.eqb_spec (Z.shiftr s 4) 12) as [E12|E12].
  { apply bind_Ok in H as (p1 & Hp1 & [= <- _ <-]).
    apply (Hgoal _ eq_refl); [done..|].
    apply getUint8_Ok in Hp1 as [_ ?]. done. }
  destruct (Z.eqb_spec (Z.shiftr s 4) 13) as [E13|E13].
  { apply bind_Ok in H as (p1 & Hp1 & [= <- _ <-]).
    apply (Hgoal _ eq_refl); [done..|].
    apply getUint8_Ok in Hp1 as [_ ?]. done. }
  cbn [orb] in H.
  apply bind_Ok in H as (p1 & Hp1 & H).
  apply bind_Ok in H as (p2 & Hp2 & [= <- _ <-]).
  apply (Hgoal _ eq_refl); [done..|].
  apply getUint8_Ok in Hp1 as [_ ?]. apply getUint8_Ok in Hp2 as [_ ?].
  split_and!; first [done | lia].
Qed.

(** After every event the running status equals the status of that event,
    whatever its kind: an event whose first byte after the delta time is
    below [0x80] takes the status of the event before it (0 at the start of
    a track), meta and system-exclusive events included, and that byte is
    read again as its first data byte. *)
Theorem read_event_running_status view off rs ev off' rs' :
  read_event view off rs = Ok (ev, off', rs') →
  rs' = status ev ∧
  ∃ d b, readVLQ view off = Ok d ∧ getUint8 view (off + bytes d) = Ok b ∧
         status ev = (if b <? 0x80 then rs else b) ∧
         (b < 0x80 →
          match body ev with
          | Channel1 _ _ param1 | Channel2 _ _ param1 _ => param1 = b
          | Meta metaType _ => metaType = b
          | Sysex _ => True
          end).
Proof.
  unfold read_event. intros (d & Hd & H)%bind_Ok.
  apply bind_Ok in H as (st & Hst & H).
  destruct (Z.ltb_spec st 128) as [Hlt|Hge]; cbv beta iota zeta in H.
  - replace (off + bytes d + 1 - 1) with (off + bytes d) in H by lia.
    repeat lazymatch type of H with
           | (if ?c then _ else _) = _ => destruct c
           | _ ≫= _ = Ok _ => apply bind_Ok in H as (? & ? & H)
           end;
      injection H as <- _ <-; (split; [done|]);
      exists d, st; (split; [done|]); (split; [done|]);
      destruct (Z.ltb_spec st 128); try lia; (split; [done|]); intros _;
      cbn [body]; first [exact I | congruence].
  - repeat lazymatch type of H with
           | (if ?c then _ else _) = _ => destruct c
           | _ ≫= _ = Ok _ => apply bind_Ok in H as (? & ? & H)
           end;
      injection H as <- _ <-; (split; [done|]);
      exists d, st; (split; [done|]); (split; [done|]);
      destruct (Z.ltb_spec st 128); try lia; (split; [done|]); lia.
Qed.

Lemma read_event_running_status_witness :
  0 = status (mkEvent 0 0 (Channel2 0 0 60 100)).
Proof.
  apply (read_event_running_status (b8 <$> [0; 60; 100]) 0 0
           (mkEvent 0 0 (Channel2 0 0 60 100)) 3 0).
  reflexivity.
Defined.

Lemma read_track_fuel_wf view trackEnd : ∀ fuel off rs track r,
  0 ≤ rs < 256 →
  Forall event_wf track →
  read_track_fuel fuel view off trackEnd rs track = Some (Ok r) →
  Forall event_wf r.
Proof.
  induction fuel as [|fuel IH]; intros off rs track r Hrs Htrack; cbn [read_track_fuel].
  - destruct (off <? trackEnd); [done|]. by intros [= <-].
  - destruct (off <? trackEnd); [|by intros [= <-]].
    destruct (read_event view off rs) as [[[ev off'] rs']|] eqn:E; [|done].
    apply (read_event_wf _ _ _ _ _ _ Hrs) in E as (Hwf & -> & _).
    apply IH; [by destruct Hwf|]. apply Forall_app. split; [done|].
    by apply Forall_singleton.
Qed.

Lemma read_track_wf view off trackEnd track :
  read_track view off trackEnd = Ok track → Forall event_wf track.
Proof.
  intros H. pose proof (read_track_fuel_enough view off trackEnd) as Hf.
  rewrite H in Hf. eapply read_track_fuel_wf; [|constructor|exact Hf]. lia.
Qed.

Lemma parseMIDI_tracks view midi :
  parseMIDI view = Ok midi →
  ∃ ntracks,
    readString view 0 4 = Ok "MThd"%string ∧
    getUint16 view 8 false = Ok (format midi) ∧
    getUint16 view 10 false = Ok ntracks ∧
    getUint16 view 12 false = Ok (division midi) ∧
    length (tracks midi) = Z.to_nat ntracks ∧
    tracks_at view 14 (tracks midi).
Proof.
  unfold parseMIDI. intros (magic & Hmagic & H)%bind_Ok.
  destruct (decide (magic = "MThd"%string)) as [->|Hne].
  2:{ rewrite bool_decide_eq_false_2 in H by done. done. }
  rewrite bool_decide_eq_true_2 in H by done. cbn [negb] in H.
  apply bind_Ok in H as (fmt & Hformat & H).
  apply bind_Ok in H as (ntracks & Hn & H).
  apply bind_Ok in H as (dv & Hdiv & H).
  apply bind_Ok in H as ([trs off] & Hfold & [= <-]). cbn [format division tracks].
  exists ntracks.
  assert (Hgen : ∀ l acc o trs off,
    foldM (λ '(tracks, offset) (_ : Z),
        magic ← readString view offset 4;
        if negb (bool_decide (magic = "MTrk"%string)) then Throw (Error "Bad track")
        else
          length ← getUint32 view (offset + 4) false;
          track ← read_track view (offset + 4 + 4) (offset + 4 + 4 + length);
          Ok (tracks ++ [track], offset + 4 + 4 + length)) l (acc, o) =
      Ok (trs, off) →
    ∃ new, trs = acc ++ new ∧ length new = length l ∧ tracks_at view o new).
  { clear. induction l as [|x l IH]; intros acc o trs off; cbn [foldM].
    - intros [= <- _]. exists []. by rewrite app_nil_r.
    - intros ([acc' o'] & Hstep & Hrest)%bind_Ok.
      apply IH in Hrest as (new & -> & Hlen & Hnew).
      apply bind_Ok in Hstep as (m & Hm & Hstep).
      destruct (decide (m = "MTrk"%string)) as [->|Hne].
      2:{ rewrite bool_decide_eq_false_2 in Hstep by done. done. }
      rewrite bool_decide_eq_true_2 in Hstep by done. cbn [negb] in Hstep.
      apply bind_Ok in Hstep as (len & Hlen' & Hstep).
      apply bind_Ok in Hstep as (track & Htrack & [= <- <-]).
      exists (track :: new). rewrite <- app_assoc. split; [done|].
      split; [simpl; lia|].
      cbn [tracks_at]. exists len.
      replace (o + 8) with (o + 4 + 4) by lia. done. }
  apply Hgen in Hfold as (new & -> & Hlen & Hnew). cbn [app].
  rewrite Hlen, length_for_lt. done.
Qed.

Lemma tracks_at_wf view : ∀ trs o,
  tracks_at view o trs → Forall (Forall event_wf) trs.
Proof.
  induction trs as [|track trs IH]; intros o; [constructor|].
  intros (len & _ & _ & Htrack & Hrest). constructor.
  - by eapply read_track_wf.
  - by eapply IH.
Qed.

(** Every event of a parsed file is well formed: its status is a byte and
    its delta time a 32-bit integer; a meta event has status [0xFF], a
    system-exclusive event [0xF0] or [0xF7], and a channel message has the
    low nibble of the status as channel and the high nibble as type, with
    one parameter for the types [0xC] and [0xD] and two for every other
    type; parameters and data are bytes. *)
Theorem parseMIDI_events_wf view midi :
  parseMIDI view = Ok midi → Forall (Forall event_wf) (tracks midi).
Proof.
  intros (n & _ & _ & _ & _ & _ & H)%parseMIDI_tracks. by eapply tracks_at_wf.
Qed.

Lemma parseMIDI_events_wf_witness :
  Forall (Forall event_wf)
    [[mkEvent 0 0x90 (Channel2 0 9 60 100); mkEvent 480 0x90 (Channel2 0 9 60 0);
      mkEvent 0 0x80 (Channel2 0 8 61 64)]].
Proof.
  apply (parseMIDI_events_wf example_midi
           (mkMIDIFile 1 480
              [[mkEvent 0 0x90 (Channel2 0 9 60 100); mkEvent 480 0x90 (Channel2 0 9 60 0);
                mkEvent 0 0x80 (Channel2 0 8 61 64)]])).
  vm_compute. reflexivity.
Defined.

Lemma tracks_at_parsed view : ∀ trs acc o (l : list Z),
  length l = length trs →
  tracks_at view o trs →
  ∃ off,
    foldM (λ '(tracks, offset) (_ : Z),
        magic ← readString view offset 4;
        if negb (bool_decide (magic = "MTrk"%string)) then Throw (Error "Bad track")
        else
          length ← getUint32 view (offset + 4) false;
          track ← read_track view (offset + 4 + 4) (offset + 4 + 4 + length);
          Ok (tracks ++ [track], offset + 4 + 4 + length)) l (acc, o) =
      Ok (acc ++ trs, off).
Proof.
  induction trs as [|track trs IH]; intros acc o l Hlen Ht.
  - destruct l; [|done]. exists o. cbn [foldM]. by rewrite app_nil_r.
  - destruct l as [|x l]; [done|]. injection Hlen as Hlen.
    destruct Ht as (len & Hm & Hl & Htrack & Hrest).
    replace (o + 8) with (o + 4 + 4) in Htrack, Hrest by lia.
    destruct (IH (acc ++ [track]) (o + 4 + 4 + len) l Hlen Hrest) as [off Hoff].
    exists off. cbn [foldM]. rewrite Hm. cbn [mbind result_bind].
    rewrite bool_decide_eq_true_2 by done. cbn [negb].
    rewrite Hl. cbn [mbind result_bind]. rewrite Htrack. cbn [mbind result_bind].
    rewrite Hoff. by rewrite <- app_assoc.
Qed.

(** [parseMIDI] takes the format, the number of tracks and the division
    from the bytes 8 to 13 as big-endian 16-bit numbers and checks none of
    them; it returns as many tracks as the header announces.  The first
    track chunk is read at offset 14 whatever header length the bytes 4 to 7
    declare, and each further one where the declared length of the track
    before it ends.  A buffer laid out in this way is parsed, whatever the
    format, the division and the header length are. *)
Theorem parseMIDI_layout view midi :
  parseMIDI view = Ok midi ↔
  readString view 0 4 = Ok "MThd"%string ∧
  getUint16 view 8 false = Ok (format midi) ∧
  getUint16 view 10 false = Ok (Z.of_nat (length (tracks midi))) ∧
  getUint16 view 12 false = Ok (division midi) ∧
  tracks_at view 14 (tracks midi).
Proof.
  split.
  - intros (n & Hm & Hf & Hn & Hd & Hlen & Ht)%parseMIDI_tracks.
    split_and!; [done..| |done|done].
    rewrite Hlen, Z2Nat.id; [done|]. by apply getUint16_Ok in Hn as (_ & _ & ?).
  - intros (Hm & Hf & Hn & Hd & Ht). destruct midi as [fmt dv trs].
    cbn [format division tracks] in *.
    destruct (tracks_at_parsed view trs [] 14 (for_lt (Z.of_nat (length trs)))) as [off Hoff];
      [rewrite length_for_lt; lia | done |].
    unfold parseMIDI. rewrite Hm. cbn [mbind result_bind].
    rewrite bool_decide_eq_true_2 by done. cbn [negb].
    rewrite Hf. cbn [mbind result_bind]. rewrite Hn. cbn [mbind result_bind].
    rewrite Hd. cbn [mbind result_bind].
    etrans; [apply (f_equal (λ r, r ≫= _) Hoff)|]. reflexivity.
Qed.

Lemma parseMIDI_layout_witness :
  getUint16 example_midi 10 false = Ok 1 ∧
  getUint16 example_midi 12 false = Ok 480 ∧
  tracks_at example_midi 14
    [[mkEvent 0 0x90 (Channel2 0 9 60 100); mkEvent 480 0x90 (Channel2 0 9 60 0);
      mkEvent 0 0x80 (Channel2 0 8 61 64)]].
Proof.
  destruct (proj1 (parseMIDI_layout example_midi
              (mkMIDIFile 1 480
                 [[mkEvent 0 0x90 (Channel2 0 9 60 100);
                   mkEvent 480 0x90 (Channel2 0 9 60 0);
                   mkEvent 0 0x80 (Channel2 0 8 61 64)]])))
    as (_ & _ & Hn & Hd & Ht); [vm_compute; reflexivity|].
  split; [exact Hn|]. split; [exact Hd | exact Ht].
Defined.

(** ** Exceptions of the MIDI parser *)

Lemma readVLQ_Throw view off e : readVLQ view off = Throw e → e = RangeError.
Proof.
  intros He. pose proof (readVLQ_fuel_enough view off) as Hf. rewrite He in Hf.
  by apply readVLQ_fuel_Throw in Hf.
Qed.

Lemma read_data_Throw view off len e : read_data view off len = Throw e → e = RangeError.
Proof.
  unfold read_data. destruct (len <? 0); [congruence|].
  intros (j & _ & H)%mapM_Throw. by apply getUint8_Throw in H.
Qed.

Lemma read_event_Throw view off rs e : read_event view off rs = Throw e → e = RangeError.
Proof.
  unfold read_event. intros [H | (d & _ & H)]%bind_Throw; [by apply readVLQ_Throw in H|].
  apply bind_Throw in H as [H | (st & _ & H)]; [by apply getUint8_Throw in H|].
  destruct (st <? 128); cbv beta iota zeta in H;
    repeat lazymatch type of H with
           | (if ?c then _ else _) = _ => destruct c
           | _ ≫= _ = Throw _ =>
               apply bind_Throw in H as [H | (? & _ & H)]; [|cbn beta in H]
           end;
    first [ discriminate H | by apply getUint8_Throw in H
          | by apply readVLQ_Throw in H | by apply read_data_Throw in H ].
Qed.

Lemma read_track_fuel_Throw view trackEnd : ∀ fuel off rs track e,
  read_track_fuel fuel view off trackEnd rs track = Some (Throw e) → e = RangeError.
Proof.
  induction fuel as [|fuel IH]; intros off rs track e; cbn [read_track_fuel].
  - by destruct (off <? trackEnd).
  - destruct (off <? trackEnd); [|done].
    destruct (read_event view off rs) as [[[ev off'] rs']|e'] eqn:E; [apply IH|].
    intros [= <-]. by apply read_event_Throw in E.
Qed.

Lemma read_track_Throw view off trackEnd e :
  read_track view off trackEnd = Throw e → e = RangeError.
Proof.
  intros He. pose proof (read_track_fuel_enough view off trackEnd) as Hf.
  rewrite He in Hf. by apply read_track_fuel_Throw in Hf.
Qed.

Lemma foldM_Throw {A S} (f : S → A → result S) l : ∀ s e,
  foldM f l s = Throw e → ∃ s' x, x ∈ l ∧ f s' x = Throw e.
Proof.
  induction l as [|x l IH]; intros s e; [done|]. cbn [foldM].
  intros [H | (s' & _ & H)]%bind_Throw.
  - exists s, x. split; [left | done].
  - apply IH in H as (s'' & x' & Hx' & H). exists s'', x'. split; [by right | done].
Qed.

Lemma foldM_Throw_split {A S} (f : S → A → result S) l : ∀ s e,
  foldM f l s = Throw e →
  ∃ pre x post s', l = pre ++ x :: post ∧ foldM f pre s = Ok s' ∧ f s' x = Throw e.
Proof.
  induction l as [|a l IH]; intros s e; [done|]. cbn [foldM].
  destruct (f s a) as [s1|e1] eqn:E; cbn [mbind result_bind].
  - intros (pre & x & post & s' & -> & Hpre & Hx)%IH.
    exists (a :: pre), x, post, s'. cbn [app foldM]. rewrite E. done.
  - intros [= <-]. by exists [], a, l, s.
Qed.

Lemma parseMIDI_Throw view e :
  parseMIDI view = Throw e →
  (e = Error "Not a MIDI file" ∧
   ∃ magic, readString view 0 4 = Ok magic ∧ magic ≠ "MThd"%string) ∨
  ((∀ magic, readString view 0 4 = Ok magic → magic = "MThd"%string) ∧
   (e = RangeError ∨ e = Error "Bad track")).
Proof.
  unfold parseMIDI. intros [H | (magic & Hmagic & H)]%bind_Throw.
  { right. split; [intros magic; congruence|]. left. by apply readString_Throw in H. }
  destruct (decide (magic = "MThd"%string)) as [->|Hne].
  2:{ rewrite bool_decide_eq_false_2 in H by done. injection H as <-.
      left. split; [done|]. by exists magic. }
  rewrite bool_decide_eq_true_2 in H by done. cbn [negb] in H.
  right. split; [intros magic; congruence|].
  apply bind_Throw in H as [H | (fmt & _ & H)]; [left; by apply getUint16_Throw in H|].
  apply bind_Throw in H as [H | (n & _ & H)]; [left; by apply getUint16_Throw in H|].
  apply bind_Throw in H as [H | (dv & _ & H)]; [left; by apply getUint16_Throw in H|].
  apply bind_Throw in H as [H | ([trs off] & _ & H)]; [|done].
  apply foldM_Throw in H as ([acc o] & x & _ & H).
  apply bind_Throw in H as [H | (m & _ & H)]; [left; by apply readString_Throw in H|].
  destruct (negb _); [right; congruence|].
  apply bind_Throw in H as [H | (len & _ & H)]; [left; by apply getUint32_Throw in H|].
  apply bind_Throw in H as [H | (track & _ & H)]; [|done].
  left. by apply read_track_Throw in H.
Qed.

Lemma parseMIDI_bad_track view :
  parseMIDI view = Throw (Error "Bad track") →
  readString view 0 4 = Ok "MThd"%string ∧
  ∃ offset magic,
    14 ≤ offset ∧ readString view offset 4 = Ok magic ∧ magic ≠ "MTrk"%string.
Proof.
  unfold parseMIDI. intros [H | (magic & Hmagic & H)]%bind_Throw.
  { by apply readString_Throw in H. }
  destruct (decide (magic = "MThd"%string)) as [->|Hne].
  2:{ rewrite bool_decide_eq_false_2 in H by done. done. }
  rewrite bool_decide_eq_true_2 in H by done. cbn [negb] in H. split; [done|].
  apply bind_Throw in H as [H | (fmt & _ & H)]; [by apply getUint16_Throw in H|].
  apply bind_Throw in H as [H | (n & _ & H)]; [by apply getUint16_Throw in H|].
  apply bind_Throw in H as [H | (dv & _ & H)]; [by apply getUint16_Throw in H|].
  apply bind_Throw in H as [H | ([trs off] & _ & H)]; [|done].
  apply foldM_Throw_split in H as (pre & x & post & [acc o] & _ & Hpre & H).
  assert (Ho : 14 ≤ o).
  { revert Hpre.
    apply (foldM_invariant (λ st : list (list Event) * Z, 14 ≤ st.2)); [done|].
    intros [acc1 o1] y [acc2 o2] Ho1 Hstep. cbn [snd] in *.
    apply bind_Ok in Hstep as (m & _ & Hstep). destruct (negb _); [done|].
    apply bind_Ok in Hstep as (len & Hlen & Hstep).
    apply bind_Ok in Hstep as (track & _ & [= _ <-]).
    apply getUint32_Ok in Hlen as (_ & _ & ?). lia. }
  apply bind_Throw in H as [H | (m & Hm & H)]; [by apply readString_Throw in H|].
  destruct (decide (m = "MTrk"%string)) as [->|Hm'].
  - rewrite bool_decide_eq_true_2 in H by done. cbn [negb] in H.
    apply bind_Throw in H as [H | (len & _ & H)]; [by apply getUint32_Throw in H|].
    apply bind_Throw in H as [H | (track & _ & H)]; [|done].
    by apply read_track_Throw in H.
  - by exists o, m.
Qed.

(** [parseMIDI] throws [Not a MIDI file] exactly when the four bytes at
    offset 0 can be read and are not [MThd], and [Bad track] only for a
    track chunk whose tag is not [MTrk]; every other failure is the
    [RangeError] of a read outside the buffer, which is also what a buffer
    too short to hold the tag gives. *)
Theorem parseMIDI_errors view :
  (∀ e, parseMIDI view = Throw e →
     e = RangeError ∨ e = Error "Not a MIDI file" ∨ e = Error "Bad track") ∧
  (parseMIDI view = Throw (Error "Not a MIDI file") ↔
   ∃ magic, readString view 0 4 = Ok magic ∧ magic ≠ "MThd"%string) ∧
  (byteLength view = 0 → parseMIDI view = Throw RangeError) ∧
  (parseMIDI view = Throw (Error "Bad track") →
   readString view 0 4 = Ok "MThd"%string ∧
   ∃ offset magic,
     14 ≤ offset ∧ readString view offset 4 = Ok magic ∧ magic ≠ "MTrk"%string).
Proof.
  split_and!.
  - intros e [[-> _] | [_ [->| ->]]]%parseMIDI_Throw; auto.
  - split.
    + intros [[_ H] | [_ [?|?]]]%parseMIDI_Throw; done.
    + intros (magic & Hmagic & Hne). unfold parseMIDI. rewrite Hmagic.
      cbn [mbind result_bind]. by rewrite bool_decide_eq_false_2.
  - intros Hlen. unfold parseMIDI. cbn [readString]. unfold getUint8.
    destruct (arr_get view 0) as [b|] eqn:E; [|done].
    apply arr_get_Some in E as [E _]. unfold byteLength in Hlen. lia.
  - apply parseMIDI_bad_track.
Qed.

Lemma parseMIDI_errors_witness :
  parseMIDI oversized_leaf = Throw (Error "Not a MIDI file") ∧
  parseMIDI [] = Throw RangeError ∧
  parseMIDI bad_track_midi = Throw (Error "Bad track") ∧
  ∃ offset magic,
    14 ≤ offset ∧ readString bad_track_midi offset 4 = Ok magic ∧ magic ≠ "MTrk"%string.
Proof.
  split_and!.
  - apply (proj1 (proj2 (parseMIDI_errors oversized_leaf))).
    exists "data"%string. split; [reflexivity | discriminate].
  - apply (proj1 (proj2 (proj2 (parseMIDI_errors [])))). reflexivity.
  - reflexivity.
  - apply (proj2 (proj2 (proj2 (parseMIDI_errors bad_track_midi)))). reflexivity.
Defined.

(** ** Sample addresses after a trigger *)

Lemma play_zone_Ok key velocity t state this voices m this' voices' :
  play_zone key velocity t state (this, voices) m = Ok (this', voices') →
  ∃ sid voice,
    sample m = Some sid ∧ is_Some (samples this !! sid) ∧
    this' = with_samples this
              (alter (shift_sample (effective_gens (zone m) (presetZone m))) sid
                 (samples this)) ∧
    voices' = voices ++ [voice].
Proof.
  unfold play_zone. destruct (sample m) as [sid|]; [|done].
  destruct (samples this !! sid) as [s|] eqn:Hs; [|done].
  unfold resolve_params.
  pose proof (apply_gens_table sid (effective_gens (zone m) (presetZone m))
                (init_locals s) (samples this)) as Htbl.
  destruct (apply_gens sid _ (init_locals s, samples this)) as [L tbl].
  cbn [snd] in Htbl. subst tbl. cbn [with_samples samples].
  destruct (alter _ sid (samples this) !! sid) as [s'|]; [|done].
  intros (buffer & _ & [= <- <-])%bind_Ok. eauto 10.
Qed.

Lemma play_zones_Ok key velocity t state zones : ∀ this voices this' voices',
  foldM (play_zone key velocity t state) zones (this, voices) = Ok (this', voices') →
  this' = with_samples this (shift_matches zones (samples this)) ∧
  length voices' = (length voices + length zones)%nat ∧
  Forall (λ m, is_Some (sample m)) zones.
Proof.
  induction zones as [|m zones IH]; intros this voices this' voices'; cbn [foldM].
  - intros [= <- <-]. destruct this. split; [done|]. split; [simpl; lia | constructor].
  - intros ([this1 voices1] & Hstep & Hrest)%bind_Ok.
    apply play_zone_Ok in Hstep as (sid & voice & Hsid & _ & -> & ->).
    apply IH in Hrest as (-> & Hlen & Hall). split; [|split].
    + unfold shift_matches. cbn [fold_left]. by rewrite Hsid.
    + rewrite Hlen, length_app. simpl. lia.
    + constructor; [by rewrite Hsid | done].
Qed.

Lemma playNote_Ok this key velocity t state this' stop :
  playNote this key velocity t state = Ok (this', stop) →
  ∃ preset zones,
    arr_get this.(presets) (ch_preset state) = Some preset ∧
    getZonesForNote this preset key velocity = Ok zones ∧
    this' = with_samples this (shift_matches zones this.(samples)) ∧
    length stop = length zones.
Proof.
  unfold playNote. destruct (arr_get (presets this) (ch_preset state)) as [preset|]; [|done].
  intros (zones & Hzones & H)%bind_Ok. apply play_zones_Ok in H as (-> & Hlen & _).
  exists preset, zones. done.
Qed.

Lemma shift_sample_zero eff s :
  (∀ k, k ∈ address_ops → gen_amount eff k = 0) → shift_sample eff s = s.
Proof.
  intros H. unfold shift_sample.
  rewrite !H by compute_done.
  destruct s as [n st en sl el sr ok co li ty]. cbn. f_equal; lia.
Qed.

Lemma shift_matches_zero zones : ∀ tbl,
  Forall (λ m, ∀ k, k ∈ address_ops →
            gen_amount (effective_gens (zone m) (presetZone m)) k = 0) zones →
  shift_matches zones tbl = tbl.
Proof.
  induction zones as [|m zones IH]; intros tbl; [done|].
  intros [Hm Hall]%Forall_cons. unfold shift_matches. cbn [fold_left].
  fold (shift_matches zones). destruct (sample m) as [sid|]; [|by apply IH].
  rewrite list_alter_id; [by apply IH|]. intros s. by apply shift_sample_zero.
Qed.

(** A trigger moves the addresses of every sample it plays: for each match
    in turn, the sample object gets [start], [end], [startLoop] and
    [endLoop] increased by the summed fine offsets (operators 0 to 3) plus
    32768 times the summed coarse offsets (operators 4, 12, 14 and 18) of
    the two zones, and the change stays in the parser.  One voice is made
    per match.  The table is left as it was exactly when all these sums are
    zero for every match. *)
Theorem playNote_sample_shift this key velocity t state this' stop :
  playNote this key velocity t state = Ok (this', stop) →
  ∃ preset zones,
    arr_get this.(presets) (ch_preset state) = Some preset ∧
    getZonesForNote this preset key velocity = Ok zones ∧
    this' = with_samples this (shift_matches zones this.(samples)) ∧
    length stop = length zones ∧
    (Forall (λ m, ∀ k, k ∈ address_ops →
               gen_amount (effective_gens (zone m) (presetZone m)) k = 0) zones →
     this' = this).
Proof.
  intros (preset & zones & Hp & Hz & -> & Hlen)%playNote_Ok.
  exists preset, zones. split_and!; [done..|].
  intros Hall. rewrite shift_matches_zero by done. by destruct this.
Qed.

Lemma playNote_sample_shift_witness :
  ∃ preset zones,
    arr_get example_bank.(presets) 0 = Some preset ∧
    getZonesForNote example_bank preset 60 100 = Ok zones ∧
    start <$> shift_matches zones example_bank.(samples) = [10].
Proof.
  pose proof example_two_triggers as Hex.
  destruct (playNote example_bank 60 100 (Some 0%Q) default_channel)
    as [[bank1 stop1]|e] eqn:E; [|destruct Hex].
  destruct (playNote_sample_shift example_bank 60 100 (Some 0%Q) default_channel
              bank1 stop1 E)
    as (preset & zones & Hp & Hz & Hs & _).
  exists preset, zones. split; [exact Hp|]. split; [exact Hz|].
  injection Hp as <-. rewrite example_bank_zones in Hz. injection Hz as <-.
  reflexivity.
Defined.

(** ** What a trigger leaves alone *)

Lemma shift_matches_same_wave zones : ∀ tbl0 tbl,
  Forall2 same_wave tbl0 tbl → Forall2 same_wave tbl0 (shift_matches zones tbl).
Proof.
  induction zones as [|m zones IH]; intros tbl0 tbl H; [done|].
  unfold shift_matches. cbn [fold_left]. fold (shift_matches zones).
  destruct (sample m) as [sid|]; [|by apply IH].
  apply IH. apply Forall2_alter_r; [done|].
  intros s s' _ _ Hs. unfold same_wave, shift_sample in *.
  cbn [sampleName sampleRate originalKey correction sampleLink sampleType]. done.
Qed.

(** A trigger never touches the instruments, the presets or the sample
    data of the parser, never adds or removes a sample, and changes of a
    sample nothing but its four addresses: name, sample rate, root key,
    correction, link and type stay as the file gave them. *)
Theorem playNote_frame this key velocity t state this' stop :
  playNote this key velocity t state = Ok (this', stop) →
  instruments this' = instruments this ∧
  presets this' = presets this ∧
  sampleData this' = sampleData this ∧
  Forall2 same_wave (samples this) (samples this').
Proof.
  intros (preset & zones & _ & _ & -> & _)%playNote_Ok.
  cbn [with_samples instruments presets sampleData samples]. split_and!; [done..|].
  apply shift_matches_same_wave, Forall_Forall2_diag, Forall_true.
  intros s. by unfold same_wave.
Qed.

Lemma playNote_frame_witness :
  ∃ bank1,
    instruments bank1 = instruments example_bank ∧
    Forall2 same_wave (samples example_bank) (samples bank1) ∧
    start <$> samples bank1 = [10].
Proof.
  pose proof example_two_triggers as Hex.
  destruct (playNote example_bank 60 100 (Some 0%Q) default_channel)
    as [[bank1 stop1]|e] eqn:E; [|destruct Hex].
  destruct (playNote_frame example_bank 60 100 (Some 0%Q) default_channel bank1 stop1 E)
    as (Hi & _ & _ & Hs).
  exists bank1. split; [exact Hi|]. split; [exact Hs|]. exact (proj1 Hex).
Defined.

Lemma playNote_ignores_bank_and_bend this key velocity t state bank' pitchBend' :
  playNote this key velocity t
    (mkChannelState bank' (ch_preset state) (ch_volume state) (ch_expression state)
       (ch_pan state) (ch_mod state) pitchBend') =
  playNote this key velocity t state.
Proof. reflexivity. Qed.

(** ** Exceptions of a trigger *)

Lemma fill_check_Throw this len e : fill_check this len = Throw e → access_error e.
Proof.
  unfold fill_check. destruct (len <? 0); [intros [= <-]; by left|].
  destruct (_ && _); [intros [= <-]; by right | done].
Qed.

Lemma plan_buffer_Throw this s e : plan_buffer this s = Throw e → access_error e.
Proof.
  unfold plan_buffer.
  assert (Hmono : ∀ len (p : BufferPlan),
            fill_check this len ≫= (λ _, Ok p) = Throw e → access_error e).
  { intros len p [H | (? & _ & H)]%bind_Throw; [by apply fill_check_Throw in H | done]. }
  destruct (_ || _); [|apply Hmono].
  destruct (if sampleType s =? 2 then _ else _) as [[l|] [r|]];
    repeat lazymatch goal with
           | |- (if ?c then _ else _) = _ → _ => destruct c
           end;
    first [apply Hmono | intros [= <-]; by right].
Qed.

Lemma getZonesForNote_Throw this preset key velocity e :
  getZonesForNote this preset key velocity = Throw e → e = TypeError.
Proof.
  unfold getZonesForNote. rewrite getZonesForNote_fold.
  destruct (existsb _ _); congruence.
Qed.

Lemma play_zone_Throw key velocity t state acc m e :
  play_zone key velocity t state acc m = Throw e → access_error e.
Proof.
  unfold play_zone. destruct acc as [this voices].
  destruct (sample m) as [sid|]; [|intros [= <-]; by right].
  destruct (samples this !! sid) as [s|]; [|intros [= <-]; by right].
  destruct (resolve_params _ _ _ _ _ _) as [L tbl].
  destruct (samples (with_samples this tbl) !! sid) as [s'|]; [|intros [= <-]; by right].
  intros [H | (? & _ & H)]%bind_Throw; [by apply plan_buffer_Throw in H | done].
Qed.

Lemma playNote_Throw this key velocity t state e :
  playNote this key velocity t state = Throw e → access_error e.
Proof.
  unfold playNote. destruct (arr_get _ _) as [preset|]; [|intros [= <-]; by right].
  intros [H | (zones & _ & H)]%bind_Throw.
  - right. by apply getZonesForNote_Throw in H.
  - apply foldM_Throw in H as (acc & m & _ & H). by apply play_zone_Throw in H.
Qed.

(** ** The order of dispatch *)

Lemma insert_by_tick_Sorted e l :
  Sorted (λ a b : Z * Event, a.1 ≤ b.1) l →
  Sorted (λ a b : Z * Event, a.1 ≤ b.1) (insert_by_tick e l).
Proof.
  induction 1 as [|e' l Hl IH Hhd]; cbn [insert_by_tick].
  - by repeat constructor.
  - destruct (Z.leb_spec e.1 e'.1) as [Hle|Hgt].
    + constructor; [by constructor | by constructor].
    + constructor; [done|]. destruct l as [|e'' l]; cbn [insert_by_tick] in *.
      * constructor. lia.
      * destruct (e.1 <=? e''.1); constructor; [lia | by inversion Hhd].
Qed.

Lemma insert_by_tick_Permutation e l : insert_by_tick e l ≡ₚ e :: l.
Proof.
  induction l as [|e' l IH]; cbn [insert_by_tick]; [done|].
  destruct (e.1 <=? e'.1); [done|]. rewrite IH. apply Permutation_swap.
Qed.

Lemma insert_by_tick_filter t e l :
  filter (λ x : Z * Event, x.1 = t) (insert_by_tick e l) =
  filter (λ x : Z * Event, x.1 = t) (e :: l).
Proof.
  induction l as [|e' l IH]; cbn [insert_by_tick]; [done|].
  destruct (Z.leb_spec e.1 e'.1) as [Hle|Hgt]; [done|].
  rewrite filter_cons, IH, !filter_cons.
  destruct (decide (e'.1 = t)) as [He'|He']; [|done].
  destruct (decide (e.1 = t)) as [He|He]; [lia | done].
Qed.

(** The events of all tracks are dispatched by non-decreasing tick; none
    is lost or duplicated, and events with the same tick keep the order in
    which the tracks were merged, the events of an earlier track first. *)
Theorem sort_by_tick_stable l :
  Sorted (λ a b : Z * Event, a.1 ≤ b.1) (sort_by_tick l) ∧
  sort_by_tick l ≡ₚ l ∧
  ∀ t, filter (λ x : Z * Event, x.1 = t) (sort_by_tick l) =
       filter (λ x : Z * Event, x.1 = t) l.
Proof.
  unfold sort_by_tick. induction l as [|e l (Hs & Hp & Hf)]; cbn [foldr].
  - split_and!; [constructor | done | done].
  - split_and!.
    + by apply insert_by_tick_Sorted.
    + by rewrite insert_by_tick_Permutation, Hp.
    + intros t. by rewrite insert_by_tick_filter, !filter_cons, Hf.
Qed.

(** ** The play-head *)





(** ** Bit arithmetic of the controllers *)

Lemma land_shifted_low a b n : 0 ≤ n → 0 ≤ b < 2 ^ n → Z.land (a * 2 ^ n) b = 0.
Proof.
  intros Hn Hb. apply Z.bits_inj'. intros i Hi.
  rewrite Z.land_spec, Z.bits_0. destruct (Z.lt_ge_cases i n) as [Hlt|Hge].
  - by rewrite Z.mul_pow2_bits_low.
  - destruct (Z.eq_dec b 0) as [->|Hne]; [by rewrite Z.bits_0, andb_false_r|].
    rewrite (Z.bits_above_log2 b i), andb_false_r; [done | lia |].
    assert (Z.log2 b < n) by (apply Z.log2_lt_pow2; lia). lia.
Qed.

Lemma lor_shifted_low a b n : 0 ≤ n → 0 ≤ b < 2 ^ n → Z.lor (a * 2 ^ n) b = a * 2 ^ n + b.
Proof.
  intros Hn Hb. pose proof (land_shifted_low a b n Hn Hb) as H0.
  by rewrite <- Z.lxor_lor, <- Z.add_nocarry_lxor.
Qed.

Lemma land_shifted_mask x y n : 0 ≤ n → Z.land x (y * 2 ^ n) = Z.land (Z.shiftr x n) y * 2 ^ n.
Proof.
  intros Hn. apply Z.bits_inj'. intros i Hi.
  rewrite Z.land_spec, !Z.mul_pow2_bits by done.
  destruct (Z.lt_ge_cases i n) as [Hlt|Hge].
  - rewrite !(Z.testbit_neg_r _ (i - n)) by lia. by rewrite andb_false_r.
  - rewrite Z.land_spec, Z.shiftr_spec by lia. by replace (i - n + n) with i by lia.
Qed.

Lemma land_7bit x : 0 ≤ Z.land x 127 < 128.
Proof.
  change 127 with (Z.ones 7). rewrite Z.land_ones by lia. apply Z.mod_pos_bound. lia.
Qed.

Lemma shl32_small v n :
  0 ≤ n → 0 ≤ v → v * 2 ^ n < 2 ^ 31 → shl32 v n = v * 2 ^ n.
Proof.
  intros Hn Hv Hlt. unfold shl32.
  assert (v < 2 ^ 31).
  { assert (1 ≤ 2 ^ n) by (apply (Z.pow_le_mono_r 2 0 n); lia). nia. }
  rewrite (ToInt32_small v) by lia. rewrite Z.shiftl_mul_pow2 by lia.
  apply ToInt32_small. lia.
Qed.

Lemma js_or_shifted a b n :
  0 ≤ n → 0 ≤ a → a * 2 ^ n + 2 ^ n ≤ 2 ^ 31 → 0 ≤ b < 2 ^ n →
  js_or (a * 2 ^ n) b = a * 2 ^ n + b.
Proof.
  intros Hn Ha Hlt Hb. unfold js_or.
  assert (0 < 2 ^ n) by (apply Z.pow_pos_nonneg; lia).
  rewrite (ToInt32_small (a * 2 ^ n)), (ToInt32_small b) by nia.
  rewrite lor_shifted_low by done. apply ToInt32_small. nia.
Qed.

Lemma js_and_7F x : js_and x 0x7F = Z.land (ToInt32 x) 127 ∧ 0 ≤ js_and x 0x7F < 128.
Proof.
  unfold js_and. pose proof (land_7bit (ToInt32 x)) as Hr.
  rewrite (ToInt32_small 127) by lia. rewrite ToInt32_small by lia. done.
Qed.

Lemma js_and_3F80 x :
  ∃ k, 0 ≤ k < 128 ∧ k = Z.land (Z.shiftr (ToInt32 x) 7) 127 ∧ js_and x 0x3F80 = k * 128.
Proof.
  unfold js_and. rewrite (ToInt32_small 16256) by lia.
  change 16256 with (127 * 2 ^ 7). rewrite land_shifted_mask by lia.
  pose proof (land_7bit (Z.shiftr (ToInt32 x) 7)) as Hr.
  eexists. split; [exact Hr|]. split; [done|]. apply ToInt32_small. lia.
Qed.

Lemma shiftr_7 m low : 0 ≤ low < 128 → Z.shiftr (m * 128 + low) 7 = m.
Proof.
  intros H. rewrite Z.shiftr_div_pow2 by lia. change (2 ^ 7) with 128.
  symmetry. apply (Z.div_unique _ _ _ low); lia.
Qed.

Lemma controller_0_bank val c :
  ch_bank (controller 0 val c) = js_or (js_and (ch_bank c) 0x7F) (shl32 val 7).
Proof. reflexivity. Qed.

Lemma controller_32_bank val c :
  ch_bank (controller 32 val c) = js_or (js_and (ch_bank c) 0x3F80) val.
Proof. reflexivity. Qed.

(** Bank select, whichever of the two controllers comes first, leaves the
    bank [msb * 128 + lsb] for 7-bit values, whatever it was before; a
    pitch bend of two 7-bit parameters is stored as
    [param2 * 128 + param1 - 8192], between -8192 and 8191 with 0 for
    [(0, 64)]; a controller other than 0, 1, 7, 10, 11 and 32 leaves the
    channel state as it is. *)
Theorem controller_values c :
  (∀ msb lsb, 0 ≤ msb < 128 → 0 ≤ lsb < 128 →
     ch_bank (controller 32 lsb (controller 0 msb c)) = msb * 128 + lsb ∧
     ch_bank (controller 0 msb (controller 32 lsb c)) = msb * 128 + lsb) ∧
  (∀ p1 p2, 0 ≤ p1 < 128 → 0 ≤ p2 < 128 →
     ch_pitchBend (set_pitchBend (js_or (shl32 p2 7) p1 - 8192) c) =
       p2 * 128 + p1 - 8192 ∧
     - 8192 ≤ p2 * 128 + p1 - 8192 < 8192) ∧
  (∀ cc val, cc ∉ [0; 1; 7; 10; 11; 32] → controller cc val c = c).
Proof.
  split; [|split].
  - intros msb lsb Hm Hl.
    assert (Hshl : shl32 msb 7 = msb * 128).
    { rewrite shl32_small; lia. }
    rewrite !controller_32_bank, !controller_0_bank, controller_32_bank, Hshl. split.
    + destruct (js_and_7F (ch_bank c)) as [_ Hlow].
      set (low := js_and (ch_bank c) 127) in *.
      assert (Hb1 : js_or low (msb * 128) = msb * 128 + low).
      { unfold js_or. rewrite Z.lor_comm.
        rewrite (ToInt32_small low), (ToInt32_small (msb * 128)) by lia.
        change 128 with (2 ^ 7) at 1 2. rewrite lor_shifted_low by lia.
        apply ToInt32_small. lia. }
      rewrite Hb1. destruct (js_and_3F80 (msb * 128 + low)) as (k & Hk & Hkv & ->).
      rewrite ToInt32_small, shiftr_7 in Hkv by lia.
      change 127 with (Z.ones 7) in Hkv. rewrite Z.land_ones, Z.mod_small in Hkv by lia.
      subst k. change 128 with (2 ^ 7) at 1. rewrite js_or_shifted by lia. lia.
    + destruct (js_and_3F80 (ch_bank c)) as (k & Hk & _ & ->).
      assert (Hb1 : js_or (k * 128) lsb = k * 128 + lsb).
      { change 128 with (2 ^ 7) at 1. rewrite js_or_shifted by lia. lia. }
      rewrite Hb1. destruct (js_and_7F (k * 128 + lsb)) as [-> _].
      rewrite ToInt32_small by lia.
      change 127 with (Z.ones 7). rewrite Z.land_ones by lia.
      assert ((k * 128 + lsb) `mod` 2 ^ 7 = lsb) as ->.
      { symmetry. apply (Z.mod_unique _ _ k); lia. }
      unfold js_or. rewrite Z.lor_comm.
      rewrite (ToInt32_small lsb), (ToInt32_small (msb * 128)) by lia.
      change 128 with (2 ^ 7) at 1 2. rewrite lor_shifted_low by lia.
      apply ToInt32_small. lia.
  - intros p1 p2 H1 H2. cbn [set_pitchBend ch_pitchBend].
    rewrite shl32_small by lia. rewrite js_or_shifted by lia.
    change (2 ^ 7) with 128. lia.
  - intros cc val Hcc. unfold controller.
    destruct (Z.eqb_spec cc 0) as [->|_]; [destruct Hcc; compute_done|].
    destruct (Z.eqb_spec cc 32) as [->|_]; [destruct Hcc; compute_done|].
    destruct (Z.eqb_spec cc 7) as [->|_]; [destruct Hcc; compute_done|].
    destruct (Z.eqb_spec cc 10) as [->|_]; [destruct Hcc; compute_done|].
    destruct (Z.eqb_spec cc 11) as [->|_]; [destruct Hcc; compute_done|].
    destruct (Z.eqb_spec cc 1) as [->|_]; [destruct Hcc; compute_done|].
    done.
Qed.

Lemma controller_values_witness :
  ch_bank (controller 32 5 (controller 0 3 default_channel)) = 3 * 128 + 5 ∧
  controller 64 127 default_channel = default_channel.
Proof.
  split.
  - apply (proj1 (proj1 (controller_values default_channel) 3 5 ltac:(lia) ltac:(lia))).
  - apply (proj2 (proj2 (controller_values default_channel)) 64 127). compute_done.
Defined.

(** ** Tempo changes *)

(** A tempo meta event with three data bytes sets the tempo to their
    big-endian value, after the play-head has advanced at the old tempo; a
    meta event of type [0x51] with any other number of data bytes changes
    nothing but the play-head. *)
Theorem tempo_event division s tick ev data :
  body ev = Meta 0x51 data →
  Forall (λ b, 0 ≤ b < 256) data →
  dispatch division s (tick, ev) =
    Ok match data with
       | [d0; d1; d2] =>
           set_tempo (advanced division s tick) (d0 * 65536 + d1 * 256 + d2)
       | _ => advanced division s tick
       end.
Proof.
  intros Hb Hdata. unfold dispatch. rewrite Hb. fold (advanced division s tick).
  destruct data as [|d0 [|d1 [|d2 [|d3 data]]]]; try reflexivity.
  cbn [dispatch_body]. do 2 f_equal.
  apply Forall_cons in Hdata as [H0 Hdata]. apply Forall_cons in Hdata as [H1 Hdata].
  apply Forall_cons in Hdata as [H2 _].
  assert (E0 : shl32 d0 16 = d0 * 2 ^ 16).
  { rewrite shl32_small; [done|lia|lia|].
    change (2 ^ 16) with 65536. change (2 ^ 31) with 2147483648. lia. }
  assert (E1 : shl32 d1 8 = d1 * 256).
  { rewrite shl32_small; [|lia|lia|];
      change (2 ^ 8) with 256; change (2 ^ 31) with 2147483648; lia. }
  rewrite E0, E1.
  assert (E2 : js_or (d0 * 2 ^ 16) (d1 * 256) = (d0 * 256 + d1) * 2 ^ 8).
  { rewrite js_or_shifted; [|lia|lia| |];
      change (2 ^ 16) with 65536; change (2 ^ 8) with 256;
      change (2 ^ 31) with 2147483648; lia. }
  rewrite E2.
  rewrite js_or_shifted; [|lia|lia| |];
    change (2 ^ 8) with 256; change (2 ^ 31) with 2147483648; lia.
Qed.

Lemma tempo_event_witness :
  dispatch 480 (init_scheduler example_bank 0)
    (0, mkEvent 0 0xFF (Meta 0x51 [0x07; 0xA1; 0x20])) =
  Ok (set_tempo (advanced 480 (init_scheduler example_bank 0) 0) 500000).
Proof.
  apply (tempo_event 480 (init_scheduler example_bank 0) 0
           (mkEvent 0 0xFF (Meta 0x51 [0x07; 0xA1; 0x20])) [0x07; 0xA1; 0x20]).
  - reflexivity.
  - repeat constructor; lia.
Defined.

(** ** Channel messages *)

Lemma update_channel_spec s ch f c :
  arr_get (channelState s) ch = Some c →
  ∃ s', update_channel s ch f = Ok s' ∧
    arr_get (channelState s') ch = Some (f c) ∧
    (∀ ch', ch' ≠ ch → arr_get (channelState s') ch' = arr_get (channelState s) ch') ∧
    activeNotes s' = activeNotes s ∧ parser s' = parser s ∧ calls s' = calls s ∧
    tempo s' = tempo s ∧ lastTick s' = lastTick s ∧ currentTime s' = currentTime s.
Proof.
  intros Hc. unfold update_channel. rewrite Hc. eexists. split; [done|].
  cbn [channelState activeNotes parser calls tempo lastTick currentTime].
  apply arr_get_Some in Hc as [Hr Hl]. split_and!; try done.
  - unfold arr_get. destruct (Z.leb_spec 0 ch); [|lia].
    by rewrite list_lookup_alter, decide_True, Hl by done.
  - intros ch' Hne. unfold arr_get. destruct (Z.leb_spec 0 ch'); [|done].
    apply list_lookup_alter_ne. lia.
Qed.

Lemma dispatch_channel_update division s tick ev ch f :
  channel_update (body ev) = Some (ch, f) →
  dispatch division s (tick, ev) = update_channel (advanced division s tick) ch f.
Proof.
  intros Hu. unfold dispatch. fold (advanced division s tick).
  destruct (body ev) as [mt data|data|ch0 [] p1|ch0 type p1 p2]; try done.
  - by injection Hu as -> <-.
  - cbn [channel_update] in Hu. cbn [dispatch_body].
    destruct (Z.eqb_spec type 11) as [->|H11]; [by injection Hu as -> <-|].
    destruct (Z.eqb_spec type 14) as [->|H14]; [by injection Hu as -> <-|done].
Qed.

(** A controller, program change or pitch bend message writes to the state
    of its own channel and to nothing else: the states of the other
    channels, the active notes, the sample bank, the calls made and the
    tempo are as before, and the play-head has advanced to the tick of the
    event. *)
Theorem channel_update_dispatch division s tick ev ch f c :
  channel_update (body ev) = Some (ch, f) →
  arr_get (channelState s) ch = Some c →
  ∃ s', dispatch division s (tick, ev) = Ok s' ∧
    arr_get (channelState s') ch = Some (f c) ∧
    (∀ ch', ch' ≠ ch → arr_get (channelState s') ch' = arr_get (channelState s) ch') ∧
    activeNotes s' = activeNotes s ∧ parser s' = parser s ∧ calls s' = calls s ∧
    tempo s' = tempo s ∧ lastTick s' = tick ∧
    currentTime s' = advance (currentTime s) (tick - lastTick s) division (tempo s).
Proof.
  intros Hu Hc. rewrite (dispatch_channel_update _ _ _ _ _ _ Hu).
  destruct (update_channel_spec (advanced division s tick) ch f c Hc)
    as (s' & Hs' & H1 & H2 & H3 & H4 & H5 & H6 & H7 & H8).
  exists s'. split_and!; done.
Qed.

Lemma channel_update_dispatch_witness :
  ∃ s', dispatch 480 (init_scheduler example_bank 0)
          (0, mkEvent 0 0xB3 (Channel2 3 0xB 7 90)) = Ok s' ∧
        arr_get (channelState s') 3 = Some (controller 7 90 default_channel) ∧
        calls s' = [].
Proof.
  destruct (channel_update_dispatch 480 (init_scheduler example_bank 0) 0
              (mkEvent 0 0xB3 (Channel2 3 0xB 7 90)) 3 (controller 7 90) default_channel
              eq_refl eq_refl)
    as (s' & Hs & Hc & _ & _ & _ & Hcalls & _).
  exists s'. split; [exact Hs|]. split; [exact Hc | exact Hcalls].
Defined.

(** ** Note-on *)

(** A note-on with a velocity other than 0 calls [playNote] with the state
    of its channel and the advanced play-head time.  The closure returned
    is stored under the note, replacing a closure already there without
    calling it, so the voices of the earlier trigger are never stopped by
    this pass; the parser is left as [playNote] left it.  An exception of
    [playNote] is the outcome of the event. *)
Theorem note_on_dispatch division s tick ev ch note vel c notes :
  body ev = Channel2 ch 0x9 note vel →
  vel ≠ 0 →
  arr_get (channelState s) ch = Some c →
  arr_get (activeNotes s) ch = Some notes →
  match playNote (parser s) note vel
          (advance (currentTime s) (tick - lastTick s) division (tempo s)) c with
  | Ok (this', stop) =>
      ∃ s', dispatch division s (tick, ev) = Ok s' ∧
        parser s' = this' ∧
        calls s' = calls s ++ [StartVoices stop] ∧
        arr_get (activeNotes s') ch = Some (<[note := stop]> notes) ∧
        (∀ ch', ch' ≠ ch → arr_get (activeNotes s') ch' = arr_get (activeNotes s) ch') ∧
        channelState s' = channelState s ∧ tempo s' = tempo s ∧ lastTick s' = tick
  | Throw e => dispatch division s (tick, ev) = Throw e
  end.
Proof.
  intros Hb Hvel Hc Hn. unfold dispatch. rewrite Hb. cbn [dispatch_body].
  change (9 =? 9) with true. cbv iota.
  destruct (Z.eqb_spec vel 0) as [?|_]; [done|].
  unfold note_on. cbn [channelState parser currentTime activeNotes tempo lastTick calls].
  rewrite Hc.
  destruct (playNote _ _ _ _ _) as [[this' stop]|e]; [|done].
  cbn [mbind result_bind]. rewrite Hn. eexists. split; [done|].
  cbn [channelState parser currentTime activeNotes tempo lastTick calls].
  apply arr_get_Some in Hn as [Hr Hl]. split_and!; try done.
  - unfold arr_get. destruct (Z.leb_spec 0 ch); [|lia].
    by rewrite list_lookup_alter, decide_True, Hl by done.
  - intros ch' Hne. unfold arr_get. destruct (Z.leb_spec 0 ch'); [|done].
    apply list_lookup_alter_ne. lia.
Qed.

Lemma note_on_dispatch_witness :
  match playNote example_bank 60 100
          (advance (Some 0%Q) (0 - 0) 480 500000) default_channel with
  | Ok (this', stop) =>
      ∃ s', dispatch 480 example_playing
              (0, mkEvent 0 0x90 (Channel2 0 0x9 60 100)) = Ok s' ∧
            parser s' = this' ∧
            calls s' = [StartVoices stop] ∧
            arr_get (activeNotes s') 0 = Some (<[60 := stop]> {[ 60 := [] ]})
  | Throw e =>
      dispatch 480 example_playing (0, mkEvent 0 0x90 (Channel2 0 0x9 60 100)) = Throw e
  end.
Proof.
  pose proof (note_on_dispatch 480 example_playing 0
                (mkEvent 0 0x90 (Channel2 0 0x9 60 100)) 0 60 100 default_channel
                {[ 60 := [] ]} eq_refl ltac:(discriminate) eq_refl eq_refl) as H.
  change (currentTime example_playing) with (Some 0%Q) in H.
  change (lastTick example_playing) with 0 in H.
  change (tempo example_playing) with 500000 in H.
  change (parser example_playing) with example_bank in H.
  destruct (playNote example_bank 60 100 (advance (Some 0%Q) (0 - 0) 480 500000)
              default_channel) as [[this' stop]|e].
  - destruct H as (s' & Hs & Hp & Hcalls & Ha & _). exists s'.
    split; [exact Hs|]. split; [exact Hp|]. split; [exact Hcalls | exact Ha].
  - exact H.
Defined.

(** A program change stores any number as the preset of its channel
    without looking at the bank.  When the bank has no preset with that
    index, a triggering note-on on the channel that is dispatched right
    after it throws [TypeError], and with it the whole pass: no later event
    is dispatched. *)
Theorem program_change_unchecked division s t1 ev1 t2 ev2 ch p c note vel :
  body ev1 = Channel1 ch ProgramChange p →
  arr_get (channelState s) ch = Some c →
  arr_get (presets (parser s)) p = None →
  body ev2 = Channel2 ch 0x9 note vel →
  vel ≠ 0 →
  ∃ s1, dispatch division s (t1, ev1) = Ok s1 ∧
    arr_get (channelState s1) ch = Some (set_preset p c) ∧
    dispatch division s1 (t2, ev2) = Throw TypeError ∧
    ∀ post, foldM (dispatch division) ((t1, ev1) :: (t2, ev2) :: post) s = Throw TypeError.
Proof.
  intros Hb1 Hc Hp Hb2 Hvel.
  assert (Hs1 : ∃ s1, dispatch division s (t1, ev1) = Ok s1 ∧
                  arr_get (channelState s1) ch = Some (set_preset p c) ∧
                  parser s1 = parser s).
  { unfold dispatch. rewrite Hb1. cbn [dispatch_body].
    destruct (update_channel_spec (advanced division s t1) ch (set_preset p) c Hc)
      as (s1 & Hs1 & H1 & _ & _ & H4 & _).
    exists s1. done. }
  destruct Hs1 as (s1 & Hs1 & Hc1 & Hpar).
  assert (Hthrow : dispatch division s1 (t2, ev2) = Throw TypeError).
  { unfold dispatch. rewrite Hb2. cbn [dispatch_body].
    change (9 =? 9) with true. cbv iota.
    destruct (Z.eqb_spec vel 0) as [?|_]; [done|].
    unfold note_on. cbn [channelState parser currentTime]. rewrite Hc1.
    unfold playNote. cbn [ch_preset set_preset]. by rewrite Hpar, Hp. }
  exists s1. split_and!; [done..|].
  intros post. cbn [foldM]. rewrite Hs1. cbn [mbind result_bind]. by rewrite Hthrow.
Qed.

Lemma program_change_unchecked_witness :
  foldM (dispatch 480)
    [(0, mkEvent 0 0xC0 (Channel1 0 ProgramChange 5));
     (0, mkEvent 0 0x90 (Channel2 0 0x9 60 100));
     (480, mkEvent 480 0x80 (Channel2 0 0x8 60 64))]
    (init_scheduler example_bank 0) = Throw TypeError.
Proof.
  destruct (program_change_unchecked 480 (init_scheduler example_bank 0)
              0 (mkEvent 0 0xC0 (Channel1 0 ProgramChange 5))
              0 (mkEvent 0 0x90 (Channel2 0 0x9 60 100)) 0 5 default_channel 60 100
              eq_refl eq_refl eq_refl eq_refl ltac:(discriminate))
    as (s1 & _ & _ & _ & H).
  exact (H [(480, mkEvent 480 0x80 (Channel2 0 0x8 60 64))]).
Defined.

(** ** Failures of a pass *)

Lemma dispatch_body_Throw s b e :
  (∀ ch, event_channel b = Some ch →
     is_Some (arr_get (activeNotes s) ch) ∧ is_Some (arr_get (channelState s) ch)) →
  dispatch_body s b = Throw e →
  ∃ ch note vel c,
    b = Channel2 ch 0x9 note vel ∧ vel ≠ 0 ∧
    arr_get (channelState s) ch = Some c ∧
    playNote (parser s) note vel (currentTime s) c = Throw e.
Proof.
  intros Hch.
  assert (Hoff : ∀ ch note, is_Some (arr_get (activeNotes s) ch) →
            note_off s ch note ≠ Throw e).
  { intros ch note [notes Hn]. unfold note_off. by rewrite Hn. }
  assert (Hup : ∀ ch f, is_Some (arr_get (channelState s) ch) →
            update_channel s ch f ≠ Throw e).
  { intros ch f [c Hc]. unfold update_channel. by rewrite Hc. }
  destruct b as [mt data|data|ch [] p1|ch type p1 p2]; cbn [dispatch_body].
  - destruct mt as [|p|p]; try done.
    do 7 (try destruct p as [p|p|]); try done.
    by destruct data as [|d0 [|d1 [|d2 [|]]]].
  - done.
  - intros H. by apply Hup in H; [|apply (Hch ch)].
  - done.
  - destruct (Hch ch eq_refl) as [Ha Hc].
    destruct (Z.eqb_spec type 9) as [->|_].
    + destruct (Z.eqb_spec p2 0) as [->|Hvel]; [intros H; by apply Hoff in H|].
      unfold note_on. destruct Hc as [c Hc]. rewrite Hc.
      destruct (playNote (parser s) p1 p2 (currentTime s) c) as [[this stop]|e'] eqn:E.
      * cbn [mbind result_bind]. destruct Ha as [notes ->]. done.
      * intros [= <-]. by exists ch, p1, p2, c.
    + repeat case_match; intros Hd;
        first [by apply Hoff in Hd | by apply Hup in Hd | done].
Qed.

Lemma absolute_ticks_Forall (P : Event → Prop) track : ∀ tick,
  Forall P track → Forall (λ e, P e.2) (absolute_ticks tick track).
Proof.
  induction track as [|ev track IH]; intros tick; cbn [absolute_ticks]; [constructor|].
  intros [? ?]%Forall_cons. constructor; [done | by apply IH].
Qed.

Lemma pass_events_Forall (P : Event → Prop) (tracks : list (list Event)) :
  Forall (Forall P) tracks →
  Forall (λ e, P e.2) (sort_by_tick (concat (absolute_ticks 0 <$> tracks))).
Proof.
  intros H. apply sort_by_tick_Forall, Forall_concat, Forall_fmap.
  eapply Forall_impl; [exact H|]. intros track. apply absolute_ticks_Forall.
Qed.

(** The calls into the audio backend being taken not to throw, [playMIDI]
    fails in two places only: in [parseMIDI], or in the [playNote] call of
    a note-on with a velocity other than 0, with a [RangeError] or a
    [TypeError]; the events before it have been dispatched and those after
    it never are.  Note-offs, controllers, program changes, pitch bends,
    meta and system-exclusive events of a parsed file never throw. *)
Theorem playMIDI_failures this now view err :
  playMIDI this now view = Throw err →
  (err = RangeError ∨ err = TypeError ∨
   err = Error "Not a MIDI file" ∨ err = Error "Bad track") ∧
  (parseMIDI view = Throw err ∨
   ∃ midi pre tick ev post s ch note vel c,
     parseMIDI view = Ok midi ∧
     sort_by_tick (concat (absolute_ticks 0 <$> tracks midi)) = pre ++ (tick, ev) :: post ∧
     foldM (dispatch (division midi)) pre (init_scheduler this now) = Ok s ∧
     body ev = Channel2 ch 0x9 note vel ∧ vel ≠ 0 ∧
     arr_get (channelState s) ch = Some c ∧
     playNote (parser s) note vel
       (advance (currentTime s) (tick - lastTick s) (division midi) (tempo s)) c =
       Throw err).
Proof.
  unfold playMIDI. intros [H | (midi & Hmidi & H)]%bind_Throw.
  { split; [|by left].
    apply parseMIDI_Throw in H as [[-> _] | [_ [->| ->]]]; auto. }
  unfold schedule in H.
  apply foldM_Throw_split in H as (pre & [tick ev] & post & s & Hsplit & Hpre & Hev).
  pose proof (pass_events_Forall channel_in_range _ (parseMIDI_channels _ _ Hmidi)) as Hall.
  rewrite Hsplit in Hall. apply Forall_app in Hall as [_ [He _]%Forall_cons].
  cbn [snd] in He. pose proof (schedule_lengths _ _ _ _ Hpre) as [Hla Hlc].
  unfold dispatch in Hev. apply dispatch_body_Throw in Hev.
  - destruct Hev as (ch & note & vel & c & Hb & Hvel & Hc & Hplay).
    cbn [parser currentTime channelState] in Hc, Hplay. split.
    + apply playNote_Throw in Hplay as [->| ->]; auto.
    + right. exists midi, pre, tick, ev, post, s, ch, note, vel, c. done.
  - intros ch Hch. apply He in Hch. cbn [activeNotes channelState].
    split; apply arr_get_in_range; [rewrite Hla | rewrite Hlc]; simpl; lia.
Qed.

Lemma playMIDI_failures_witness :
  parseMIDI oversized_leaf = Throw (Error "Not a MIDI file") ∨
  ∃ midi pre tick ev post s ch note vel c,
    parseMIDI oversized_leaf = Ok midi ∧
    sort_by_tick (concat (absolute_ticks 0 <$> tracks midi)) = pre ++ (tick, ev) :: post ∧
    foldM (dispatch (division midi)) pre (init_scheduler example_bank 0) = Ok s ∧
    body ev = Channel2 ch 0x9 note vel ∧ vel ≠ 0 ∧
    arr_get (channelState s) ch = Some c ∧
    playNote (parser s) note vel
      (advance (currentTime s) (tick - lastTick s) (division midi) (tempo s)) c =
      Throw (Error "Not a MIDI file").
Proof.
  apply (playMIDI_failures example_bank 0 oversized_leaf (Error "Not a MIDI file")).
  reflexivity.
Defined.

(** ** A pass without triggers *)

Lemma dispatch_silent division this s tick ev :
  parser s = this → calls s = [] → activeNotes s = replicate 16 ∅ →
  length (channelState s) = 16%nat →
  channel_in_range ev → is_note_on (body ev) = false →
  ∃ s', dispatch division s (tick, ev) = Ok s' ∧
    parser s' = this ∧ calls s' = [] ∧ activeNotes s' = replicate 16 ∅ ∧
    length (channelState s') = 16%nat.
Proof.
  intros Hp Hc Ha Hl Hch Hon. unfold dispatch.
  set (t := advance _ _ _ _).
  assert (Hoff : ∀ ch note, 0 ≤ ch < 16 →
    ∃ s', note_off (mkScheduler (tempo s) tick t (activeNotes s) (channelState s)
                      (parser s) (calls s)) ch note = Ok s' ∧
      parser s' = this ∧ calls s' = [] ∧ activeNotes s' = replicate 16 ∅ ∧
      length (channelState s') = 16%nat).
  { intros ch note Hr. rewrite (note_off_spec _ _ _ ∅).
    - rewrite lookup_empty. eexists. split; [done|]. done.
    - cbn [activeNotes]. rewrite Ha. unfold arr_get.
      destruct (Z.leb_spec 0 ch); [|lia]. apply lookup_replicate_2. lia. }
  assert (Hup : ∀ ch f, 0 ≤ ch < 16 →
    ∃ s', update_channel (mkScheduler (tempo s) tick t (activeNotes s) (channelState s)
                            (parser s) (calls s)) ch f = Ok s' ∧
      parser s' = this ∧ calls s' = [] ∧ activeNotes s' = replicate 16 ∅ ∧
      length (channelState s') = 16%nat).
  { intros ch f Hr. unfold update_channel. cbn [channelState].
    destruct (arr_get_in_range (channelState s) ch) as [c ->]; [lia|].
    eexists. split; [done|]. cbn [parser calls activeNotes channelState].
    rewrite length_alter. done. }
  assert (Hsame : ∃ s', Ok (mkScheduler (tempo s) tick t (activeNotes s) (channelState s)
                              (parser s) (calls s)) = Ok s' ∧
      parser s' = this ∧ calls s' = [] ∧ activeNotes s' = replicate 16 ∅ ∧
      length (channelState s') = 16%nat).
  { eexists. split; [done|]. done. }
  destruct (body ev) as [mt data|data|ch [] p1|ch type p1 p2] eqn:Hb; cbn [dispatch_body].
  - destruct mt as [|p|p]; try exact Hsame.
    do 7 (try destruct p as [p|p|]); try exact Hsame.
    destruct data as [|d0 [|d1 [|d2 [|]]]]; try exact Hsame.
    eexists. split; [done|]. done.
  - exact Hsame.
  - apply Hup. apply Hch. by rewrite Hb.
  - exact Hsame.
  - assert (0 ≤ ch < 16) as Hr by (apply Hch; by rewrite Hb).
    cbn [is_note_on] in Hon.
    destruct (Z.eqb_spec type 9) as [->|_].
    + destruct (Z.eqb_spec p2 0) as [->|_]; [by apply Hoff | done].
    + repeat case_match; first [by apply Hoff | by apply Hup | exact Hsame].
Qed.

(** A parsed file none of whose events is a note-on with a velocity other
    than 0 is played through without any exception, whatever bank is
    loaded: the bank is left untouched, no call reaches the audio backend
    and no note is left active. *)
Theorem silent_pass this now view midi :
  parseMIDI view = Ok midi →
  Forall (Forall (λ ev, is_note_on (body ev) = false)) (tracks midi) →
  ∃ s, playMIDI this now view = Ok s ∧
    parser s = this ∧ calls s = [] ∧ activeNotes s = replicate 16 ∅.
Proof.
  intros Hmidi Hsilent. unfold playMIDI. rewrite Hmidi. cbn [mbind result_bind].
  unfold schedule.
  pose proof (pass_events_Forall channel_in_range _ (parseMIDI_channels _ _ Hmidi)) as Hch.
  pose proof (pass_events_Forall _ _ Hsilent) as Hon.
  revert Hch Hon. generalize (sort_by_tick (concat (absolute_ticks 0 <$> tracks midi))).
  intros events.
  assert (Hgen : ∀ s0, parser s0 = this → calls s0 = [] →
            activeNotes s0 = replicate 16 ∅ → length (channelState s0) = 16%nat →
            Forall (λ e, channel_in_range e.2) events →
            Forall (λ e : Z * Event, is_note_on (body e.2) = false) events →
            ∃ s, foldM (dispatch (division midi)) events s0 = Ok s ∧
              parser s = this ∧ calls s = [] ∧ activeNotes s = replicate 16 ∅).
  { induction events as [|[tick ev] events IH]; intros s0 Hp Hc Ha Hl Hch Hon.
    - exists s0. done.
    - apply Forall_cons in Hch as [Hch1 Hch]. apply Forall_cons in Hon as [Hon1 Hon].
      destruct (dispatch_silent (division midi) this s0 tick ev Hp Hc Ha Hl Hch1 Hon1)
        as (s1 & Hs1 & Hp1 & Hc1 & Ha1 & Hl1).
      destruct (IH s1 Hp1 Hc1 Ha1 Hl1 Hch Hon) as (s & Hs & ?).
      exists s. cbn [foldM]. rewrite Hs1. done. }
  intros Hch Hon. by apply Hgen.
Qed.

Lemma silent_pass_witness :
  ∃ s, playMIDI example_bank 0 silent_midi = Ok s ∧
    parser s = example_bank ∧ calls s = [] ∧ activeNotes s = replicate 16 ∅.
Proof.
  apply (silent_pass example_bank 0 silent_midi
           (mkMIDIFile 0 480
              [[mkEvent 0 0xB0 (Channel2 0 0xB 7 90); mkEvent 0 0x80 (Channel2 0 8 61 64)]])).
  - vm_compute. reflexivity.
  - repeat constructor.
Defined.

(** ** The tables at every event *)

Lemma pass_active_notes_defined_witness :
  is_Some (arr_get (activeNotes (init_scheduler example_bank 0)) 0) ∧
  is_Some (arr_get (channelState (init_scheduler example_bank 0)) 0).
Proof.
  apply (pass_active_notes_defined example_midi
           (mkMIDIFile 1 480 [snd <$> example_events]) example_bank 0
           [] (0, mkEvent 0 0x90 (Channel2 0 9 60 100))
           [(480, mkEvent 480 0x90 (Channel2 0 9 60 0));
            (480, mkEvent 0 0x80 (Channel2 0 8 61 64))]
           (init_scheduler example_bank 0) 0).
  - vm_compute. reflexivity.
  - vm_compute. reflexivity.
  - reflexivity.
  - reflexivity.
Defined.

(** ** The order of the generators *)

Lemma sum_delta_Permutation d eff keys keys' :
  keys ≡ₚ keys' → sum_delta d eff keys = sum_delta d eff keys'.
Proof.
  induction 1 as [|k l l' _ IH|k k' l|l l' l'' _ IH1 _ IH2];
    cbn [sum_delta foldr] in *; [done | | lia | congruence].
  fold (sum_delta d eff l) (sum_delta d eff l') in *. lia.
Qed.

(** The cases of the [switch] commute: whatever the order in which the
    keys of [effectiveGens] are enumerated, the locals and the sample table
    end up the same. *)
Theorem switch_order_irrelevant sid eff keys L tbl :
  keys ≡ₚ Object_keys eff →
  (∀ v, num (fold_left (switch_on sid eff) keys (L, tbl)).1 v =
        num (apply_gens sid eff (L, tbl)).1 v) ∧
  (∀ v, time (fold_left (switch_on sid eff) keys (L, tbl)).1 v =
        time (apply_gens sid eff (L, tbl)).1 v) ∧
  (fold_left (switch_on sid eff) keys (L, tbl)).2 = (apply_gens sid eff (L, tbl)).2.
Proof.
  intros Hperm.
  assert (Hnd : NoDup keys) by (rewrite Hperm; apply Object_keys_NoDup).
  unfold apply_gens. split; [|split].
  - intros v. rewrite !fold_switch_num by (done || apply Object_keys_NoDup).
    destruct (eff !! num_op v); [|done].
    by rewrite (bool_decide_ext (num_op v ∈ keys) (num_op v ∈ Object_keys eff))
      by (by rewrite Hperm).
  - intros v. rewrite !fold_switch_time by (done || apply Object_keys_NoDup).
    destruct (eff !! time_op v); [|done].
    by rewrite (bool_decide_ext (time_op v ∈ keys) (time_op v ∈ Object_keys eff))
      by (by rewrite Hperm).
  - rewrite !fold_switch_table. apply list_alter_ext; [|done].
    intros s _. rewrite !fold_key_step.
    by rewrite !(sum_delta_Permutation _ eff keys (Object_keys eff)).
Qed.

Lemma switch_order_irrelevant_witness :
  (fold_left (switch_on 0 (effective_gens example_inst_zone example_preset_zone))
     [41; 8; 53; 0] (init_locals example_sample, [example_sample])).2 =
  (apply_gens 0 (effective_gens example_inst_zone example_preset_zone)
     (init_locals example_sample, [example_sample])).2.
Proof.
  apply (switch_order_irrelevant 0 (effective_gens example_inst_zone example_preset_zone)
           [41; 8; 53; 0] (init_locals example_sample) [example_sample]).
  change (Object_keys (effective_gens example_inst_zone example_preset_zone))
    with [0; 8; 41; 53].
  apply (Permutation_trans (l' := [8; 41; 53; 0])).
  - apply perm_swap.
  - apply (Permutation_trans (l' := [8; 41; 0; 53])).
    + do 2 apply perm_skip. apply perm_swap.
    + apply (Permutation_trans (l' := [8; 0; 41; 53])).
      * apply perm_skip, perm_swap.
      * apply perm_swap.
Defined.

(** ** Repeated triggers *)

Lemma arr_ref_length {A} (l l' : list A) i :
  length l = length l' → arr_ref l i = arr_ref l' i.
Proof.
  intros Hlen. unfold arr_ref, arr_get. destruct (0 <=? i); [|done].
  destruct (l !! Z.to_nat i) eqn:E, (l' !! Z.to_nat i) eqn:E'; try done.
  - apply lookup_lt_Some in E. apply lookup_ge_None in E'. lia.
  - apply lookup_ge_None in E. apply lookup_lt_Some in E'. lia.
Qed.

Lemma shift_matches_length zones : ∀ tbl, length (shift_matches zones tbl) = length tbl.
Proof.
  induction zones as [|m zones IH]; intros tbl; [done|].
  unfold shift_matches. cbn [fold_left]. fold (shift_matches zones).
  destruct (sample m); rewrite IH; [apply length_alter | done].
Qed.

Lemma getZonesForNote_samples this tbl preset key velocity :
  length tbl = length (samples this) →
  getZonesForNote (with_samples this tbl) preset key velocity =
  getZonesForNote this preset key velocity.
Proof.
  intros Hlen. unfold getZonesForNote. rewrite !getZonesForNote_fold.
  assert (Hd : ∀ z, dangling_instrument (with_samples this tbl) key velocity z =
                    dangling_instrument this key velocity z) by done.
  assert (Hc : ∀ z, zone_contribution (with_samples this tbl) key velocity z =
                    zone_contribution this key velocity z).
  { intros z. unfold zone_contribution. cbn [with_samples instruments].
    destruct (zone_matches key velocity z); [|done].
    destruct (instrumentID z) as [i|]; [|done].
    destruct (arr_get (instruments this) i) as [inst|]; [|done].
    unfold instrument_matches. cbn [samples].
    induction (instrumentZones inst) as [|iz izs IH]; [done|]. cbn [flat_map].
    rewrite IH. destruct (zone_matches key velocity iz); [|done].
    destruct (sampleID iz) as [sidx|]; [|done].
    by rewrite (arr_ref_length tbl (samples this)). }
  assert (He : existsb (dangling_instrument (with_samples this tbl) key velocity)
                 (presetZones preset) =
               existsb (dangling_instrument this key velocity) (presetZones preset)).
  { induction (presetZones preset) as [|z zs IH]; [done|]. cbn [existsb].
    by rewrite Hd, IH. }
  rewrite He. destruct (existsb _ _); [done|]. f_equal. f_equal.
  induction (presetZones preset) as [|z zs IH]; [done|]. cbn [flat_map].
  by rewrite Hc, IH.
Qed.

Lemma with_samples_twice this tbl tbl' :
  with_samples (with_samples this tbl) tbl' = with_samples this tbl'.
Proof. done. Qed.

Lemma play_times_Ok n : ∀ this key velocity t state this' preset zones,
  arr_get (presets this) (ch_preset state) = Some preset →
  getZonesForNote this preset key velocity = Ok zones →
  play_times n this key velocity t state = Ok this' →
  this' = with_samples this (Nat.iter n (shift_matches zones) (samples this)).
Proof.
  induction n as [|n IH]; intros this key velocity t state this' preset zones Hp Hz.
  - intros [= <-]. by destruct this.
  - cbn [play_times]. intros ([this1 stop] & H1 & Hrest)%bind_Ok.
    apply playNote_Ok in H1 as (preset' & zones' & Hp' & Hz' & -> & _).
    rewrite Hp in Hp'. injection Hp' as <-. rewrite Hz in Hz'. injection Hz' as <-.
    apply (IH _ _ _ _ _ _ preset zones) in Hrest.
    + rewrite Hrest, with_samples_twice. cbn [samples with_samples].
      by rewrite Nat.iter_succ_r.
    + done.
    + rewrite getZonesForNote_samples; [done|]. apply shift_matches_length.
Qed.

(** Triggering a note [n] times shifts the sample addresses [n] times:
    the matches are the same at every trigger, and each trigger adds the
    same offsets to what the trigger before left.  With a single match the
    [start] of its sample has moved by [n] times the summed start offsets,
    and likewise [end]. *)
Theorem repeated_triggers n this key velocity t state this' :
  (0 < n)%nat →
  play_times n this key velocity t state = Ok this' →
  ∃ preset zones,
    arr_get (presets this) (ch_preset state) = Some preset ∧
    getZonesForNote this preset key velocity = Ok zones ∧
    this' = with_samples this (Nat.iter n (shift_matches zones) (samples this)) ∧
    ∀ m sid s, zones = [m] → sample m = Some sid → samples this !! sid = Some s →
      ∃ s', samples this' !! sid = Some s' ∧
        start s' = start s + Z.of_nat n *
          (gen_amount (effective_gens (zone m) (presetZone m)) 0 +
           gen_amount (effective_gens (zone m) (presetZone m)) 4 * 32768) ∧
        end_ s' = end_ s + Z.of_nat n *
          (gen_amount (effective_gens (zone m) (presetZone m)) 1 +
           gen_amount (effective_gens (zone m) (presetZone m)) 12 * 32768).
Proof.
  intros Hn H. destruct n as [|n]; [lia|].
  pose proof H as H'. cbn [play_times] in H'.
  apply bind_Ok in H' as ([this1 stop] & H1 & _).
  apply playNote_Ok in H1 as (preset & zones & Hp & Hz & _ & _).
  exists preset, zones. split; [done|]. split; [done|].
  pose proof (play_times_Ok _ _ _ _ _ _ _ _ _ Hp Hz H) as ->. split; [done|].
  intros m sid s -> Hsid Hs. cbn [samples with_samples].
  generalize (S n). clear -Hsid Hs. intros n.
  induction n as [|n (s' & Hs' & Hst & Hen)].
  - exists s. split; [done|]. lia.
  - rewrite Nat.iter_succ. unfold shift_matches at 1. cbn [fold_left]. rewrite Hsid.
    exists (shift_sample (effective_gens (zone m) (presetZone m)) s'). split.
    + by rewrite list_lookup_alter, decide_True, Hs' by done.
    + cbn [shift_sample start end_]. lia.
Qed.

Lemma repeated_triggers_witness :
  ∃ bank2 preset zones,
    play_times 2 example_bank 60 100 (Some 0%Q) default_channel = Ok bank2 ∧
    arr_get (presets example_bank) 0 = Some preset ∧
    getZonesForNote example_bank preset 60 100 = Ok zones ∧
    bank2 = with_samples example_bank
              (Nat.iter 2 (shift_matches zones) (samples example_bank)) ∧
    start <$> samples bank2 = [20].
Proof.
  pose proof example_two_triggers as Hex.
  destruct (playNote example_bank 60 100 (Some 0%Q) default_channel)
    as [[bank1 stop1]|e1] eqn:E1; [|destruct Hex].
  destruct Hex as (_ & _ & Hex).
  destruct (playNote bank1 60 100 (Some 0%Q) default_channel)
    as [[bank2 stop2]|e2] eqn:E2; [|destruct Hex].
  assert (Hplay : play_times 2 example_bank 60 100 (Some 0%Q) default_channel = Ok bank2).
  { cbn [play_times]. rewrite E1. cbn [mbind result_bind]. rewrite E2. reflexivity. }
  destruct (repeated_triggers 2 example_bank 60 100 (Some 0%Q) default_channel bank2
              ltac:(lia) Hplay)
    as (preset & zones & Hp & Hz & Hb & _).
  exists bank2, preset, zones.
  split; [exact Hplay|]. split; [exact Hp|]. split; [exact Hz|]. split; [exact Hb|].
  exact (proj1 Hex).
Defined.

(** ** Buffers *)

Lemma fill_check_Ok this len :
  fill_check this len = Ok () → 0 ≤ len ∧ (0 < len → sampleData this ≠ None).
Proof.
  unfold fill_check. destruct (Z.ltb_spec len 0); [done|].
  destruct (Z.ltb_spec 0 len); cbn [andb]; [|intros _; split; lia].
  case_bool_decide; [done|]. intros _. split; [lia | done].
Qed.

Lemma fill_check_pass this len :
  0 ≤ len → (0 < len → sampleData this ≠ None) → fill_check this len = Ok ().
Proof.
  intros H0 Hd. unfold fill_check. destruct (Z.ltb_spec len 0); [lia|].
  destruct (Z.ltb_spec 0 len); cbn [andb]; [|done].
  case_bool_decide; [by destruct Hd | done].
Qed.

Lemma plan_buffer_pair this s l r :
  stereo_pair this s l r →
  plan_buffer this s =
    fill_check this (Z.min (end_ l - start l) (end_ r - start r)) ≫=
      (λ _, Ok (mkBufferPlan 2 (Z.min (end_ l - start l) (end_ r - start r))
                  (startLoop l - start l) (endLoop l - start l))).
Proof.
  intros (Hl & Hr & [(Hs & -> & Hlink)|(Hs & -> & Hlink)]); unfold plan_buffer.
  - rewrite Hs, Hlink. cbn. rewrite Hl, ?Hs. reflexivity.
  - rewrite Hl, Hlink. cbn. rewrite ?Hl, Hr. reflexivity.
Qed.

(** The buffer of a voice never has a negative length, and has frames only
    when the bank has sample data.  It is stereo exactly for a pair of a
    left sample (type 4) and a right sample (type 2) of which one is the
    sample played and the other the one it links to: for such a pair whose
    shorter length is not negative (and, unless that length is 0, with
    sample data in the bank) the buffer has two channels, the shorter of the
    two lengths, and the loop points of the left sample, also when the
    right one was played.  Every other sample, linked or not, gets a mono
    buffer from its own addresses, when it gets one. *)
Theorem plan_buffer_shape this s :
  (∀ l r, stereo_pair this s l r →
     let length := Z.min (end_ l - start l) (end_ r - start r) in
     0 ≤ length → (0 < length → sampleData this ≠ None) →
     plan_buffer this s =
       Ok (mkBufferPlan 2 length (startLoop l - start l) (endLoop l - start l))) ∧
  (∀ p, plan_buffer this s = Ok p →
     0 ≤ frames p ∧ (0 < frames p → sampleData this ≠ None) ∧
     ((numChannels p = 1 ∧ (¬ ∃ l r, stereo_pair this s l r) ∧
       frames p = end_ s - start s ∧
       leftLoopStart p = startLoop s - start s ∧ leftLoopEnd p = endLoop s - start s) ∨
      (numChannels p = 2 ∧
       ∃ l r, stereo_pair this s l r ∧
         frames p = Z.min (end_ l - start l) (end_ r - start r) ∧
         leftLoopStart p = startLoop l - start l ∧ leftLoopEnd p = endLoop l - start l))).
Proof.
  split.
  - intros l r Hpair len H0 Hd. rewrite (plan_buffer_pair _ _ _ _ Hpair).
    fold len. by rewrite fill_check_pass.
  - intros p Hp.
    assert (Hstereo : ∀ l r, stereo_pair this s l r →
      0 ≤ frames p ∧ (0 < frames p → sampleData this ≠ None) ∧
      ((numChannels p = 1 ∧ (¬ ∃ l r, stereo_pair this s l r) ∧
        frames p = end_ s - start s ∧
        leftLoopStart p = startLoop s - start s ∧
        leftLoopEnd p = endLoop s - start s) ∨
       (numChannels p = 2 ∧
        ∃ l r, stereo_pair this s l r ∧
          frames p = Z.min (end_ l - start l) (end_ r - start r) ∧
          leftLoopStart p = startLoop l - start l ∧
          leftLoopEnd p = endLoop l - start l))).
    { intros l r Hpair. rewrite (plan_buffer_pair _ _ _ _ Hpair) in Hp.
      apply bind_Ok in Hp as ([] & Hf & [= <-]). apply fill_check_Ok in Hf as [H0 Hd].
      cbn [frames numChannels leftLoopStart leftLoopEnd]. split; [done|]. split; [done|].
      right. split; [done|]. by exists l, r. }
    assert (Hmono : (¬ ∃ l r, stereo_pair this s l r) →
      fill_check this (end_ s - start s) ≫=
        (λ _, Ok (mkBufferPlan 1 (end_ s - start s) (startLoop s - start s)
                    (endLoop s - start s))) = Ok p →
      0 ≤ frames p ∧ (0 < frames p → sampleData this ≠ None) ∧
      ((numChannels p = 1 ∧ (¬ ∃ l r, stereo_pair this s l r) ∧
        frames p = end_ s - start s ∧
        leftLoopStart p = startLoop s - start s ∧
        leftLoopEnd p = endLoop s - start s) ∨
       (numChannels p = 2 ∧
        ∃ l r, stereo_pair this s l r ∧
          frames p = Z.min (end_ l - start l) (end_ r - start r) ∧
          leftLoopStart p = startLoop l - start l ∧
          leftLoopEnd p = endLoop l - start l))).
    { intros Hnone ([] & Hf & [= <-])%bind_Ok. apply fill_check_Ok in Hf as [H0 Hd].
      cbn [frames numChannels leftLoopStart leftLoopEnd].
      split; [done|]. split; [done|]. by left. }
    destruct (Z.eq_dec (sampleType s) 2) as [Ht2|Ht2].
    + destruct (arr_get (samples this) (sampleLink s)) as [l|] eqn:Hl.
      * destruct (Z.eq_dec (sampleType l) 4) as [Hl4|Hl4].
        -- apply (Hstereo l s). split_and!; try done. by left.
        -- revert Hp. unfold plan_buffer. rewrite Ht2, Hl.
           cbn [Z.land Pos.land Z.eqb Pos.eqb negb orb].
           destruct (Z.eqb_spec (sampleType l) 4) as [?|_]; [done|].
           apply Hmono.
           intros (l' & r' & Hl' & _ & [(_ & _ & Hlink)|(Hs & _)]); congruence.
      * revert Hp. unfold plan_buffer. rewrite Ht2, Hl. done.
    + destruct (Z.eq_dec (sampleType s) 4) as [Hs4|Hs4].
      * destruct (arr_get (samples this) (sampleLink s)) as [r|] eqn:Hr.
        -- destruct (Z.eq_dec (sampleType r) 2) as [Hr2|Hr2].
           ++ apply (Hstereo s r). split_and!; try done. by right.
           ++ revert Hp. unfold plan_buffer. rewrite Hs4, Hr.
              cbn [Z.land Pos.land Z.eqb Pos.eqb negb orb]. rewrite Hs4.
              cbn [Z.eqb Pos.eqb].
              destruct (Z.eqb_spec (sampleType r) 2) as [?|_]; [done|].
              apply Hmono.
              intros (l' & r' & _ & Hr' & [(Hs & _)|(_ & _ & Hlink)]); congruence.
        -- revert Hp. unfold plan_buffer. rewrite Hs4, Hr.
           cbn [Z.land Pos.land Z.eqb Pos.eqb negb orb]. rewrite Hs4. done.
      * assert (Hnone : ¬ ∃ l r, stereo_pair this s l r).
        { intros (l' & r' & Hl' & Hr' & [(Hs & _)|(_ & -> & _)]); congruence. }
        revert Hp. unfold plan_buffer.
        destruct (_ || _); [|by apply Hmono].
        destruct (Z.eqb_spec (sampleType s) 2) as [?|_]; [done|].
        destruct (Z.eqb_spec (sampleType s) 4) as [?|_]; [done|].
        by apply Hmono.
Qed.

(** The right sample of the example pair, and then the left one, is played
    from a stereo buffer of 80 frames with the loop points of the left
    sample. *)
Lemma plan_buffer_shape_witness :
  plan_buffer stereo_bank (mkSample "R" 100 180 110 170 44100 60 0 0 2) =
    Ok (mkBufferPlan 2 80 10 90) ∧
  plan_buffer stereo_bank (mkSample "L" 0 100 10 90 44100 60 0 1 4) =
    Ok (mkBufferPlan 2 80 10 90).
Proof.
  split.
  - apply (proj1 (plan_buffer_shape stereo_bank (mkSample "R" 100 180 110 170 44100 60 0 0 2))
             (mkSample "L" 0 100 10 90 44100 60 0 1 4)
             (mkSample "R" 100 180 110 170 44100 60 0 0 2)).
    + split; [reflexivity|]. split; [reflexivity|]. left. by split_and!.
    + simpl. lia.
    + discriminate.
  - apply (proj1 (plan_buffer_shape stereo_bank (mkSample "L" 0 100 10 90 44100 60 0 1 4))
             (mkSample "L" 0 100 10 90 44100 60 0 1 4)
             (mkSample "R" 100 180 110 170 44100 60 0 0 2)).
    + split; [reflexivity|]. split; [reflexivity|]. right. by split_and!.
    + simpl. lia.
    + discriminate.
Defined.

(** ** Bank select and pitch bend *)

(** Bank select (controllers 0 and 32) and pitch bend messages are stored
    and never used: after such a message the bank, the active notes and the
    calls made are as before, and on every channel a trigger gives exactly
    what it would have given before the message, on any bank. *)
Theorem bank_and_bend_inert division s tick ev ch type p1 p2 s' :
  body ev = Channel2 ch type p1 p2 →
  (type = 0xB ∧ (p1 = 0 ∨ p1 = 32)) ∨ type = 0xE →
  dispatch division s (tick, ev) = Ok s' →
  parser s' = parser s ∧ activeNotes s' = activeNotes s ∧ calls s' = calls s ∧
  ∀ ch' c c' this key velocity t,
    arr_get (channelState s) ch' = Some c →
    arr_get (channelState s') ch' = Some c' →
    playNote this key velocity t c' = playNote this key velocity t c.
Proof.
  intros Hb Hkind Hd.
  assert (Hu : ∃ f, channel_update (body ev) = Some (ch, f) ∧
             ∀ c this key velocity t,
               playNote this key velocity t (f c) = playNote this key velocity t c).
  { rewrite Hb. destruct Hkind as [[-> [-> | ->]] | ->]; eexists; (split; [reflexivity|]);
      intros c this key velocity t; apply playNote_ignores_bank_and_bend. }
  destruct Hu as (f & Hu & Hf).
  rewrite (dispatch_channel_update _ _ _ _ _ _ Hu) in Hd.
  assert (Hc : is_Some (arr_get (channelState s) ch)).
  { destruct (arr_get (channelState s) ch) as [c|] eqn:E; [by eexists|].
    exfalso. revert Hd. unfold update_channel. cbn [channelState advanced]. by rewrite E. }
  destruct Hc as [c0 Hc0].
  destruct (update_channel_spec (advanced division s tick) ch f c0 Hc0)
    as (s1 & Hs1 & Hch & Hother & Ha & Hp & Hcalls & _).
  cbn [advanced channelState activeNotes parser calls] in Hother, Ha, Hp, Hcalls.
  rewrite Hd in Hs1. injection Hs1 as <-. split_and!; [done..|].
  intros ch' c c' this key velocity t Hc Hc'.
  destruct (decide (ch' = ch)) as [->|Hne].
  - rewrite Hc0 in Hc. injection Hc as <-. rewrite Hch in Hc'. injection Hc' as <-.
    apply Hf.
  - rewrite Hother, Hc in Hc' by done. by injection Hc' as <-.
Qed.

Lemma bank_and_bend_inert_witness :
  playNote example_bank 60 100 (Some 0%Q)
    (controller 0 3 default_channel) =
  playNote example_bank 60 100 (Some 0%Q) default_channel.
Proof.
  destruct (bank_and_bend_inert 480 (init_scheduler example_bank 0) 0
              (mkEvent 0 0xB0 (Channel2 0 0xB 0 3)) 0 0xB 0 3
              (mkScheduler 500000 0 (Some (0 + inject_Z (0 - 0) / inject_Z 480 *
                                             (500000 # 1000000))%Q)
                 (replicate 16 ∅)
                 (<[0%nat := controller 0 3 default_channel]> (replicate 16 default_channel))
                 example_bank [])
              eq_refl (or_introl (conj eq_refl (or_introl eq_refl))) eq_refl)
    as (_ & _ & _ & H).
  apply (H 0 default_channel (controller 0 3 default_channel)); reflexivity.
Defined.
